(** * FontCore: core_filename_parts_parser

    A shallow embedding of [core_filename_parts_parser.py]: the PascalCase
    tokenizer, the token formatter, the digit/lowercase merge pass, the
    spacing engine and the family/subfamily orchestration, together with
    the properties the specification states about them.

    Python strings are sequences of Unicode code points; they are modelled
    as [list N].  The behaviour of the interpreter on ASCII code points is
    written out; what it does on the other code points (character classes,
    case mappings) is a parameter of the development, so that every
    statement holds whatever the Unicode tables say. *)

From Stdlib Require Import NArith Ascii String.
From stdpp Require Import base tactics option list numbers.

Open Scope N_scope.
Open Scope nat_scope.
Open Scope list_scope.

(** ** Strings *)

(** ASCII literals: [py "Abc"] is the Python string ['Abc']. *)
Definition py (s : string) : list N :=
  map N_of_ascii (list_ascii_of_string s).

Definition ch (a : ascii) : N := N_of_ascii a.

Definition str_eqb (a b : list N) : bool := bool_decide (a = b).

(** [x in (a, b, ...)] and [x in {a, b, ...}] for strings. *)
Definition str_in (x : list N) (xs : list (list N)) : bool :=
  existsb (str_eqb x) xs.

(** ** Character data *)

Inductive ucase := Upper | Lower | Title | Uncased.
Inductive uclass := Alpha | Decimal | Digit | Space | OtherClass.
Record uinfo := { u_class : uclass; u_case : ucase }.

Definition in_range (lo hi c : N) : bool := ((lo <=? c) && (c <=? hi))%N.

(** [A-Z], [a-z] and [0-9] as the regular expressions and the ASCII
    part of the [str] predicates see them. *)
Definition is_AZ (c : N) : bool := in_range 65 90 c.
Definition is_az (c : N) : bool := in_range 97 122 c.
Definition is_09 (c : N) : bool := in_range 48 57 c.

(** ASCII white space of [str.isspace]: TAB..CR, FS..US and the space. *)
Definition is_ascii_space (c : N) : bool :=
  in_range 9 13 c || in_range 28 32 c.

Definition ascii_info (c : N) : uinfo :=
  if is_AZ c then {| u_class := Alpha; u_case := Upper |}
  else if is_az c then {| u_class := Alpha; u_case := Lower |}
  else if is_09 c then {| u_class := Decimal; u_case := Uncased |}
  else if is_ascii_space c then {| u_class := Space; u_case := Uncased |}
  else {| u_class := OtherClass; u_case := Uncased |}.

Definition ascii_upper (c : N) : N := if is_az c then (c - 32)%N else c.
Definition ascii_lower (c : N) : N := if is_AZ c then (c + 32)%N else c.

(** The Unicode tables beyond ASCII. [uni_lower s i] is the lowercase
    mapping of the character at index [i] of [s] (the mapping of a
    capital sigma depends on its neighbours). *)
Record unicode := {
  uni_info : N -> uinfo;
  uni_upper : N -> list N;
  uni_lower : list N -> nat -> list N
}.

(** Tables in which every code point beyond ASCII is an uncased symbol
    that the case mappings leave alone. *)
Definition ascii_only : unicode :=
  {| uni_info := fun _ => {| u_class := OtherClass; u_case := Uncased |};
     uni_upper := fun c => [c];
     uni_lower := fun s i =>
       match s !! i with Some c => [c] | None => [] end |}.

(** ** Exceptions

    The operations of the module that can raise are indexing and tuple
    unpacking. [Unfinished] is the outcome of a [while] loop that is cut
    off before its condition turns false. *)

Inductive exn := IndexError | ValueError | Unfinished.

Inductive result (A : Type) :=
| Ok (a : A)
| Raise (e : exn).
Arguments Ok {A} a.
Arguments Raise {A} e.

Definition bind {A B} (m : result A) (k : A -> result B) : result B :=
  match m with
  | Ok a => k a
  | Raise e => Raise e
  end.

Notation "'let*' x ':=' m 'in' k" := (bind m (fun x => k))
  (at level 10, x name, m at level 100, k at level 200, only parsing).
Notation "'let*' ' p ':=' m 'in' k" := (bind m (fun x => let 'p := x in k))
  (at level 10, p pattern, m at level 100, k at level 200, only parsing).

(** [l[i]] for a non-negative [i]. *)
Definition index {A} (l : list A) (i : nat) : result A :=
  match l !! i with
  | Some x => Ok x
  | None => Raise IndexError
  end.

(** [a, b = l] *)
Definition unpack2 {A} (l : list A) : result (A * A) :=
  match l with
  | [a; b] => Ok (a, b)
  | _ => Raise ValueError
  end.

(** [for x in l: out.append(f(x))] *)
Fixpoint for_append {A B} (f : A -> result B) (l : list A) : result (list B) :=
  match l with
  | [] => Ok []
  | x :: l' => let* y := f x in let* ys := for_append f l' in Ok (y :: ys)
  end.

Fixpoint enumerate_from {A} (i : nat) (l : list A) : list (nat * A) :=
  match l with
  | [] => []
  | x :: l' => (i, x) :: enumerate_from (S i) l'
  end.

Definition enumerate {A} (l : list A) : list (nat * A) := enumerate_from 0 l.

Definition nonempty {A} (l : list A) : bool :=
  match l with [] => false | _ :: _ => true end.

Section Parser.

Context (U : unicode).

Definition char_info (c : N) : uinfo :=
  if (c <? 128)%N then ascii_info c else uni_info U c.

Definition case_is (k : ucase) (c : N) : bool :=
  match u_case (char_info c), k with
  | Upper, Upper | Lower, Lower | Title, Title | Uncased, Uncased => true
  | _, _ => false
  end.

Definition class_is (k : uclass) (c : N) : bool :=
  match u_class (char_info c), k with
  | Alpha, Alpha | Decimal, Decimal | Digit, Digit | Space, Space
  | OtherClass, OtherClass => true
  | _, _ => false
  end.

(** [\d] of a [str] pattern: a Unicode decimal digit. *)
Definition is_decimal (c : N) : bool := class_is Decimal c.
(** One character of [str.isdigit]. *)
Definition is_digit (c : N) : bool := class_is Decimal c || class_is Digit c.
Definition is_alpha (c : N) : bool := class_is Alpha c.
Definition is_space (c : N) : bool := class_is Space c.

(** ** [str] methods *)

(** [s.isupper()]: no lowercase or titlecase character and at least one
    uppercase one. *)
Definition isupper (s : list N) : bool :=
  forallb (fun c => negb (case_is Lower c || case_is Title c)) s
  && existsb (case_is Upper) s.

Definition islower (s : list N) : bool :=
  forallb (fun c => negb (case_is Upper c || case_is Title c)) s
  && existsb (case_is Lower) s.

Definition isdigit (s : list N) : bool :=
  negb (bool_decide (s = [])) && forallb is_digit s.

Definition upper_char (c : N) : list N :=
  if (c <? 128)%N then [ascii_upper c] else uni_upper U c.

Definition upper (s : list N) : list N := concat (map upper_char s).

Definition lower (s : list N) : list N :=
  concat (imap (fun i c => if (c <? 128)%N then [ascii_lower c]
                           else uni_lower U s i) s).

Fixpoint lstrip (s : list N) : list N :=
  match s with
  | c :: s' => if is_space c then lstrip s' else s
  | [] => []
  end.

Definition rstrip (s : list N) : list N := rev (lstrip (rev s)).

(** [s.strip()] *)
Definition strip (s : list N) : list N := rstrip (lstrip s).

(** [s[i:j]] and [s[i:]] for non-negative [i], [j]. *)
Definition slice {A} (s : list A) (i j : nat) : list A := drop i (take j s).
Definition slice_from {A} (s : list A) (i : nat) : list A := drop i s.

(** [s.startswith(p)] *)
Fixpoint startswith (p s : list N) : bool :=
  match p, s with
  | [], _ => true
  | a :: p', b :: s' => (a =? b)%N && startswith p' s'
  | _ :: _, [] => false
  end.

Definition endswith (s p : list N) : bool := startswith (rev p) (rev s).

(** [p in s] *)
Fixpoint contains (p s : list N) : bool :=
  startswith p s ||
  match s with
  | _ :: s' => contains p s'
  | [] => false
  end.

(** [s.replace(old, new)] for a non-empty [old]: the occurrences are
    taken from left to right and do not overlap. [skip] counts the
    characters of the occurrence being replaced that are still ahead. *)
Fixpoint replace_from (old new : list N) (skip : nat) (s : list N) : list N :=
  match s with
  | [] => []
  | c :: s' =>
      match skip with
      | S k => replace_from old new k s'
      | O => if startswith old s
             then new ++ replace_from old new (length old - 1) s'
             else c :: replace_from old new 0 s'
      end
  end.

Definition replace (old new s : list N) : list N := replace_from old new 0 s.

(** [s.split(sep)] for a one-character separator. *)
Fixpoint split_char (sep : N) (s : list N) : list (list N) :=
  match s with
  | [] => [[]]
  | c :: s' =>
      if (c =? sep)%N then [] :: split_char sep s'
      else match split_char sep s' with
           | piece :: rest => (c :: piece) :: rest
           | [] => [[c]]
           end
  end.

(** [s.split(sep, 1)] for a one-character separator: a list of one or
    two strings. *)
Fixpoint split_once (sep : N) (s : list N) : list (list N) :=
  match s with
  | [] => [[]]
  | c :: s' =>
      if (c =? sep)%N then [[]; s']
      else match split_once sep s' with
           | piece :: rest => (c :: piece) :: rest
           | [] => [[c]]
           end
  end.

(** ** The token pattern

    Every alternative of [_TOKEN_PATTERN] is a function of the character
    before the scan position (for the look-behinds) and of the text from
    the scan position on; it returns the length of its match. *)

(** Length of the longest prefix whose characters satisfy [p]. *)
Fixpoint run (p : N -> bool) (s : list N) : nat :=
  match s with
  | c :: s' => if p c then S (run p s') else 0
  | [] => 0
  end.

Definition head_is (p : N -> bool) (s : list N) : bool :=
  match s with c :: _ => p c | [] => false end.

Definition prev_is (p : N -> bool) (prev : option N) : bool :=
  match prev with Some c => p c | None => false end.

(** [$] without MULTILINE: the end of the string, or just before a
    newline that ends the string. *)
Definition at_dollar (s : list N) : bool :=
  match s with
  | [] => true
  | [c] => (c =? 10)%N
  | _ => false
  end.

(** [[A-Z]+(?=[A-Z][a-z])]: the run is taken greedily and given back one
    letter at a time until the look-ahead holds. *)
Definition ahead_camel (s : list N) : bool :=
  match s with
  | a :: b :: _ => is_AZ a && is_az b
  | _ => false
  end.

Fixpoint acronym_before_camel (s : list N) : option nat :=
  match s with
  | c :: s' =>
      if is_AZ c then
        match acronym_before_camel s' with
        | Some n => Some (S n)
        | None => if ahead_camel s' then Some 1 else None
        end
      else None
  | [] => None
  end.

(** [(?:\.\d+)*], greedy: the number of characters of the dot groups.
    [fuel] bounds the number of groups by the length of the text. *)
Fixpoint dot_groups (fuel : nat) (s : list N) : nat :=
  match fuel with
  | O => 0
  | S fuel' =>
      match s with
      | c :: s' =>
          if (c =? 46)%N then
            match run is_decimal s' with
            | O => 0
            | S d => S (S d) + dot_groups fuel' (drop (S d) s')
            end
          else 0
      | [] => 0
      end
  end.

(** [(?<![A-Z])[A-Z]\d+(?:\.\d+)*] *)
Definition single_cap_number (prev : option N) (s : list N) : option nat :=
  if prev_is is_AZ prev then None
  else match s with
       | c :: s' =>
           if is_AZ c then
             match run is_decimal s' with
             | O => None
             | S d => Some (S (S d) + dot_groups (length s') (drop (S d) s'))
             end
           else None
       | [] => None
       end.

(** [\d+(?:\.\d+)+]: giving digits back never helps, since a dot has to
    follow the digits. *)
Definition decimal_number (s : list N) : option nat :=
  match run is_decimal s with
  | O => None
  | S d =>
      match dot_groups (length s) (drop (S d) s) with
      | O => None
      | S g => Some (S d + S g)
      end
  end.

(** The characters of the class [[&!*(){}\[\]?,;$\-%@']]. *)
Definition word_stop_chars : list N :=
  map ch ["&"; "!"; "*"; "("; ")"; "{"; "}"; "["; "]"; "?"; ","; ";";
          "$"; "-"; "%"; "@"; "'"]%char.

Definition is_word_stop (c : N) : bool :=
  existsb (N.eqb c) word_stop_chars.

(** [(?=[A-Z]|(?<![A-Z])[A-Z]\d|\d|[&!*(){}\[\]?,;$\-%@']|$)] *)
Definition ahead_word_end (prev : option N) (s : list N) : bool :=
  head_is is_AZ s
  || (negb (prev_is is_AZ prev)
      && match s with a :: b :: _ => is_AZ a && is_decimal b | _ => false end)
  || head_is is_decimal s
  || head_is is_word_stop s
  || at_dollar s.

(** [[a-z]+?(?=...)]: lazy, the shortest run the look-ahead accepts. *)
Fixpoint lazy_lowercase (s : list N) : option nat :=
  match s with
  | c :: s' =>
      if is_az c then
        if ahead_word_end (Some c) s' then Some 1
        else option_map S (lazy_lowercase s')
      else None
  | [] => None
  end.

(** [[A-Z]?[a-z]+?(?=...)]: the optional capital is tried first, then
    the word without it. *)
Definition capitalized_word (s : list N) : option nat :=
  match (match s with
         | c :: s' => if is_AZ c then option_map S (lazy_lowercase s') else None
         | [] => None
         end) with
  | Some n => Some n
  | None => lazy_lowercase s
  end.

(** [[A-Z]{2,}] *)
Definition all_caps_sequence (s : list N) : option nat :=
  let n := run is_AZ s in if 2 <=? n then Some n else None.

(** [[A-Z]] *)
Definition single_uppercase (s : list N) : option nat :=
  if head_is is_AZ s then Some 1 else None.

(** [\d+] *)
Definition digits (s : list N) : option nat :=
  match run is_decimal s with O => None | n => Some n end.

(** The one-character alternatives, in the order of the pattern:
    [& ! * ( { [ ] } ? , ; $ % @]. *)
Definition special_chars : list N :=
  map ch ["&"; "!"; "*"; "("; "{"; "["; "]"; "}"; "?"; ","; ";";
          "$"; "%"; "@"]%char.

Definition special_char (s : list N) : option nat :=
  if head_is (fun c => existsb (N.eqb c) special_chars) s then Some 1 else None.

Definition or_else {A} (a : option A) (b : option A) : option A :=
  match a with Some x => Some x | None => b end.

(** [_TOKEN_PATTERN]: the first alternative that matches wins. *)
Definition token_match (prev : option N) (s : list N) : option nat :=
  or_else (acronym_before_camel s)
  (or_else (single_cap_number prev s)
  (or_else (decimal_number s)
  (or_else (capitalized_word s)
  (or_else (all_caps_sequence s)
  (or_else (single_uppercase s)
  (or_else (digits s)
           (special_char s))))))).

(** [_TOKEN_PATTERN.finditer(value)]: the spans [(start, end)] of the
    matches, found from left to right; after a match the search goes on
    at its end. [skip] counts the characters of the last match that are
    still ahead of [pos]. *)
Fixpoint finditer_from (prev : option N) (pos skip : nat) (s : list N)
  : list (nat * nat) :=
  match s with
  | [] => []
  | c :: s' =>
      match skip with
      | S k => finditer_from (Some c) (S pos) k s'
      | O =>
          match token_match prev s with
          | Some n =>
              (pos, pos + n) :: finditer_from (Some c) (S pos) (n - 1) s'
          | None => finditer_from (Some c) (S pos) 0 s'
          end
      end
  end.

Definition finditer (value : list N) : list (nat * nat) :=
  finditer_from None 0 0 value.

(** ** [tokenize_pascal_case] *)

(** One turn of the [for match in ...] loop on the state
    [(tokens, last_end)]. *)
Definition tokenize_step (value : list N) (st : list (list N) * nat)
    (m : nat * nat) : list (list N) * nat :=
  let '(tokens, last_end) := st in
  let '(m_start, m_end) := m in
  let tokens :=
    if last_end <? m_start then tokens ++ [slice value last_end m_start]
    else tokens in
  (tokens ++ [slice value m_start m_end], m_end).

Definition tokenize_pascal_case (value : list N) : list (list N) :=
  if bool_decide (value = []) then []
  else
    let '(tokens, last_end) :=
      fold_left (tokenize_step value) (finditer value) ([], 0) in
    if last_end <? length value then tokens ++ [slice_from value last_end]
    else tokens.

(** ** [_format_token] *)

Definition format_specials : list (list N) :=
  map py ["!"; "*"; "&"; "("; "{"; "["; "]"; "}"; "?"; ","; ";"; "$"; "%";
          "@"]%string.

(** [re.match(r"^[A-Z]\d", token)] *)
Definition match_cap_digit (token : list N) : bool :=
  match token with
  | a :: b :: _ => is_AZ a && is_decimal b
  | _ => false
  end.

Definition _format_token (token : list N) : result (list N) :=
  if negb (nonempty token) then Ok token
  else if str_in token format_specials then Ok token
  else if isupper token then Ok token
  else if islower token then Ok token
  else if match_cap_digit token then Ok token
  else
    let* c := index token 0 in
    Ok (upper [c] ++ lower (slice_from token 1)).

(** [re.match(r"^\d+(?:\.\d+)+$", token)]: after the greedy match the
    end anchor has to hold; a shorter match leaves a digit or a dot
    ahead, where it never holds. *)
Definition match_decimal_only (token : list N) : bool :=
  match decimal_number token with
  | Some n => at_dollar (drop n token)
  | None => false
  end.

Definition _is_numeric_token (token : list N) : bool :=
  if negb (nonempty token) then false
  else isdigit token || match_decimal_only token.

Definition _is_alphanumeric_token (token : list N) : result bool :=
  if negb (nonempty token) then Ok false
  else if nonempty token then let* c := index token 0 in Ok (is_alpha c)
  else Ok false.

(** ** [apply_spacing_rules] *)

Definition NO_SPACE : list (list N) := map py ["*"; "@"; "'"]%string.
Definition LEADING_SPACE : list (list N) := map py ["("; "{"; "["]%string.
Definition TRAILING_SPACE : list (list N) :=
  map py ["!"; "?"; ","; ";"; ")"; "]"; "}"]%string.
Definition SPECIAL_MONEY_PERCENT : list (list N) := map py ["$"; "%"]%string.

Definition space_before (prev_token : option (list N)) (token : list N)
  : result bool :=
  match prev_token with
  | Some prev =>
      if negb (nonempty prev) then Ok false
      else if str_in token NO_SPACE then Ok false
      else if str_in token TRAILING_SPACE then Ok false
      else if str_eqb token (py "$") then
        if negb (_is_numeric_token prev) then
          let* a := _is_alphanumeric_token prev in
          Ok a
        else Ok false
      else if str_eqb token (py "%") then
        if negb (_is_numeric_token prev) then
          let* a := _is_alphanumeric_token prev in
          Ok a
        else Ok false
      else if str_in token LEADING_SPACE then
        let* a := _is_alphanumeric_token prev in
        Ok a
      else if str_in prev NO_SPACE then Ok false
      else if str_in prev TRAILING_SPACE then Ok false
      else if str_in prev LEADING_SPACE then Ok false
      else if str_eqb prev (py "$") && _is_numeric_token token then Ok false
      else if str_eqb prev (py "%") then Ok false
      else Ok true
  | None => Ok false
  end.

Definition space_after (token : list N) (next_token : option (list N))
  : result bool :=
  match next_token with
  | Some next =>
      if negb (nonempty next) then Ok false
      else if str_in token NO_SPACE then Ok false
      else if str_eqb token (py "$") then
        if negb (_is_numeric_token next) then Ok false else Ok false
      else if str_eqb token (py "%") then
        let* a := _is_alphanumeric_token next in
        Ok a
      else if str_in token TRAILING_SPACE then
        if negb (str_in next NO_SPACE) then Ok true else Ok false
      else Ok false
  | None => Ok false
  end.

(** The body of the [for i, token in enumerate(tokens)] loop. *)
Definition spaced_token (tokens : list (list N)) (it : nat * list N)
  : result (list N) :=
  let '(i, token) := it in
  let* prev_token := (if 0 <? i
                      then let* t := index tokens (i - 1) in Ok (Some t)
                      else Ok None) in
  let* next_token := (if i + 1 <? length tokens
                      then let* t := index tokens (i + 1) in Ok (Some t)
                      else Ok None) in
  let* needs_space_before := space_before prev_token token in
  let* needs_space_after := space_after token next_token in
  Ok ((if needs_space_before then py " " else [])
      ++ token
      ++ (if needs_space_after then py " " else [])).

Definition apply_spacing_rules (tokens : list (list N))
  : result (list (list N)) :=
  if negb (nonempty tokens) then Ok []
  else
    let tokens := filter (fun t => nonempty t = true) tokens in
    if negb (nonempty tokens) then Ok []
    else for_append (spaced_token tokens) (enumerate tokens).

(** ** [format_pascal_words] *)

(** The [while i < len(segment_tokens)] loop of the merge pass, on the
    state [(i, merged_tokens)]. *)
Fixpoint merge_loop (fuel : nat) (segment_tokens : list (list N)) (i : nat)
    (merged_tokens : list (list N * bool)) : result (list (list N * bool)) :=
  if negb (i <? length segment_tokens) then Ok merged_tokens
  else
    match fuel with
    | O => Raise Unfinished
    | S fuel' =>
        let* current_token := index segment_tokens i in
        let* mergeable := (if isdigit current_token then
                        if i + 1 <? length segment_tokens then
                          let* next := index segment_tokens (i + 1) in
                          Ok (islower next)
                        else Ok false
                      else Ok false) in
        if (mergeable : bool) then
          let* next := index segment_tokens (i + 1) in
          merge_loop fuel' segment_tokens (i + 2)
            (merged_tokens ++ [(current_token ++ next, true)])
        else
          merge_loop fuel' segment_tokens (i + 1)
            (merged_tokens ++ [(current_token, false)])
    end.

(** The merge pass of one segment. The index grows in every turn, so
    the loop takes at most [len(segment_tokens)] turns. *)
Definition merge_tokens (segment_tokens : list (list N))
  : result (list (list N * bool)) :=
  merge_loop (length segment_tokens) segment_tokens 0 [].

(** The body of the [for segment in segments] loop: the formatted
    tokens of one segment. *)
Definition format_segment (segment : list N) : result (list (list N)) :=
  let segment_tokens := tokenize_pascal_case segment in
  let* merged_tokens := merge_tokens segment_tokens in
  let* starts_lower := (if nonempty segment
                        then let* c := index segment 0 in Ok (islower [c])
                        else Ok false) in
  if (starts_lower : bool) then
    for_append (fun '(token, is_merged) => Ok token) merged_tokens
  else
    for_append (fun '(token, is_merged) =>
                  if (is_merged : bool) then Ok token else _format_token token)
               merged_tokens.

Definition segments_of (value : list N) : list (list N) :=
  filter (fun seg => nonempty seg = true) (split_char (ch "_") value).

(** [formatted_tokens] after the loop over the segments. *)
Fixpoint formatted_tokens_of (segments : list (list N))
  : result (list (list N)) :=
  match segments with
  | [] => Ok []
  | segment :: rest =>
      let* segment_formatted := format_segment segment in
      let* others := formatted_tokens_of rest in
      Ok (segment_formatted ++ others)
  end.

Definition format_pascal_words (value : list N) : result (list N) :=
  if negb (nonempty value) then Ok []
  else
    let* formatted_tokens := formatted_tokens_of (segments_of value) in
    let* spaced_tokens := apply_spacing_rules formatted_tokens in
    Ok (strip (concat spaced_tokens)).

(** ** File names *)

Definition sanitize_forbidden_characters (name : list N) : list N :=
  replace (py "\") (py "_") (replace (py ":") (py "_") name).

(** [s.rfind(c)] for a character, [None] for -1. *)
Fixpoint rfind_char (c : N) (s : list N) : option nat :=
  match s with
  | [] => None
  | x :: s' =>
      match rfind_char c s' with
      | Some k => Some (S k)
      | None => if (x =? c)%N then Some 0 else None
      end
  end.

(** [os.path.basename] of [posixpath]. *)
Definition basename (p : list N) : list N :=
  let i := match rfind_char (ch "/") p with Some k => S k | None => 0 end in
  slice_from p i.

(** [os.path.splitext] of [posixpath]: the extension starts at the last
    dot of the last path component, unless only dots come before it. *)
Definition splitext (p : list N) : list N * list N :=
  let filenameIndex :=
    match rfind_char (ch "/") p with Some k => S k | None => 0 end in
  match rfind_char (ch ".") p with
  | Some dotIndex =>
      if (filenameIndex <=? dotIndex)
         && existsb (fun c => negb (c =? ch ".")%N)
                    (slice p filenameIndex dotIndex)
      then (take dotIndex p, slice_from p dotIndex)
      else (p, [])
  | None => (p, [])
  end.

Definition _normalize_basename (input_name : list N) (strip_extension : bool)
  : list N :=
  let candidate := basename input_name in
  let candidate := sanitize_forbidden_characters candidate in
  let candidate :=
    if contains (py ".CFF2.") candidate
    then replace (py ".CFF2.") (py ".") candidate
    else if endswith candidate (py ".CFF2")
         then take (length candidate - 5) candidate
         else candidate in
  if strip_extension then fst (splitext candidate) else candidate.

(** The value returned is a pair in one branch and the list of
    [str.split] in the other; both are sequences the callers unpack. *)
Definition _split_at_hyphen (base : list N) : list (list N) :=
  if negb (contains (py "-") base) then [base; []]
  else split_once (ch "-") base.

Definition split_family_subfamily (input_name : list N)
    (strip_extension : bool) : result (list N * list N) :=
  let base := _normalize_basename input_name strip_extension in
  let* '(left_raw, right_raw) := unpack2 (_split_at_hyphen base) in
  let* family := format_pascal_words left_raw in
  let* subfamily := (if nonempty right_raw then format_pascal_words right_raw
                else Ok []) in
  Ok (family, subfamily).

Definition family_from_filename (input_name : list N)
    (strip_extension : bool) : result (list N) :=
  let* '(family, _) := split_family_subfamily input_name strip_extension in
  Ok family.

Definition subfamily_from_filename (input_name : list N)
    (strip_extension : bool) : result (list N) :=
  let* '(_, subfamily) := split_family_subfamily input_name strip_extension in
  Ok subfamily.

Record ParsedName := {
  original : list N;
  base : list N;
  family_raw : list N;
  subfamily_raw : list N;
  family : list N;
  subfamily : list N
}.

Definition parse_filename (input_name : list N) (strip_extension : bool)
  : result ParsedName :=
  let base := _normalize_basename input_name strip_extension in
  let* '(left_raw, right_raw) := unpack2 (_split_at_hyphen base) in
  let* family := format_pascal_words left_raw in
  let* subfamily := (if nonempty right_raw then format_pascal_words right_raw
                else Ok []) in
  Ok {| original := input_name;
        base := base;
        family_raw := left_raw;
        subfamily_raw := right_raw;
        family := family;
        subfamily := subfamily |}.

(** ** The text of the results

    The functions above never raise; these are the values they return,
    written without the exception plumbing, and the form of the loops
    by recursion on the token list. *)

Definition pad (b : bool) : list N := if b then py " " else [].

Definition starts_alpha (token : list N) : bool := head_is is_alpha token.

Definition title_case (token : list N) : list N :=
  match token with
  | c :: rest => upper [c] ++ lower rest
  | [] => []
  end.

Definition format_token_text (token : list N) : list N :=
  if negb (nonempty token) then token
  else if str_in token format_specials then token
  else if isupper token then token
  else if islower token then token
  else if match_cap_digit token then token
  else title_case token.

Definition wants_space_before (prev token : list N) : bool :=
  if str_in token NO_SPACE then false
  else if str_in token TRAILING_SPACE then false
  else if str_eqb token (py "$") || str_eqb token (py "%") then
    negb (_is_numeric_token prev) && starts_alpha prev
  else if str_in token LEADING_SPACE then starts_alpha prev
  else if str_in prev NO_SPACE then false
  else if str_in prev TRAILING_SPACE then false
  else if str_in prev LEADING_SPACE then false
  else if str_eqb prev (py "$") && _is_numeric_token token then false
  else if str_eqb prev (py "%") then false
  else true.

Definition wants_space_after (token next : list N) : bool :=
  if str_in token NO_SPACE then false
  else if str_eqb token (py "$") then false
  else if str_eqb token (py "%") then starts_alpha next
  else if str_in token TRAILING_SPACE then negb (str_in next NO_SPACE)
  else false.

Definition space_before_text (prev : option (list N)) (token : list N) : bool :=
  match prev with
  | Some p => nonempty p && wants_space_before p token
  | None => false
  end.

Definition space_after_text (token : list N) (next : option (list N)) : bool :=
  match next with
  | Some n => nonempty n && wants_space_after token n
  | None => false
  end.

Definition spaced_text (prev : option (list N)) (token : list N)
    (next : option (list N)) : list N :=
  pad (space_before_text prev token)
  ++ token ++ pad (space_after_text token next).

(** The spaced tokens of [tokens] when [prev] is the token before them. *)
Fixpoint spacing_walk (prev : option (list N)) (tokens : list (list N))
  : list (list N) :=
  match tokens with
  | [] => []
  | token :: rest =>
      spaced_text prev token (head rest) :: spacing_walk (Some token) rest
  end.

Definition spacing_text (tokens : list (list N)) : list (list N) :=
  spacing_walk None (filter (fun t => nonempty t = true) tokens).

(** The merge pass as one walk down the token list. *)
Fixpoint merge_pairs (tokens : list (list N)) : list (list N * bool) :=
  match tokens with
  | [] => []
  | current :: rest =>
      match rest with
      | next :: rest' =>
          if isdigit current && islower next
          then (current ++ next, true) :: merge_pairs rest'
          else (current, false) :: merge_pairs rest
      | [] => [(current, false)]
      end
  end.

Definition segment_text (segment : list N) : list (list N) :=
  let merged := merge_pairs (tokenize_pascal_case segment) in
  if head_is (case_is Lower) segment then map fst merged
  else map (fun '(token, is_merged) =>
              if (is_merged : bool) then token else format_token_text token)
           merged.

Definition formatted_text (value : list N) : list (list N) :=
  concat (map segment_text (segments_of value)).

(** The string before the final [strip()]. *)
Definition joined_text (value : list N) : list N :=
  concat (spacing_text (formatted_text value)).

Definition format_text (value : list N) : list N :=
  if negb (nonempty value) then [] else strip (joined_text value).

(** [lacks cs s]: no character of [cs] occurs in [s]. *)
Definition lacks (cs s : list N) : bool :=
  forallb (fun c => negb (existsb (N.eqb c) cs)) s.

(** The two parts [_split_at_hyphen] returns. *)
Definition hyphen_parts (base : list N) : list N * list N :=
  match _split_at_hyphen base with
  | [a; b] => (a, b)
  | _ => (base, [])
  end.

(** The marker step of [_normalize_basename]. *)
Definition drop_cff2 (candidate : list N) : list N :=
  if contains (py ".CFF2.") candidate
  then replace (py ".CFF2.") (py ".") candidate
  else if endswith candidate (py ".CFF2")
       then take (length candidate - 5) candidate
       else candidate.

(** The merge pass in the words of the specification: two tokens are
    joined when the first is purely digits and the second is purely
    lowercase letters. It is here to be compared with [merge_pairs]. *)
Definition all_lowercase_letters (token : list N) : bool :=
  nonempty token && forallb (fun c => is_alpha c && case_is Lower c) token.

Fixpoint merge_by_the_words (tokens : list (list N)) : list (list N * bool) :=
  match tokens with
  | [] => []
  | current :: rest =>
      match rest with
      | next :: rest' =>
          if isdigit current && all_lowercase_letters next
          then (current ++ next, true) :: merge_by_the_words rest'
          else (current, false) :: merge_by_the_words rest
      | [] => [(current, false)]
      end
  end.

(** [no_double_space s]: no two neighbours in [s] are both the space
    character. [spaces_apart prev_space s] also takes the character
    before [s] into account. *)
Definition is_blank (c : N) : bool := (c =? ch " ")%N.

Fixpoint spaces_apart (prev_space : bool) (s : list N) : bool :=
  match s with
  | [] => true
  | c :: s' => negb (prev_space && is_blank c) && spaces_apart (is_blank c) s'
  end.

Definition no_double_space (s : list N) : bool := spaces_apart false s.

(** Whether the text read so far ends with a space. *)
Definition ends_blank (prev_space : bool) (s : list N) : bool :=
  match list.last s with
  | Some c => is_blank c
  | None => prev_space
  end.

(** What the result about double spaces asks of the Unicode tables:
    the case mappings of the characters beyond ASCII yield no space. *)
Definition spaceless_case_maps : Prop :=
  (forall c, (128 <= c)%N -> ch " " ∉ uni_upper U c)
  /\ (forall s i c, s !! i = Some c -> (128 <= c)%N ->
        ch " " ∉ uni_lower U s i).

(** No white space at either end. *)
Definition trimmed (s : list N) : bool :=
  negb (head_is is_space s) && negb (head_is is_space (rev s)).

(** The spans of [finditer] come in order, do not overlap, are not
    empty and lie inside a text of length [len]. *)
Fixpoint spans_from (len lo : nat) (spans : list (nat * nat)) : Prop :=
  match spans with
  | [] => True
  | (a, b) :: rest => lo <= a /\ a < b /\ b <= len /\ spans_from len b rest
  end.

(** The examples of the docstring are written with these. *)
Definition words (s : string) : result (list N) :=
  format_pascal_words (py s).

Definition parts (s : string) : result (list N * list N) :=
  split_family_subfamily (py s) true.

Definition pair_of (a b : string) : result (list N * list N) :=
  Ok (py a, py b).

(** ** Definitions for the further results *)

(** What [sanitize_forbidden_characters] does to one character. *)
Definition sanitize_char (c : N) : N :=
  if (c =? ch ":")%N || (c =? ch "\")%N then ch "_" else c.

(** A string of ASCII characters. *)
Definition ascii_text (s : list N) : bool := forallb (fun c => (c <? 128)%N) s.

(** A letter or a digit of ASCII. *)
Definition is_alnum (c : N) : bool := is_AZ c || is_az c || is_09 c.

(** The spans of the words [ws] when they stand one behind the other
    from position [pos] on. *)
Fixpoint spans_of (pos : nat) (ws : list (list N)) : list (nat * nat) :=
  match ws with
  | [] => []
  | w :: rest => (pos, pos + length w) :: spans_of (pos + length w) rest
  end.

(** [matched_in_turn prev ws]: in the text [concat ws], read behind the
    character [prev], the pattern matches the words of [ws] one after
    the other. *)
Fixpoint matched_in_turn (prev : option N) (ws : list (list N)) : Prop :=
  match ws with
  | [] => True
  | w :: rest =>
      w <> []
      /\ token_match prev (w ++ concat rest) = Some (length w)
      /\ matched_in_turn (list.last w) rest
  end.

(** [Queen], [Sans]: a capital and then lowercase letters, at least
    one. *)
Definition capitalized (w : list N) : bool :=
  match w with
  | c :: rest => is_AZ c && nonempty rest && forallb is_az rest
  | [] => false
  end.

(** [KWAK], [U]: capitals only, at least one. *)
Definition all_caps (w : list N) : bool := nonempty w && forallb is_AZ w.

(** A list of such words in which no run of capitals is followed by
    another one, as in [["KWAK"; "Grotesk"]] or [["Queen"; "Sans"]]. *)
Fixpoint camel_words (ws : list (list N)) : bool :=
  match ws with
  | [] => true
  | w :: rest =>
      (capitalized w
       || (all_caps w
           && match rest with next :: _ => capitalized next | [] => true end))
      && camel_words rest
  end.

(** [" ".join(ws)] *)
Fixpoint space_join (ws : list (list N)) : list N :=
  match ws with
  | [] => []
  | w :: rest =>
      match rest with
      | [] => w
      | _ :: _ => w ++ py " " ++ space_join rest
      end
  end.

(** ["_".join(parts)] *)
Fixpoint underscore_join (parts : list (list N)) : list N :=
  match parts with
  | [] => []
  | part :: rest =>
      match rest with
      | [] => part
      | _ :: _ => part ++ py "_" ++ underscore_join rest
      end
  end.

(** What an ASCII text says when case, white space and underscores are
    left aside: its other characters, in order, letters in lowercase. *)
Definition content (s : list N) : list N :=
  List.filter (fun c => negb (is_ascii_space c || (c =? ch "_")%N))
    (map ascii_lower s).

(** ** [core_name_policies]: the callers of [parse_filename]

    [group_fonts_by_family_filename] imports the parser and, when the
    import fails, falls back on [_group_fonts_fallback]. The two are
    modelled apart: the first with the import succeeding. *)

Global Instance exn_eq_dec : EqDecision exn.
Proof. solve_decision. Defined.

Global Instance result_eq_dec {A} `{EqDecision A} : EqDecision (result A).
Proof. solve_decision. Defined.

(** A [dict] from family names to lists of paths is kept as the list of
    its items, in the order the keys were inserted. [dict_get] is
    [families.get(fam)]. *)
Fixpoint dict_get (families : list (list N * list (list N))) (fam : list N)
  : option (list (list N)) :=
  match families with
  | [] => None
  | (key, paths) :: rest =>
      if str_eqb key fam then Some paths else dict_get rest fam
  end.

(** [families.setdefault(fam, []).append(path)] *)
Fixpoint setdefault_append (families : list (list N * list (list N)))
    (fam path : list N) : list (list N * list (list N)) :=
  match families with
  | [] => [(fam, [path])]
  | (key, paths) :: rest =>
      if str_eqb key fam then (key, paths ++ [path]) :: rest
      else (key, paths) :: setdefault_append rest fam path
  end.

(** The name a path is filed under:
    [parsed = parse_filename(path, strip_extension=True)] and
    [fam = parsed.family if parsed.family else "Unknown"]. *)
Definition family_key (path : list N) : result (list N) :=
  let* parsed := parse_filename path true in
  Ok (if nonempty (family parsed) then family parsed else py "Unknown").

(** The [for path in font_paths] loop on the state [families]. *)
Fixpoint group_fonts_loop (font_paths : list (list N))
    (families : list (list N * list (list N)))
  : result (list (list N * list (list N))) :=
  match font_paths with
  | [] => Ok families
  | path :: rest =>
      let* fam := family_key path in
      group_fonts_loop rest (setdefault_append families fam path)
  end.

Definition group_fonts_by_family_filename (font_paths : list (list N))
  : result (list (list N * list (list N))) :=
  group_fonts_loop font_paths [].

(** The name a path is filed under by the fallback: the base name
    without its extension, up to the first hyphen. *)
Definition fallback_key (path : list N) : result (list N) :=
  let base := basename path in
  let base_no_ext := fst (splitext base) in
  if contains (py "-") base_no_ext
  then index (split_once (ch "-") base_no_ext) 0
  else Ok base_no_ext.

Fixpoint group_fallback_loop (font_paths : list (list N))
    (families : list (list N * list (list N)))
  : result (list (list N * list (list N))) :=
  match font_paths with
  | [] => Ok families
  | path :: rest =>
      let* fam := fallback_key path in
      group_fallback_loop rest (setdefault_append families fam path)
  end.

Definition _group_fonts_fallback (font_paths : list (list N))
  : result (list (list N * list (list N))) :=
  group_fallback_loop font_paths [].

(** The two loops without the exception plumbing: the paths filed one
    by one under the name [key] gives them. *)
Fixpoint group_by (key : list N -> list N) (font_paths : list (list N))
    (families : list (list N * list (list N)))
  : list (list N * list (list N)) :=
  match font_paths with
  | [] => families
  | path :: rest =>
      group_by key rest (setdefault_append families (key path) path)
  end.

(** The family name of a path, when [parse_filename] is written without
    the exception plumbing. *)
Definition family_name (path : list N) : list N :=
  let name := format_text (fst (hyphen_parts (_normalize_basename path true))) in
  if nonempty name then name else py "Unknown".

Definition fallback_name (path : list N) : list N :=
  fst (hyphen_parts (fst (splitext (basename path)))).

(** [Some paths] for a key that has paths, [None] for the others. *)
Definition group_of (paths : list (list N)) : option (list (list N)) :=
  match paths with [] => None | _ :: _ => Some paths end.

(** ** Texts cut into matches and stretches without a match *)

(** [unmatched prev gap rest]: behind the character [prev] and in front
    of [rest], the text [gap] holds no position where the pattern
    matches. *)
Fixpoint unmatched (prev : option N) (gap rest : list N) : Prop :=
  match gap with
  | [] => True
  | c :: gap' =>
      token_match prev (c :: gap' ++ rest) = None
      /\ unmatched (Some c) gap' rest
  end.

(** A text in pieces, each one a match of the pattern ([true]) or a
    stretch that holds no match ([false]). *)
Definition text_of (pieces : list (bool * list N)) : list N :=
  concat (map snd pieces).

(** [read_in_turn prev pieces]: the pattern, run over [text_of pieces]
    behind the character [prev], finds the pieces marked [true] one
    after the other and nothing in the others, no two of which are
    neighbours. *)
Fixpoint read_in_turn (prev : option N) (pieces : list (bool * list N))
  : Prop :=
  match pieces with
  | [] => True
  | (is_match, w) :: rest =>
      w <> []
      /\ (if (is_match : bool)
          then token_match prev (w ++ text_of rest) = Some (length w)
          else unmatched prev w (text_of rest)
               /\ match rest with (false, _) :: _ => False | _ => True end)
      /\ read_in_turn (list.last w) rest
  end.

Fixpoint spans_of_pieces (pos : nat) (pieces : list (bool * list N))
  : list (nat * nat) :=
  match pieces with
  | [] => []
  | (is_match, w) :: rest =>
      if (is_match : bool)
      then (pos, pos + length w) :: spans_of_pieces (pos + length w) rest
      else spans_of_pieces (pos + length w) rest
  end.

(** What stands between two words that a mark [m] separates: the mark
    with the spaces its class asks for. *)
Definition between_words (m : N) : list N :=
  if str_in [m] NO_SPACE then [m]
  else if str_in [m] TRAILING_SPACE then [m] ++ py " "
  else if str_in [m] LEADING_SPACE then py " " ++ [m]
  else py " " ++ [m] ++ py " ".

(** ** [CoreDemoTool.demo_name_parser]

    The two names the demo shows for a file name: it parses the name
    and passes the family and the subfamily to [format_pascal_words]
    once more. *)
Definition demo_names (filename : list N) : result (list N * list N) :=
  let* parsed := parse_filename filename true in
  let* family_words := format_pascal_words (family parsed) in
  let* subfamily_words := (if nonempty (subfamily parsed)
                           then format_pascal_words (subfamily parsed)
                           else Ok []) in
  Ok (family_words, subfamily_words).

(** ** [core_name_policies]: the weight term of a subfamily *)

Definition REGULAR_FALLBACK_PRIORITY : list (list N) :=
  map py ["Roman"; "Plain"; "Normal"; "Book"; "Text"; "Medium"; "Light"]%string.

(** The [for term in REGULAR_FALLBACK_PRIORITY] loop returns the first
    term whose lowercase form occurs in [sub_lower]. *)
Definition _extract_weight_term_from_subfamily (subfamily : list N)
  : option (list N) :=
  if negb (nonempty subfamily) then None
  else
    let sub_lower := lower subfamily in
    match List.find (fun term => contains (lower term) sub_lower)
            REGULAR_FALLBACK_PRIORITY with
    | Some term => Some term
    | None =>
        if contains (py "regular") sub_lower then Some (py "Regular")
        else None
    end.

(** ** The examples of the module's docstring

    They only involve ASCII, so they hold whatever the Unicode tables
    are. *)

Example doctest_pascal :
  words "QueenSansExtra" = Ok (py "Queen Sans Extra")
  /\ parts "QueenSansExtra-ExtralightItalic"
     = pair_of "Queen Sans Extra" "Extralight Italic"
  /\ parts "NoHyphenName" = pair_of "No Hyphen Name" "".
Proof. repeat split; vm_compute; reflexivity. Qed.

Example doctest_underscores :
  words "ABC_EFG" = Ok (py "ABC EFG")
  /\ words "ABC_EFGRegular" = Ok (py "ABC EFG Regular")
  /\ parts "ABC_EFG-Regular" = pair_of "ABC EFG" "Regular"
  /\ words "_ABC_EFG_" = Ok (py "ABC EFG").
Proof. repeat split; vm_compute; reflexivity. Qed.

Example doctest_lowercase :
  words "oook" = Ok (py "oook")
  /\ parts "oook-Regular" = pair_of "oook" "Regular"
  /\ words "ABC_oook" = Ok (py "ABC oook")
  /\ words "oookABC" = Ok (py "oook ABC").
Proof. repeat split; vm_compute; reflexivity. Qed.

Example doctest_digits :
  words "10px" = Ok (py "10px")
  /\ parts "OTMissouri-35mm" = pair_of "OT Missouri" "35mm".
Proof. repeat split; vm_compute; reflexivity. Qed.

Example doctest_ampersand :
  words "FitU&lc" = Ok (py "Fit U & lc")
  /\ parts "FitU&lc-ExtraWide" = pair_of "Fit U & lc" "Extra Wide"
  /\ words "Condensed&Wide" = Ok (py "Condensed & Wide")
  /\ parts "Cougar-Condensed&SuperWide"
     = pair_of "Cougar" "Condensed & Super Wide".
Proof. repeat split; vm_compute; reflexivity. Qed.

Example doctest_marks :
  words "Font!Name" = Ok (py "Font! Name")
  /\ words "Font!NameRegular" = Ok (py "Font! Name Regular")
  /\ parts "Font!Name-Bold" = pair_of "Font! Name" "Bold"
  /\ words "ABC_EFG!" = Ok (py "ABC EFG!")
  /\ words "Font!_Name" = Ok (py "Font! Name")
  /\ words "Font*Name" = Ok (py "Font*Name")
  /\ words "Font*NameRegular" = Ok (py "Font*Name Regular")
  /\ parts "Font*Name-Bold" = pair_of "Font*Name" "Bold"
  /\ words "ABC_EFG*" = Ok (py "ABC EFG*")
  /\ words "Font(Condensed" = Ok (py "Font (Condensed")
  /\ words "Font{Condensed" = Ok (py "Font {Condensed")
  /\ words "Font[Condensed" = Ok (py "Font [Condensed").
Proof. repeat split; vm_compute; reflexivity. Qed.

Example doctest_money :
  words "Price19.99$" = Ok (py "Price 19.99$")
  /\ words "$100" = Ok (py "$100").
Proof. repeat split; vm_compute; reflexivity. Qed.

Example doctest_file_names :
  parts "Arial-Bold.CFF2.ttf" = pair_of "Arial" "Bold"
  /\ parts "Font:Name.ttf" = pair_of "Font Name" ""
  /\ parts "Font\Name.ttf" = pair_of "Font Name" "".
Proof. repeat split; vm_compute; reflexivity. Qed.

(** The sign [$] writes no space behind itself, but a word that follows
    it still writes its own leading space. *)
Example dollar_before_word : words "$Price" = Ok (py "$ Price").
Proof. vm_compute. reflexivity. Qed.

(** Membership in a list that is written out, and inclusion of one such
    list in another. *)
Ltac literal_elem := apply list_elem_of_In; vm_compute; tauto.
Ltac literal_subset H :=
  apply list_elem_of_In; apply list_elem_of_In in H;
  vm_compute in H |- *; tauto.

(** ** Results about the tokenizer *)

Lemma run_le p s : run p s <= length s.
Proof. induction s as [|c s IH]; simpl; [lia|]. destruct (p c); simpl; lia. Qed.

Lemma dot_groups_le fuel : forall s, dot_groups fuel s <= length s.
Proof.
  induction fuel as [|fuel IH]; intros s; simpl; [lia|].
  destruct s as [|c s]; simpl; [lia|].
  destruct (c =? 46)%N; [|lia].
  pose proof (run_le is_decimal s) as Hr.
  destruct (run is_decimal s) as [|d]; [lia|].
  pose proof (IH (drop (S d) s)) as Hd.
  rewrite length_drop in Hd. lia.
Qed.

(** The fuel of [dot_groups] only has to cover the text: every group
    takes at least two characters. *)
Lemma dot_groups_enough_fuel fuel : forall fuel' s,
  length s <= fuel -> length s <= fuel' ->
  dot_groups fuel s = dot_groups fuel' s.
Proof.
  induction fuel as [|fuel IH]; intros fuel' s Hf Hf'.
  - destruct s; [|simpl in Hf; lia]. by destruct fuel'.
  - destruct fuel' as [|fuel'].
    { destruct s; [done|simpl in Hf'; lia]. }
    destruct s as [|c s]; [done|]. simpl in Hf, Hf'. simpl.
    destruct (c =? 46)%N; [|done].
    destruct (run is_decimal s) as [|d] eqn:Hrun; [done|].
    do 3 f_equal. apply IH; rewrite length_drop; lia.
Qed.

Lemma acronym_before_camel_bounds s n :
  acronym_before_camel s = Some n -> 1 <= n <= length s.
Proof.
  revert n. induction s as [|c s IH]; intros n; simpl; [done|].
  destruct (is_AZ c); [|done].
  destruct (acronym_before_camel s) as [m|].
  - intros [= <-]. specialize (IH m eq_refl). lia.
  - destruct (ahead_camel s); [|done]. intros [= <-]. lia.
Qed.

Lemma single_cap_number_bounds prev s n :
  single_cap_number prev s = Some n -> 1 <= n <= length s.
Proof.
  unfold single_cap_number. destruct (prev_is is_AZ prev); [done|].
  destruct s as [|c s]; [done|]. destruct (is_AZ c); [|done].
  pose proof (run_le is_decimal s) as Hr.
  destruct (run is_decimal s) as [|d]; [done|].
  pose proof (dot_groups_le (length s) (drop (S d) s)) as Hd.
  rewrite length_drop in Hd. intros [= <-]. simpl. lia.
Qed.

Lemma decimal_number_bounds s n :
  decimal_number s = Some n -> 1 <= n <= length s.
Proof.
  unfold decimal_number.
  pose proof (run_le is_decimal s) as Hr.
  destruct (run is_decimal s) as [|d]; [done|].
  pose proof (dot_groups_le (length s) (drop (S d) s)) as Hd.
  rewrite length_drop in Hd.
  destruct (dot_groups _ _) as [|g]; [done|]. intros [= <-]. lia.
Qed.

Lemma lazy_lowercase_bounds s n :
  lazy_lowercase s = Some n -> 1 <= n <= length s.
Proof.
  revert n. induction s as [|c s IH]; intros n; simpl; [done|].
  destruct (is_az c); [|done].
  destruct (ahead_word_end (Some c) s).
  - intros [= <-]. lia.
  - destruct (lazy_lowercase s) as [m|]; [|done].
    intros [= <-]. specialize (IH m eq_refl). lia.
Qed.

Lemma capitalized_word_bounds s n :
  capitalized_word s = Some n -> 1 <= n <= length s.
Proof.
  unfold capitalized_word. destruct s as [|c s]; [done|].
  destruct (is_AZ c).
  - destruct (lazy_lowercase s) as [m|] eqn:Hm; simpl.
    + intros [= <-]. apply lazy_lowercase_bounds in Hm. simpl. lia.
    + apply (lazy_lowercase_bounds (c :: s)).
  - apply (lazy_lowercase_bounds (c :: s)).
Qed.

Lemma head_is_length p s : head_is p s = true -> 1 <= length s.
Proof. destruct s; simpl; [done|lia]. Qed.

(** A match of [_TOKEN_PATTERN] is never empty and stays inside the
    text: [finditer] never has to step over an empty match. *)
Lemma token_match_bounds prev s n :
  token_match prev s = Some n -> 1 <= n <= length s.
Proof.
  unfold token_match, or_else.
  destruct (acronym_before_camel s) eqn:H1;
    [intros [= <-]; eauto using acronym_before_camel_bounds|].
  destruct (single_cap_number prev s) eqn:H2;
    [intros [= <-]; eauto using single_cap_number_bounds|].
  destruct (decimal_number s) eqn:H3;
    [intros [= <-]; eauto using decimal_number_bounds|].
  destruct (capitalized_word s) eqn:H4;
    [intros [= <-]; eauto using capitalized_word_bounds|].
  pose proof (run_le is_AZ s) as HAZ.
  pose proof (run_le is_decimal s) as Hdec.
  unfold all_caps_sequence, single_uppercase, digits, special_char.
  destruct (2 <=? run is_AZ s) eqn:H5.
  { intros [= <-]. apply Nat.leb_le in H5. lia. }
  destruct (head_is is_AZ s) eqn:H6.
  { intros [= <-]. apply head_is_length in H6. lia. }
  destruct (run is_decimal s) as [|d] eqn:H7.
  - destruct (head_is (fun c => existsb _ _) s) eqn:H8; [|intros [=]].
    intros [= <-]. apply head_is_length in H8. lia.
  - intros [= <-]. lia.
Qed.

Lemma spans_from_weaken len lo lo' spans :
  lo' <= lo -> spans_from len lo spans -> spans_from len lo' spans.
Proof.
  destruct spans as [|[a b] rest]; simpl; [done|].
  intros Hle (Ha & Hab & Hb & Hrest). repeat split; [lia|lia|done|done].
Qed.

Lemma finditer_from_spans s : forall prev pos skip,
  skip <= length s ->
  spans_from (pos + length s) (pos + skip) (finditer_from prev pos skip s).
Proof.
  induction s as [|c s IH]; intros prev pos skip Hskip; simpl; [done|].
  simpl in Hskip.
  replace (pos + S (length s)) with (S pos + length s) by lia.
  destruct skip as [|k].
  - destruct (token_match prev (c :: s)) as [n|] eqn:Hm.
    + apply token_match_bounds in Hm. simpl in Hm.
      split; [lia|]. split; [lia|]. split; [lia|].
      apply (spans_from_weaken _ (S pos + (n - 1))); [lia|].
      apply (IH (Some c) (S pos) (n - 1)). lia.
    + apply (spans_from_weaken _ (S pos + 0)); [lia|].
      apply (IH (Some c) (S pos) 0). lia.
  - apply (spans_from_weaken _ (S pos + k)); [lia|].
    apply (IH (Some c) (S pos) k). lia.
Qed.

Lemma finditer_spans value : spans_from (length value) 0 (finditer value).
Proof. apply (finditer_from_spans value None 0 0). lia. Qed.

Lemma take_slice (value : list N) a b :
  a <= b -> take a value ++ slice value a b = take b value.
Proof.
  intros Hab. unfold slice.
  rewrite <- (take_drop a (take b value)) at 2.
  f_equal. rewrite take_take. f_equal. lia.
Qed.

Lemma slice_nonempty (value : list N) a b :
  a < b -> b <= length value -> slice value a b <> [].
Proof.
  intros Hab Hb Hnil. apply (f_equal length) in Hnil.
  unfold slice in Hnil. rewrite length_drop, length_take in Hnil.
  simpl in Hnil. lia.
Qed.

(** The loop invariant of [tokenize_pascal_case]: the tokens collected
    so far spell the text before [last_end], and none is empty. *)
Lemma tokenize_loop_invariant value spans : forall tokens last_end,
  spans_from (length value) last_end spans ->
  last_end <= length value ->
  concat tokens = take last_end value ->
  Forall (fun t => t <> []) tokens ->
  let '(tokens', last_end') :=
    fold_left (tokenize_step value) spans (tokens, last_end) in
  concat tokens' = take last_end' value
  /\ Forall (fun t => t <> []) tokens'
  /\ last_end' <= length value.
Proof.
  induction spans as [|[a b] spans IH];
    intros tokens last_end Hs Hle Hc Hne; simpl; [done|].
  destruct Hs as (Hlo & Hab & Hb & Hrest).
  apply IH; [done|done| |].
  - destruct (last_end <? a) eqn:Hlt.
    + rewrite !concat_app. simpl. rewrite !app_nil_r, Hc.
      rewrite take_slice by lia. apply take_slice. lia.
    + apply Nat.ltb_ge in Hlt. assert (a = last_end) as -> by lia.
      rewrite concat_app. simpl. rewrite app_nil_r, Hc.
      apply take_slice. lia.
  - destruct (last_end <? a) eqn:Hlt.
    + apply Nat.ltb_lt in Hlt.
      repeat (apply Forall_app; split); try done;
        apply Forall_singleton, slice_nonempty; lia.
    + apply Forall_app; split; [done|].
      apply Forall_singleton, slice_nonempty; lia.
Qed.

Lemma tokenize_loop value :
  let '(tokens, last_end) :=
    fold_left (tokenize_step value) (finditer value) ([], 0) in
  concat tokens = take last_end value
  /\ Forall (fun t => t <> []) tokens
  /\ last_end <= length value.
Proof.
  apply tokenize_loop_invariant; [apply finditer_spans|lia|done|done].
Qed.

(** The tokens spell the text. *)
Lemma tokenize_concat (s : list N) :
  concat (tokenize_pascal_case s) = s.
Proof.
  unfold tokenize_pascal_case. case_bool_decide as He; [by subst|].
  pose proof (tokenize_loop s) as Hinv.
  destruct (fold_left _ _ _) as [tokens last_end].
  destruct Hinv as (Hc & _ & Hle).
  destruct (last_end <? length s) eqn:Hlt.
  - rewrite concat_app. simpl. rewrite app_nil_r, Hc.
    apply take_drop.
  - apply Nat.ltb_ge in Hlt. rewrite Hc. by apply take_ge.
Qed.

(** No token is empty. *)
Lemma tokenize_nonempty (s : list N) :
  Forall (fun t => t <> []) (tokenize_pascal_case s).
Proof.
  unfold tokenize_pascal_case. case_bool_decide as He; [done|].
  pose proof (tokenize_loop s) as Hinv.
  destruct (fold_left _ _ _) as [tokens last_end].
  destruct Hinv as (_ & Hne & Hle).
  destruct (last_end <? length s) eqn:Hlt; [|done].
  apply Nat.ltb_lt in Hlt.
  apply Forall_app; split; [done|]. apply Forall_singleton.
  unfold slice_from. intros Hnil. apply (f_equal length) in Hnil.
  rewrite length_drop in Hnil. simpl in Hnil. lia.
Qed.

(** C1. Concatenating the tokens of [tokenize_pascal_case(s)] gives [s]
    back: the matches are found from left to right without overlap,
    and the matched spans and the spans between and after them are all
    kept, in order; no token is empty. *)
Theorem tokenize_lossless (s : list N) :
  concat (tokenize_pascal_case s) = s
  /\ Forall (fun t => t <> []) (tokenize_pascal_case s)
  /\ spans_from (length s) 0 (finditer s).
Proof.
  split; [apply tokenize_concat|].
  split; [apply tokenize_nonempty|apply finditer_spans].
Qed.

(** ** The functions never raise *)

Lemma index_lookup {A} (l : list A) i x : l !! i = Some x -> index l i = Ok x.
Proof. unfold index. by intros ->. Qed.

Lemma for_append_ok {A B} (f : A -> result B) (g : A -> B) l :
  (forall x, x ∈ l -> f x = Ok (g x)) -> for_append f l = Ok (map g l).
Proof.
  induction l as [|x l IH]; intros Hf; simpl; [done|].
  rewrite Hf by left. simpl. rewrite IH; [done|].
  intros y Hy. apply Hf. by right.
Qed.

Lemma _is_alphanumeric_token_ok token :
  _is_alphanumeric_token token = Ok (starts_alpha token).
Proof. by destruct token. Qed.

Lemma _format_token_ok token :
  _format_token token = Ok (format_token_text token).
Proof.
  unfold _format_token, format_token_text.
  destruct token as [|c rest]; [done|].
  repeat case_match; done.
Qed.

Lemma space_before_ok prev token :
  space_before prev token = Ok (space_before_text prev token).
Proof.
  unfold space_before, space_before_text, wants_space_before.
  destruct prev as [p|]; [|done].
  destruct p as [|c p]; [done|].
  rewrite !_is_alphanumeric_token_ok. simpl bind. simpl nonempty.
  cbv beta iota. simpl negb. cbv iota.
  destruct (str_in token NO_SPACE); [done|].
  destruct (str_in token TRAILING_SPACE); [done|].
  destruct (str_eqb token (py "$")); simpl orb.
  { by destruct (_is_numeric_token (c :: p)). }
  destruct (str_eqb token (py "%")).
  { by destruct (_is_numeric_token (c :: p)). }
  repeat case_match; done.
Qed.

Lemma space_after_ok token next :
  space_after token next = Ok (space_after_text token next).
Proof.
  unfold space_after, space_after_text, wants_space_after.
  destruct next as [n|]; [|done].
  destruct n as [|c n]; [done|].
  rewrite !_is_alphanumeric_token_ok. simpl bind. simpl nonempty.
  cbv beta iota. simpl negb. cbv iota.
  repeat case_match; done.
Qed.

Lemma spaced_token_ok pre token rest :
  spaced_token (pre ++ token :: rest) (length pre, token)
  = Ok (spaced_text (list.last pre) token (head rest)).
Proof.
  unfold spaced_token, spaced_text.
  assert ((if 0 <? length pre
           then let* t := index (pre ++ token :: rest) (length pre - 1) in
                Ok (Some t)
           else Ok None) = Ok (list.last pre)) as ->.
  { destruct pre as [|p pre _] using rev_ind; [done|].
    rewrite length_app. simpl.
    replace (0 <? length pre + 1) with true by (symmetry; apply Nat.ltb_lt; lia).
    rewrite (index_lookup _ _ p).
    - by rewrite last_snoc.
    - rewrite <- app_assoc. rewrite lookup_app_r by lia.
      by replace (length pre + 1 - 1 - length pre) with 0 by lia. }
  assert ((if length pre + 1 <? length (pre ++ token :: rest)
           then let* t := index (pre ++ token :: rest) (length pre + 1) in
                Ok (Some t)
           else Ok None) = Ok (head rest)) as ->.
  { rewrite length_app. simpl. destruct rest as [|r rest].
    - simpl. by replace (length pre + 1 <? length pre + 1) with false
        by (symmetry; apply Nat.ltb_ge; lia).
    - simpl.
      replace (length pre + 1 <? length pre + S (S (length rest))) with true
        by (symmetry; apply Nat.ltb_lt; lia).
      rewrite (index_lookup _ _ r); [done|].
      rewrite lookup_app_r by lia.
      by replace (length pre + 1 - length pre) with 1 by lia. }
  simpl bind. rewrite space_before_ok, space_after_ok. done.
Qed.

Lemma spacing_loop_ok rest : forall pre,
  for_append (spaced_token (pre ++ rest)) (enumerate_from (length pre) rest)
  = Ok (spacing_walk (list.last pre) rest).
Proof.
  induction rest as [|token rest IH]; intros pre;
    cbn [for_append enumerate_from spacing_walk]; [done|].
  rewrite spaced_token_ok. cbn [bind].
  specialize (IH (pre ++ [token])).
  rewrite <- app_assoc, length_app, last_snoc in IH. cbn [app length] in IH.
  replace (length pre + 1) with (S (length pre)) in IH by lia.
  by rewrite IH.
Qed.

Lemma apply_spacing_rules_ok tokens :
  apply_spacing_rules tokens = Ok (spacing_text tokens).
Proof.
  unfold apply_spacing_rules, spacing_text.
  destruct tokens as [|t tokens]; [done|]. simpl negb. cbv iota.
  destruct (filter _ (t :: tokens)) as [|t' tokens'] eqn:Hf; [done|].
  simpl negb. cbv iota.
  apply (spacing_loop_ok (t' :: tokens') []).
Qed.

Lemma merge_loop_ok fuel : forall pre rest merged,
  length rest <= fuel ->
  merge_loop fuel (pre ++ rest) (length pre) merged
  = Ok (merged ++ merge_pairs rest).
Proof.
  induction fuel as [|fuel IH]; intros pre rest merged Hfuel.
  - destruct rest; [|simpl in Hfuel; lia]. simpl.
    rewrite !app_nil_r, Nat.ltb_irrefl. done.
  - destruct rest as [|current rest].
    { simpl. rewrite !app_nil_r, Nat.ltb_irrefl. done. }
    simpl in Hfuel. cbn [merge_loop].
    replace (length pre <? length (pre ++ current :: rest)) with true
      by (symmetry; apply Nat.ltb_lt; rewrite length_app; simpl; lia).
    simpl negb. cbv iota.
    rewrite (index_lookup _ _ current)
      by (rewrite lookup_app_r, Nat.sub_diag by lia; done).
    simpl bind.
    destruct rest as [|next rest]; simpl in Hfuel.
    + replace (length pre + 1 <? length (pre ++ [current])) with false
        by (symmetry; apply Nat.ltb_ge; rewrite length_app; simpl; lia).
      assert ((if isdigit current then Ok false else Ok false)
              = @Ok bool false) as -> by (by destruct (isdigit current)).
      simpl bind. cbv iota.
      specialize (IH (pre ++ [current]) [] (merged ++ [(current, false)])).
      rewrite <- app_assoc, length_app in IH. simpl in IH.
      rewrite IH by lia. simpl. by rewrite app_nil_r.
    + replace (length pre + 1 <? length (pre ++ current :: next :: rest))
        with true
        by (symmetry; apply Nat.ltb_lt; rewrite length_app; simpl; lia).
      assert ((pre ++ current :: next :: rest) !! (length pre + 1) = Some next)
        as Hnext.
      { rewrite lookup_app_r by lia.
        by replace (length pre + 1 - length pre) with 1 by lia. }
      rewrite (index_lookup _ _ next Hnext). simpl bind.
      assert ((if isdigit current then Ok (islower next) else Ok false)
              = Ok (isdigit current && islower next)) as ->
        by (by destruct (isdigit current)).
      simpl bind. cbn [merge_pairs].
      destruct (isdigit current && islower next).
      * specialize (IH (pre ++ [current; next]) rest
                      (merged ++ [(current ++ next, true)])).
        rewrite <- app_assoc, length_app in IH. simpl in IH.
        rewrite IH by lia. by rewrite <- app_assoc.
      * specialize (IH (pre ++ [current]) (next :: rest)
                      (merged ++ [(current, false)])).
        rewrite <- app_assoc, length_app in IH. simpl in IH.
        rewrite IH by lia. by rewrite <- app_assoc.
Qed.

Lemma merge_tokens_ok tokens : merge_tokens tokens = Ok (merge_pairs tokens).
Proof. apply (merge_loop_ok (length tokens) [] tokens []). done. Qed.

Lemma format_segment_ok segment :
  format_segment segment = Ok (segment_text segment).
Proof.
  unfold format_segment, segment_text.
  rewrite merge_tokens_ok. simpl bind.
  assert ((if nonempty segment
           then let* c := index segment 0 in Ok (islower [c])
           else Ok false) = Ok (head_is (case_is Lower) segment)) as ->.
  { destruct segment as [|c rest]; [done|]. simpl. f_equal.
    unfold islower. simpl. unfold case_is.
    destruct (u_case (char_info c)); done. }
  simpl bind. destruct (head_is (case_is Lower) segment).
  - apply for_append_ok. by intros [token is_merged] _.
  - apply for_append_ok. intros [token is_merged] _.
    destruct is_merged; [done|]. apply _format_token_ok.
Qed.

Lemma formatted_tokens_of_ok segments :
  formatted_tokens_of segments = Ok (concat (map segment_text segments)).
Proof.
  induction segments as [|segment rest IH]; simpl; [done|].
  by rewrite format_segment_ok, IH.
Qed.

Lemma format_pascal_words_ok value :
  format_pascal_words value = Ok (format_text value).
Proof.
  unfold format_pascal_words, format_text.
  destruct (negb (nonempty value)); [done|].
  rewrite formatted_tokens_of_ok. simpl bind.
  by rewrite apply_spacing_rules_ok.
Qed.

(** ** File names *)

Lemma lacks_spec cs s c : lacks cs s = true -> c ∈ cs -> c ∉ s.
Proof.
  unfold lacks. intros Hl Hc Hs.
  rewrite forallb_forall in Hl. apply list_elem_of_In in Hs.
  specialize (Hl c Hs). apply negb_true_iff in Hl.
  assert (existsb (N.eqb c) cs = true) as He; [|congruence].
  apply existsb_exists. exists c. split; [by apply list_elem_of_In|].
  apply N.eqb_refl.
Qed.

Lemma startswith_absent c p s : c ∉ s -> startswith (c :: p) s = false.
Proof.
  destruct s as [|x s]; [done|]. simpl. intros Hc.
  destruct (c =? x)%N eqn:He; [|done].
  apply N.eqb_eq in He. subst. exfalso. apply Hc. left.
Qed.

Lemma contains_absent c p s : c ∉ s -> contains (c :: p) s = false.
Proof.
  induction s as [|x s IH]; intros Hc; [done|].
  cbn [contains]. rewrite (startswith_absent c p (x :: s) Hc).
  apply IH. intros H. apply Hc. by right.
Qed.

Lemma contains_single c s : contains [c] s = false <-> c ∉ s.
Proof.
  split; [|apply contains_absent].
  induction s as [|x s IH]; intros Hc H; [by apply elem_of_nil in H|].
  cbn [contains startswith] in Hc. apply orb_false_iff in Hc as [Hx Hs].
  apply elem_of_cons in H as [->|H]; [|by apply IH].
  rewrite N.eqb_refl in Hx. done.
Qed.

Lemma replace_from_absent c old new s :
  c ∉ s -> replace_from (c :: old) new 0 s = s.
Proof.
  induction s as [|x s IH]; intros Hc; [done|].
  cbn [replace_from]. rewrite (startswith_absent c old (x :: s) Hc).
  f_equal. apply IH. intros H. apply Hc. by right.
Qed.

Lemma replace_from_elem old new s : forall skip x,
  x ∈ replace_from old new skip s -> x ∈ s \/ x ∈ new.
Proof.
  induction s as [|c s IH]; intros skip x; cbn [replace_from].
  - intros H. by left.
  - destruct skip as [|k].
    + destruct (startswith old (c :: s)).
      * intros H. apply elem_of_app in H as [H|H]; [by right|].
        apply IH in H as [H|H]; [left; by right|by right].
      * intros H. apply elem_of_cons in H as [->|H]; [left; left|].
        apply IH in H as [H|H]; [left; by right|by right].
    + intros H. apply IH in H as [H|H]; [left; by right|by right].
Qed.

Lemma rfind_char_absent c s : c ∉ s -> rfind_char c s = None.
Proof.
  induction s as [|x s IH]; intros Hc; [done|]. simpl.
  rewrite IH by (intros H; apply Hc; by right).
  destruct (x =? c)%N eqn:He; [|done].
  apply N.eqb_eq in He. subst. exfalso. apply Hc. left.
Qed.

Lemma rfind_char_last c a b :
  c ∉ b -> rfind_char c (a ++ c :: b) = Some (length a).
Proof.
  intros Hc. induction a as [|x a IH]; simpl.
  - by rewrite (rfind_char_absent c b Hc), N.eqb_refl.
  - by rewrite IH.
Qed.

Lemma sanitize_elem name x :
  x ∈ sanitize_forbidden_characters name -> x ∈ name \/ x = ch "_".
Proof.
  unfold sanitize_forbidden_characters, replace. intros H.
  apply replace_from_elem in H as [H|H].
  - apply replace_from_elem in H as [H|H]; [by left|].
    right. by apply list_elem_of_singleton in H.
  - right. by apply list_elem_of_singleton in H.
Qed.

Lemma drop_cff2_elem candidate x :
  x ∈ drop_cff2 candidate -> x ∈ candidate \/ x = ch ".".
Proof.
  unfold drop_cff2, replace.
  destruct (contains _ candidate).
  - intros H. apply replace_from_elem in H as [H|H]; [by left|].
    right. by apply list_elem_of_singleton in H.
  - destruct (endswith _ _); [|by left].
    intros H. left. by apply (subseteq_take (length candidate - 5)).
Qed.

Lemma splitext_elem p x : x ∈ fst (splitext p) -> x ∈ p.
Proof.
  unfold splitext. destruct (rfind_char (ch ".") p) as [d|]; [|done].
  destruct (_ && _); [|done]. simpl. apply subseteq_take.
Qed.

Lemma _normalize_basename_unfold input_name strip_extension :
  _normalize_basename input_name strip_extension
  = let candidate :=
      drop_cff2 (sanitize_forbidden_characters (basename input_name)) in
    if strip_extension then fst (splitext candidate) else candidate.
Proof. reflexivity. Qed.

(** Normalisation only adds underscores and (with the marker) dots. *)
Lemma _normalize_basename_elem input_name strip_extension x :
  x ∈ _normalize_basename input_name strip_extension ->
  x ∈ input_name \/ x = ch "_" \/ x = ch ".".
Proof.
  rewrite _normalize_basename_unfold. cbv zeta. intros H.
  assert (x ∈ drop_cff2 (sanitize_forbidden_characters (basename input_name)))
    as H'.
  { destruct strip_extension; [by apply splitext_elem|done]. }
  apply drop_cff2_elem in H' as [H'|H']; [|by right; right].
  apply sanitize_elem in H' as [H'|H']; [|by right; left].
  left. unfold basename, slice_from in H'. by apply subseteq_drop in H'.
Qed.

Lemma split_once_two sep s :
  sep ∈ s -> exists a b, split_once sep s = [a; b].
Proof.
  induction s as [|c s IH]; intros H; [by apply elem_of_nil in H|].
  simpl. destruct (c =? sep)%N eqn:He; [by eauto|].
  apply elem_of_cons in H as [->|H]; [by rewrite N.eqb_refl in He|].
  destruct (IH H) as (a & b & ->). by eauto.
Qed.

(** [_split_at_hyphen] always returns two parts, so the unpacking
    [left, right = ...] succeeds. *)
Lemma unpack_hyphen_parts base :
  unpack2 (_split_at_hyphen base) = Ok (hyphen_parts base).
Proof.
  unfold hyphen_parts, _split_at_hyphen.
  destruct (contains (py "-") base) eqn:Hc; [|done]. simpl negb. cbv iota.
  destruct (split_once_two (ch "-") base) as (a & b & ->); [|done].
  destruct (decide (ch "-" ∈ base)) as [|Hn]; [done|].
  apply contains_single in Hn. change (py "-") with [ch "-"] in Hc. congruence.
Qed.

Lemma hyphen_parts_absent base :
  contains (py "-") base = false -> hyphen_parts base = (base, []).
Proof. unfold hyphen_parts, _split_at_hyphen. by intros ->. Qed.

Lemma split_family_subfamily_ok input_name strip_extension :
  split_family_subfamily input_name strip_extension
  = let '(left_raw, right_raw) :=
      hyphen_parts (_normalize_basename input_name strip_extension) in
    Ok (format_text left_raw,
        if nonempty right_raw then format_text right_raw else []).
Proof.
  unfold split_family_subfamily. rewrite unpack_hyphen_parts.
  destruct (hyphen_parts _) as [l r]. simpl bind.
  rewrite format_pascal_words_ok. simpl bind.
  destruct (nonempty r); [|done]. by rewrite format_pascal_words_ok.
Qed.

Lemma parse_filename_ok input_name strip_extension :
  parse_filename input_name strip_extension
  = let base := _normalize_basename input_name strip_extension in
    let '(left_raw, right_raw) := hyphen_parts base in
    Ok {| original := input_name; base := base;
          family_raw := left_raw; subfamily_raw := right_raw;
          family := format_text left_raw;
          subfamily := if nonempty right_raw then format_text right_raw
                       else [] |}.
Proof.
  unfold parse_filename. rewrite unpack_hyphen_parts. cbv zeta.
  destruct (hyphen_parts _) as [l r]. simpl bind.
  rewrite format_pascal_words_ok. simpl bind.
  destruct (nonempty r); [|done]. by rewrite format_pascal_words_ok.
Qed.

(** C8. For every string, [format_pascal_words],
    [split_family_subfamily] and [parse_filename] return a value: no
    index is out of range, the unpacking of the two parts succeeds and
    the merge loop ends. On the empty string they return [""] and
    [("", "")]. *)
Theorem entry_points_never_raise (s : list N) (strip_extension : bool) :
  (exists r, format_pascal_words s = Ok r)
  /\ (exists r, split_family_subfamily s strip_extension = Ok r)
  /\ (exists r, parse_filename s strip_extension = Ok r)
  /\ format_pascal_words [] = Ok []
  /\ split_family_subfamily [] strip_extension = Ok ([], []).
Proof.
  split; [rewrite format_pascal_words_ok; eauto|].
  split.
  { rewrite split_family_subfamily_ok. destruct (hyphen_parts _); eauto. }
  split.
  { rewrite parse_filename_ok. cbv zeta. destruct (hyphen_parts _); eauto. }
  split; [done|]. by destruct strip_extension.
Qed.

(** C9. [parse_filename] and [split_family_subfamily] compute the same
    family and subfamily, and the family is [format_pascal_words] of
    the raw family part. *)
Theorem parse_filename_agrees (s : list N) (strip_extension : bool) :
  exists p,
    parse_filename s strip_extension = Ok p
    /\ split_family_subfamily s strip_extension = Ok (family p, subfamily p)
    /\ format_pascal_words (family_raw p) = Ok (family p)
    /\ original p = s
    /\ base p = _normalize_basename s strip_extension.
Proof.
  rewrite parse_filename_ok, split_family_subfamily_ok. cbv zeta.
  destruct (hyphen_parts _) as [l r].
  eexists. split; [done|]. simpl.
  by rewrite format_pascal_words_ok.
Qed.

Lemma startswith_elem p : forall s x,
  startswith p s = true -> x ∈ p -> x ∈ s.
Proof.
  induction p as [|a p IH]; intros s x Hs Hx; [by apply elem_of_nil in Hx|].
  destruct s as [|b s]; [done|]. simpl in Hs.
  apply andb_true_iff in Hs as [Hab Hs]. apply N.eqb_eq in Hab. subst.
  apply elem_of_cons in Hx as [->|Hx]; [left|right; by eapply IH].
Qed.

Lemma elem_of_rev_iff (x : N) l : x ∈ rev l <-> x ∈ l.
Proof. rewrite !list_elem_of_In. symmetry. apply in_rev. Qed.

Lemma endswith_absent c s p : c ∉ s -> c ∈ p -> endswith s p = false.
Proof.
  intros Hs Hp. unfold endswith.
  destruct (startswith (rev p) (rev s)) eqn:H; [|done].
  exfalso. apply Hs, elem_of_rev_iff.
  apply (startswith_elem (rev p)); [done|]. by apply elem_of_rev_iff.
Qed.

(** A bare name (no directory, no forbidden character, no dot) is its
    own normal form. *)
Lemma _normalize_basename_plain s strip_extension :
  lacks (py "/:\.") s = true -> _normalize_basename s strip_extension = s.
Proof.
  intros Hl.
  assert (ch "/" ∉ s) as Hslash by (apply (lacks_spec _ _ _ Hl); literal_elem).
  assert (ch ":" ∉ s) as Hcolon by (apply (lacks_spec _ _ _ Hl); literal_elem).
  assert (ch "\" ∉ s) as Hback by (apply (lacks_spec _ _ _ Hl); literal_elem).
  assert (ch "." ∉ s) as Hdot by (apply (lacks_spec _ _ _ Hl); literal_elem).
  rewrite _normalize_basename_unfold. cbv zeta.
  assert (basename s = s) as ->.
  { unfold basename. by rewrite (rfind_char_absent _ _ Hslash). }
  assert (sanitize_forbidden_characters s = s) as ->.
  { unfold sanitize_forbidden_characters, replace.
    change (py ":") with [ch ":"]. change (py "\") with [ch "\"].
    rewrite (replace_from_absent _ _ _ _ Hcolon).
    by rewrite (replace_from_absent _ _ _ _ Hback). }
  assert (drop_cff2 s = s) as ->.
  { unfold drop_cff2.
    change (py ".CFF2.") with (ch "." :: py "CFF2.").
    rewrite (contains_absent _ _ _ Hdot).
    rewrite (endswith_absent (ch ".") s (py ".CFF2") Hdot); [done|].
    vm_compute. left. }
  destruct strip_extension; [|done].
  unfold splitext. by rewrite (rfind_char_absent _ _ Hdot).
Qed.

Lemma _normalize_basename_no_hyphen s strip_extension :
  contains (py "-") s = false ->
  contains (py "-") (_normalize_basename s strip_extension) = false.
Proof.
  change (py "-") with [ch "-"]. rewrite !contains_single.
  intros Hs H. apply _normalize_basename_elem in H as [H|[H|H]]; done.
Qed.

(** C7, as the code has it. Without a hyphen in [s] the family is
    [format_pascal_words] of the normalised base name (directory and
    extension dropped, [:] and [\] turned into underscores, the CFF2
    marker removed) and the subfamily is empty; for a bare name, which
    normalisation leaves alone, it is [format_pascal_words(s)]. *)
Theorem split_without_hyphen (s : list N) (strip_extension : bool) :
  contains (py "-") s = false ->
  split_family_subfamily s strip_extension
  = (let* family :=
       format_pascal_words (_normalize_basename s strip_extension) in
     Ok (family, []))
  /\ (lacks (py "/:\.") s = true ->
      split_family_subfamily s strip_extension
      = (let* family := format_pascal_words s in Ok (family, []))).
Proof.
  intros Hs.
  assert (split_family_subfamily s strip_extension
          = (let* family :=
               format_pascal_words (_normalize_basename s strip_extension) in
             Ok (family, []))) as Heq.
  { rewrite split_family_subfamily_ok, format_pascal_words_ok.
    by rewrite (hyphen_parts_absent _
                  (_normalize_basename_no_hyphen s strip_extension Hs)). }
  split; [done|]. intros Hl.
  by rewrite Heq, (_normalize_basename_plain s strip_extension Hl).
Qed.

(** *** The CFF2 marker *)

Lemma startswith_app p s : startswith p (p ++ s) = true.
Proof. induction p as [|a p IH]; simpl; [done|]. by rewrite N.eqb_refl. Qed.

Lemma contains_here p s : contains p (p ++ s) = true.
Proof.
  assert (forall l, startswith p l = true -> contains p l = true) as H.
  { intros [|x l] Hl; simpl in *; by rewrite Hl. }
  apply H, startswith_app.
Qed.

Lemma startswith_head c p x s : x <> c -> startswith (c :: p) (x :: s) = false.
Proof.
  intros Hx. simpl. destruct (c =? x)%N eqn:He; [|done].
  apply N.eqb_eq in He. by subst.
Qed.

Lemma contains_skip_prefix c p a s :
  c ∉ a -> contains (c :: p) (a ++ s) = contains (c :: p) s.
Proof.
  induction a as [|x a IH]; intros Hc; [done|].
  apply not_elem_of_cons in Hc as [Hx Ha].
  change ((x :: a) ++ s) with (x :: (a ++ s)). cbn [contains].
  rewrite (startswith_head c p x (a ++ s)) by done. by apply IH.
Qed.

Lemma replace_from_skip old new a : forall s,
  replace_from old new (length a) (a ++ s) = replace_from old new 0 s.
Proof. induction a as [|x a IH]; intros s; [done|]. apply IH. Qed.

Lemma contains_app_r p a s : contains p s = true -> contains p (a ++ s) = true.
Proof.
  intros Hs. induction a as [|x a IH]; [done|].
  change ((x :: a) ++ s) with (x :: (a ++ s)). cbn [contains].
  rewrite IH. apply orb_true_r.
Qed.

(** [s.replace(old, new)] at the first occurrence of [old]: it becomes
    [new] and the scan goes on behind it. *)
Lemma replace_first_occurrence c old new a s :
  (forall k, k < length a ->
     startswith (c :: old) (drop k (a ++ (c :: old) ++ s)) = false) ->
  replace (c :: old) new (a ++ (c :: old) ++ s)
  = a ++ new ++ replace (c :: old) new s.
Proof.
  unfold replace. induction a as [|x a IH]; intros Hfirst.
  - change ([] ++ (c :: old) ++ s) with (c :: (old ++ s)).
    cbn [replace_from]. change (c :: old ++ s) with ((c :: old) ++ s).
    rewrite startswith_app. cbn [app]. f_equal.
    replace (length (c :: old) - 1) with (length old) by (simpl; lia).
    apply replace_from_skip.
  - change ((x :: a) ++ (c :: old) ++ s) with (x :: (a ++ (c :: old) ++ s)).
    cbn [replace_from].
    pose proof (Hfirst 0 ltac:(simpl; lia)) as Hhead.
    rewrite drop_0 in Hhead.
    change ((x :: a) ++ (c :: old) ++ s)
      with (x :: (a ++ (c :: old) ++ s)) in Hhead.
    rewrite Hhead.
    cbn [app]. f_equal. apply IH. intros k Hk.
    apply (Hfirst (S k)). simpl. lia.
Qed.

(** [s.replace(old, new)] at the first occurrence of [old], when the
    text before it is free of the first character of [old]: the
    occurrence becomes [new] and the scan goes on behind it. *)
Lemma replace_occurrence c old new a s :
  c ∉ a ->
  replace (c :: old) new (a ++ (c :: old) ++ s)
  = a ++ new ++ replace (c :: old) new s.
Proof.
  unfold replace. induction a as [|x a IH]; intros Hc.
  - change ([] ++ (c :: old) ++ s) with (c :: (old ++ s)).
    cbn [replace_from]. change (c :: old ++ s) with ((c :: old) ++ s).
    rewrite startswith_app. cbn [app]. f_equal.
    replace (length (c :: old) - 1) with (length old) by (simpl; lia).
    apply replace_from_skip.
  - apply not_elem_of_cons in Hc as [Hx Ha].
    change ((x :: a) ++ (c :: old) ++ s) with (x :: (a ++ (c :: old) ++ s)).
    cbn [replace_from].
    rewrite (startswith_head c old x _) by done.
    cbn [app]. f_equal. by apply IH.
Qed.

Lemma lacks_app cs a b : lacks cs (a ++ b) = lacks cs a && lacks cs b.
Proof. apply forallb_app. Qed.

Lemma splitext_stem stem ext :
  lacks (py "/.") stem = true -> lacks (py "/.") ext = true ->
  nonempty stem = true ->
  splitext (stem ++ py "." ++ ext) = (stem, py "." ++ ext).
Proof.
  intros Hs He Hne.
  assert (forall c, c ∈ py "/." -> c ∉ stem) as Hstem
    by (intros c; apply lacks_spec; done).
  assert (forall c, c ∈ py "/." -> c ∉ ext) as Hext
    by (intros c; apply lacks_spec; done).
  assert (ch "/" ∈ py "/.") as Hin1 by literal_elem.
  assert (ch "." ∈ py "/.") as Hin2 by literal_elem.
  unfold splitext. change (py "." ++ ext) with (ch "." :: ext).
  rewrite (rfind_char_absent (ch "/")).
  2:{ intros H. apply elem_of_app in H as [H|H]; [by apply (Hstem _ Hin1)|].
      apply elem_of_cons in H as [H|H]; [done|by apply (Hext _ Hin1)]. }
  rewrite (rfind_char_last (ch ".")) by (by apply Hext).
  cbn [Nat.leb andb]. unfold slice, slice_from.
  rewrite take_app_length, drop_0, drop_app_length.
  destruct stem as [|x stem]; [done|]. cbn [existsb].
  assert (x <> ch ".") as Hx.
  { intros ->. apply (Hstem _ Hin2). left. }
  apply N.eqb_neq in Hx. by rewrite Hx.
Qed.

Lemma lacks_weaken cs cs' s :
  (forall c, c ∈ cs' -> c ∈ cs) -> lacks cs s = true -> lacks cs' s = true.
Proof.
  unfold lacks. rewrite !forallb_forall. intros Hsub Hl x Hx.
  specialize (Hl x Hx). apply negb_true_iff in Hl. apply negb_true_iff.
  destruct (existsb (N.eqb x) cs') eqn:He; [|done].
  apply existsb_exists in He as (c & Hc & Hxc). apply N.eqb_eq in Hxc. subst.
  assert (existsb (N.eqb c) cs = true) as Ht; [|congruence].
  apply existsb_exists. exists c.
  split; [by apply list_elem_of_In, Hsub, list_elem_of_In|apply N.eqb_refl].
Qed.

(** C6. In a file name [stem.CFF2.ext] the marker [.CFF2.] is replaced
    by a single dot before the extension is stripped, and a final
    [.CFF2] is dropped; so the base name is [stem] (or [stem.ext] when
    the extension is kept). In any name the first occurrence of the
    marker becomes a dot and the replacement goes on behind it; a name
    without the marker loses a final [.CFF2]. And
    [split_family_subfamily("Helvetica-Regular.CFF2.otf")] is
    [("Helvetica", "Regular")]. *)
Theorem cff2_marker_dropped (stem ext : list N) (strip_extension : bool) :
  lacks (py "/:\.") stem = true ->
  lacks (py "/:\.") ext = true ->
  nonempty stem = true ->
  drop_cff2 (stem ++ py ".CFF2." ++ ext) = stem ++ py "." ++ ext
  /\ _normalize_basename (stem ++ py ".CFF2." ++ ext) strip_extension
     = (if strip_extension then stem else stem ++ py "." ++ ext)
  /\ _normalize_basename (stem ++ py ".CFF2") strip_extension = stem
  /\ (forall before after,
        (forall k, k < length before ->
           startswith (py ".CFF2.")
             (drop k (before ++ py ".CFF2." ++ after)) = false) ->
        drop_cff2 (before ++ py ".CFF2." ++ after)
        = before ++ py "." ++ replace (py ".CFF2.") (py ".") after)
  /\ (forall name,
        contains (py ".CFF2.") (name ++ py ".CFF2") = false ->
        drop_cff2 (name ++ py ".CFF2") = name)
  /\ split_family_subfamily (py "Helvetica-Regular.CFF2.otf") true
     = Ok (py "Helvetica", py "Regular").
Proof.
  intros Hs He Hne.
  assert (forall c, c ∈ py "/:\." -> c ∉ stem) as Hstem
    by (intros c; apply lacks_spec; done).
  assert (forall c, c ∈ py "/:\." -> c ∉ ext) as Hext
    by (intros c; apply lacks_spec; done).
  assert (ch "/" ∈ py "/:\.") as Hin1 by literal_elem.
  assert (ch ":" ∈ py "/:\.") as Hin2 by literal_elem.
  assert (ch "\" ∈ py "/:\.") as Hin3 by literal_elem.
  assert (ch "." ∈ py "/:\.") as Hin4 by literal_elem.
  assert (forall marker rest c, c ∈ py "/:\" -> lacks (py "/:\") marker = true ->
            c ∉ rest -> c ∉ stem -> c ∉ stem ++ marker ++ rest) as Hfree.
  { intros marker rest c Hc Hm Hr Hst H.
    apply elem_of_app in H as [H|H]; [done|].
    apply elem_of_app in H as [H|H]; [|done].
    by apply (lacks_spec _ _ _ Hm Hc). }
  assert (ch "/" ∈ py "/:\") as Hp1 by literal_elem.
  assert (ch ":" ∈ py "/:\") as Hp2 by literal_elem.
  assert (ch "\" ∈ py "/:\") as Hp3 by literal_elem.
  assert (drop_cff2 (stem ++ py ".CFF2." ++ ext) = stem ++ py "." ++ ext) as Hdrop.
  { unfold drop_cff2. change (py ".CFF2.") with (ch "." :: py "CFF2.").
    rewrite contains_skip_prefix by (by apply Hstem).
    rewrite contains_here.
    rewrite replace_occurrence by (by apply Hstem).
    unfold replace. by rewrite replace_from_absent by (by apply Hext). }
  assert (forall name, (forall c, c ∈ py "/:\" -> c ∉ name) ->
            sanitize_forbidden_characters (basename name) = name) as Hclean.
  { intros name Hname. unfold basename.
    rewrite (rfind_char_absent _ _ (Hname _ Hp1)). unfold slice_from.
    rewrite drop_0. unfold sanitize_forbidden_characters, replace.
    change (py ":") with [ch ":"]. change (py "\") with [ch "\"].
    rewrite (replace_from_absent _ _ _ _ (Hname _ Hp2)).
    by rewrite (replace_from_absent _ _ _ _ (Hname _ Hp3)). }
  split; [done|]. split; [|split].
  - rewrite _normalize_basename_unfold. cbv zeta.
    rewrite Hclean, Hdrop.
    2:{ intros c Hc. apply Hfree; [done|by vm_compute| |].
        - apply Hext. by literal_subset Hc.
        - apply Hstem. by literal_subset Hc. }
    destruct strip_extension; [|done].
    rewrite splitext_stem; [done| | |done].
    + eapply lacks_weaken; [|exact Hs]. intros c Hc.
      by literal_subset Hc.
    + eapply lacks_weaken; [|exact He]. intros c Hc.
      by literal_subset Hc.
  - rewrite _normalize_basename_unfold. cbv zeta.
    rewrite Hclean.
    2:{ intros c Hc. rewrite <- (app_nil_r (py ".CFF2")).
        apply Hfree; [done|by vm_compute|apply not_elem_of_nil|].
        apply Hstem. by literal_subset Hc. }
    assert (drop_cff2 (stem ++ py ".CFF2") = stem) as ->.
    { unfold drop_cff2. change (py ".CFF2.") with (ch "." :: py "CFF2.").
      rewrite contains_skip_prefix by (by apply Hstem).
      replace (contains (ch "." :: py "CFF2.") (py ".CFF2")) with false
        by (by vm_compute).
      unfold endswith. rewrite rev_app_distr, startswith_app.
      rewrite length_app. change (length (py ".CFF2")) with 5.
      replace (length stem + 5 - 5) with (length stem) by lia.
      by rewrite take_app_length. }
    destruct strip_extension; [|done].
    unfold splitext. by rewrite (rfind_char_absent _ _ (Hstem _ Hin4)).
  - split; [|split; [|vm_compute; reflexivity]].
    + intros before after Hfirst. unfold drop_cff2.
      rewrite contains_app_r by apply contains_here.
      change (py ".CFF2.") with (ch "." :: py "CFF2.").
      by apply replace_first_occurrence.
    + intros name Hnone. unfold drop_cff2. rewrite Hnone.
      unfold endswith. rewrite rev_app_distr, startswith_app.
      rewrite length_app. change (length (py ".CFF2")) with 5.
      replace (length name + 5 - 5) with (length name) by lia.
      by rewrite take_app_length.
Qed.

(** ** The merge pass *)

Lemma case_is_lower_not_upper c :
  case_is Lower c = true -> case_is Upper c || case_is Title c = false.
Proof. unfold case_is. by destruct (u_case (char_info c)). Qed.

(** A token of lowercase letters only is lowercase for [str.islower]. *)
Lemma all_lowercase_letters_islower token :
  all_lowercase_letters token = true -> islower token = true.
Proof.
  unfold all_lowercase_letters, islower.
  destruct token as [|c rest]; [done|]. cbn [nonempty andb].
  intros Hall. apply andb_true_iff. split.
  - induction (c :: rest) as [|x l IH]; [done|]. cbn [forallb] in *.
    apply andb_true_iff in Hall as [Hx Hl].
    apply andb_true_iff in Hx as [_ Hx].
    by rewrite (case_is_lower_not_upper x Hx), IH.
  - cbn [forallb existsb] in *.
    apply andb_true_iff in Hall as [Hc _].
    apply andb_true_iff in Hc as [_ Hc]. by rewrite Hc.
Qed.

(** C4, as the code has it. The merge pass walks the token list of a
    segment once from left to right: a token for which [isdigit()]
    holds, followed by a token for which [islower()] holds (at least one
    lowercase character and no uppercase one; uncased characters such as
    a dot are allowed), is joined with it into one unit, both are
    consumed and the unit is never re-cased; otherwise the token goes on
    alone to the formatter. Tokens of lowercase letters only are among
    those that merge. So ["35mm"] stays ["35mm"] and ["35mm50px"]
    becomes ["35mm 50px"]. *)
Theorem merge_pass_single_walk (tokens : list (list N)) (segment : list N) :
  merge_tokens tokens = Ok (merge_pairs tokens)
  /\ (forall current next rest,
        merge_pairs (current :: next :: rest)
        = if isdigit current && islower next
          then (current ++ next, true) :: merge_pairs rest
          else (current, false) :: merge_pairs (next :: rest))
  /\ (forall current, merge_pairs [current] = [(current, false)])
  /\ merge_pairs [] = []
  /\ (forall next, all_lowercase_letters next = true -> islower next = true)
  /\ format_segment segment
     = Ok (map (fun '(token, is_merged) =>
                  if (is_merged : bool) || head_is (case_is Lower) segment
                  then token else format_token_text token)
               (merge_pairs (tokenize_pascal_case segment)))
  /\ format_pascal_words (py "35mm") = Ok (py "35mm")
  /\ format_pascal_words (py "35mm50px") = Ok (py "35mm 50px").
Proof.
  split; [apply merge_tokens_ok|]. split; [done|].
  split; [done|]. split; [done|].
  split; [apply all_lowercase_letters_islower|].
  split; [|split; vm_compute; reflexivity].
  rewrite format_segment_ok. unfold segment_text. f_equal.
  destruct (head_is (case_is Lower) segment).
  - apply map_ext. intros [token is_merged]. by rewrite orb_true_r.
  - apply map_ext. intros [token is_merged]. by rewrite orb_false_r.
Qed.

(** ** The spacing engine *)

Lemma class_is_alpha_not_digit c :
  is_alpha c = true -> is_digit c = false /\ is_decimal c = false.
Proof.
  unfold is_alpha, is_digit, is_decimal, class_is.
  by destruct (u_class (char_info c)).
Qed.

(** A token that starts with a letter is not numeric. *)
Lemma starts_alpha_not_numeric token :
  starts_alpha token = true -> _is_numeric_token token = false.
Proof.
  destruct token as [|c rest]; [done|]. unfold starts_alpha. cbn [head_is].
  intros Hc. apply class_is_alpha_not_digit in Hc as [Hdig Hdec].
  unfold _is_numeric_token. cbn [nonempty negb].
  unfold isdigit, match_decimal_only, decimal_number.
  cbn [forallb run]. rewrite Hdig, Hdec. by rewrite andb_false_r.
Qed.

Lemma str_in_elem x xs : str_in x xs = true -> x ∈ xs.
Proof.
  unfold str_in, str_eqb. intros H. apply existsb_exists in H as (y & Hy & Hxy).
  apply bool_decide_eq_true in Hxy. subst. by apply list_elem_of_In.
Qed.

Lemma str_eqb_eq x y : str_eqb x y = true -> x = y.
Proof. apply bool_decide_eq_true. Qed.

(** After [%] and after the closing marks no rule asks for a leading
    space. *)
Lemma no_space_before_after_mark mark next :
  mark = py "%" \/ mark ∈ TRAILING_SPACE ->
  wants_space_before mark next = false.
Proof.
  intros Hmark. unfold wants_space_before.
  destruct (str_in next NO_SPACE); [done|].
  destruct (str_in next TRAILING_SPACE); [done|].
  destruct (str_eqb next (py "$") || str_eqb next (py "%")).
  { destruct Hmark as [->|Hmark]; [by vm_compute|].
    repeat (apply elem_of_cons in Hmark as [->|Hmark]; [by vm_compute|]).
    by apply elem_of_nil in Hmark. }
  destruct (str_in next LEADING_SPACE).
  { destruct Hmark as [->|Hmark]; [by vm_compute|].
    repeat (apply elem_of_cons in Hmark as [->|Hmark]; [by vm_compute|]).
    by apply elem_of_nil in Hmark. }
  destruct Hmark as [->|Hmark]; [by vm_compute|].
  repeat (apply elem_of_cons in Hmark as [->|Hmark]; [by vm_compute|]).
  by apply elem_of_nil in Hmark.
Qed.

(** Once a token has written a space behind itself, the next token
    writes none in front: those tokens are [%] and the closing marks. *)
Lemma space_after_excludes_space_before token next :
  wants_space_after token next = true -> wants_space_before token next = false.
Proof.
  unfold wants_space_after.
  destruct (str_in token NO_SPACE) eqn:H1; [done|].
  destruct (str_eqb token (py "$")) eqn:H2; [done|].
  destruct (str_eqb token (py "%")) eqn:H3.
  { intros _. apply no_space_before_after_mark. left. by apply str_eqb_eq. }
  destruct (str_in token TRAILING_SPACE) eqn:H4; [|done].
  intros _. apply no_space_before_after_mark. right. by apply str_in_elem.
Qed.

(** A token that starts with a letter or is numeric writes no space
    behind itself in front of [$] or [%]. *)
Lemma no_space_after_word_or_number prev sign :
  starts_alpha prev || _is_numeric_token prev = true ->
  sign = py "$" \/ sign = py "%" ->
  wants_space_after prev sign = false.
Proof.
  intros Hprev Hsign. unfold wants_space_after.
  destruct (str_in prev NO_SPACE); [done|].
  destruct (str_eqb prev (py "$")); [done|].
  destruct (str_eqb prev (py "%")) eqn:H3.
  { destruct Hsign as [-> | ->]; by vm_compute. }
  destruct (str_in prev TRAILING_SPACE) eqn:H4; [|done].
  apply str_in_elem in H4. exfalso. revert Hprev.
  repeat (apply elem_of_cons in H4 as [->|H4]; [by vm_compute|]).
  by apply elem_of_nil in H4.
Qed.

Lemma spacing_text_pair first second :
  nonempty first = true -> nonempty second = true ->
  spacing_text [first; second]
  = [first ++ pad (wants_space_after first second);
     pad (wants_space_before first second) ++ second].
Proof.
  intros H1 H2. unfold spacing_text.
  rewrite !filter_cons_True, filter_nil by done.
  cbn [spacing_walk head]. unfold spaced_text, space_before_text,
    space_after_text. rewrite H1, H2. cbn [pad andb app].
  by rewrite !app_nil_r.
Qed.

(** Behind [$] a token writes its own leading space, unless it is one of
    the marks, a sign or a number. *)
Lemma space_before_behind_dollar next :
  wants_space_before (py "$") next
  = negb (str_in next NO_SPACE || str_in next TRAILING_SPACE
          || str_eqb next (py "$") || str_eqb next (py "%")
          || str_in next LEADING_SPACE || _is_numeric_token next).
Proof.
  unfold wants_space_before.
  destruct (str_in next NO_SPACE); [done|].
  destruct (str_in next TRAILING_SPACE); [done|].
  destruct (str_eqb next (py "$")); [done|].
  destruct (str_eqb next (py "%")); [done|].
  destruct (str_in next LEADING_SPACE); [done|].
  by destruct (_is_numeric_token next).
Qed.

(** A token that starts with a letter is no mark, no sign and no
    number. *)
Lemma word_is_no_mark next :
  starts_alpha next = true ->
  str_in next NO_SPACE || str_in next TRAILING_SPACE
  || str_eqb next (py "$") || str_eqb next (py "%")
  || str_in next LEADING_SPACE || _is_numeric_token next = false.
Proof.
  intros Ha. rewrite (starts_alpha_not_numeric next Ha), orb_false_r.
  assert (forall marks,
            Forall (fun mark => starts_alpha mark = false) marks ->
            str_in next marks = false) as Hmarks.
  { intros marks Hall. destruct (str_in next marks) eqn:Hin; [|done].
    apply str_in_elem in Hin.
    rewrite list.Forall_forall in Hall. by rewrite (Hall next Hin) in Ha. }
  assert (forall sign, starts_alpha sign = false ->
            str_eqb next sign = false) as Hsign.
  { intros sign Hs. destruct (str_eqb next sign) eqn:Heq; [|done].
    apply str_eqb_eq in Heq. subst. by rewrite Hs in Ha. }
  rewrite !Hmarks, !Hsign; first done; try done;
    repeat (constructor; [done|]); constructor.
Qed.

(** C5, as the code has it. Before a [$] or a [%] a space is written
    exactly when the token before it starts with a letter; a numeric
    token never does, so there is no space after a number. After [%] a
    space is written exactly when a token follows that starts with a
    letter, and that token writes none of its own. The [$] token writes
    no space behind itself either, but here the token that follows
    writes its own leading space unless it is a mark, a sign or a
    number: a number stays attached to the [$], a word does not. *)
Theorem money_percent_spacing
    (prev next_token : list N) (next : option (list N)) :
  space_before (Some prev) (py "$") = Ok (starts_alpha prev)
  /\ space_before (Some prev) (py "%") = Ok (starts_alpha prev)
  /\ _is_numeric_token prev && starts_alpha prev = false
  /\ space_before None (py "$") = Ok false
  /\ space_before None (py "%") = Ok false
  /\ space_after (py "$") next = Ok false
  /\ space_after (py "%") next
     = Ok (match next with Some n => starts_alpha n | None => false end)
  /\ (starts_alpha prev || _is_numeric_token prev = true ->
      apply_spacing_rules [prev; py "$"]
      = Ok [prev; pad (starts_alpha prev) ++ py "$"]
      /\ apply_spacing_rules [prev; py "%"]
         = Ok [prev; pad (starts_alpha prev) ++ py "%"])
  /\ (nonempty next_token = true ->
      apply_spacing_rules [py "%"; next_token]
      = Ok [py "%" ++ pad (starts_alpha next_token); next_token]
      /\ space_before (Some (py "$")) next_token
         = Ok (negb (str_in next_token NO_SPACE
                     || str_in next_token TRAILING_SPACE
                     || str_eqb next_token (py "$")
                     || str_eqb next_token (py "%")
                     || str_in next_token LEADING_SPACE
                     || _is_numeric_token next_token))
      /\ apply_spacing_rules [py "$"; next_token]
         = Ok [py "$";
               pad (negb (str_in next_token NO_SPACE
                          || str_in next_token TRAILING_SPACE
                          || str_eqb next_token (py "$")
                          || str_eqb next_token (py "%")
                          || str_in next_token LEADING_SPACE
                          || _is_numeric_token next_token))
               ++ next_token])
  /\ (starts_alpha next_token = true ->
      space_before (Some (py "$")) next_token = Ok true
      /\ apply_spacing_rules [py "$"; next_token]
         = Ok [py "$"; py " " ++ next_token])
  /\ (_is_numeric_token next_token = true ->
      space_before (Some (py "$")) next_token = Ok false
      /\ apply_spacing_rules [py "$"; next_token]
         = Ok [py "$"; next_token])
  /\ format_pascal_words (py "Price$19.99") = Ok (py "Price $19.99")
  /\ format_pascal_words (py "100%Success") = Ok (py "100% Success")
  /\ format_pascal_words (py "50%") = Ok (py "50%")
  /\ format_pascal_words (py "$100") = Ok (py "$100")
  /\ format_pascal_words (py "$Price") = Ok (py "$ Price").
Proof.
  assert (_is_numeric_token prev && starts_alpha prev = false) as Hnum.
  { destruct (starts_alpha prev) eqn:Ha; [|by rewrite andb_false_r].
    by rewrite (starts_alpha_not_numeric prev Ha). }
  assert (forall sign, sign = py "$" \/ sign = py "%" ->
            wants_space_before prev sign = starts_alpha prev) as Hwants.
  { intros sign Hsign. unfold wants_space_before.
    destruct (starts_alpha prev) eqn:Ha.
    - rewrite (starts_alpha_not_numeric prev Ha).
      by destruct Hsign as [-> | ->].
    - destruct Hsign as [-> | ->]; by rewrite ?andb_false_r. }
  assert (forall sign, sign = py "$" \/ sign = py "%" ->
            space_before (Some prev) sign = Ok (starts_alpha prev)) as Hbefore.
  { intros sign Hsign. rewrite space_before_ok. f_equal.
    unfold space_before_text. rewrite (Hwants sign Hsign).
    by destruct prev. }
  split; [apply Hbefore; by left|]. split; [apply Hbefore; by right|].
  split; [done|]. split; [done|]. split; [done|].
  split.
  { rewrite space_after_ok. destruct next as [[|c n]|]; done. }
  split.
  { rewrite space_after_ok. destruct next as [[|c n]|]; done. }
  split.
  { intros Hprev.
    assert (nonempty prev = true) as Hne by (by destruct prev).
    rewrite !apply_spacing_rules_ok, !spacing_text_pair by done.
    rewrite !Hwants by auto.
    rewrite !no_space_after_word_or_number by auto.
    by rewrite app_nil_r. }
  assert (nonempty next_token = true ->
          space_before (Some (py "$")) next_token
          = Ok (wants_space_before (py "$") next_token)
          /\ apply_spacing_rules [py "$"; next_token]
             = Ok [py "$";
                   pad (wants_space_before (py "$") next_token)
                   ++ next_token]) as Hdollar.
  { intros Hne. split; [by rewrite space_before_ok|].
    by rewrite apply_spacing_rules_ok, spacing_text_pair. }
  split.
  { intros Hne. destruct (Hdollar Hne) as [Hflag Hout].
    rewrite space_before_behind_dollar in Hflag, Hout.
    split; [|done].
    rewrite apply_spacing_rules_ok, spacing_text_pair by done.
    by rewrite (no_space_before_after_mark (py "%") next_token)
      by (by left). }
  split.
  { intros Ha.
    assert (nonempty next_token = true) as Hne by (by destruct next_token).
    destruct (Hdollar Hne) as [Hflag Hout].
    rewrite space_before_behind_dollar in Hflag, Hout.
    by rewrite (word_is_no_mark next_token Ha) in Hflag, Hout. }
  split.
  { intros Hdigits.
    assert (nonempty next_token = true) as Hne by (by destruct next_token).
    destruct (Hdollar Hne) as [Hflag Hout].
    rewrite space_before_behind_dollar in Hflag, Hout.
    by rewrite Hdigits, orb_true_r in Hflag, Hout. }
  repeat split; vm_compute; reflexivity.
Qed.

(** ** Segments that start with a lowercase letter *)

Lemma merge_pairs_step current next rest :
  merge_pairs (current :: next :: rest)
  = if isdigit current && islower next
    then (current ++ next, true) :: merge_pairs rest
    else (current, false) :: merge_pairs (next :: rest).
Proof. done. Qed.

(** The merge pass keeps the text: joining two tokens or passing one on
    leaves the concatenation unchanged. *)
Lemma merge_pairs_concat tokens :
  concat (map fst (merge_pairs tokens)) = concat tokens.
Proof.
  assert (forall n tokens, length tokens <= n ->
            concat (map fst (merge_pairs tokens)) = concat tokens) as H.
  { clear tokens. induction n as [|n IH]; intros tokens Hn.
    - destruct tokens; [done|simpl in Hn; lia].
    - destruct tokens as [|current [|next rest]]; [done|done|].
      simpl in Hn. rewrite merge_pairs_step.
      destruct (isdigit current && islower next);
        rewrite map_cons, !concat_cons; cbn [fst].
      + rewrite (IH rest); [|lia]. by rewrite <- app_assoc.
      + rewrite (IH (next :: rest)); [|simpl; lia]. done. }
  by apply (H (length tokens)).
Qed.


Lemma elem_of_concat {A} (x : A) l ll : x ∈ l -> l ∈ ll -> x ∈ concat ll.
Proof.
  intros Hx Hl. induction ll as [|l' ll IH]; [by apply elem_of_nil in Hl|].
  simpl. apply elem_of_app. apply elem_of_cons in Hl as [->|Hl]; [by left|].
  right. by apply IH.
Qed.






(** ** Acronyms and runs of capitals *)

Lemma is_AZ_not_az c : is_AZ c = true -> is_az c = false.
Proof.
  unfold is_AZ, is_az, in_range. intros H.
  apply andb_true_iff in H as [H1 H2].
  apply N.leb_le in H1, H2. apply andb_false_iff. left.
  apply N.leb_gt. lia.
Qed.

Lemma is_az_not_AZ c : is_az c = true -> is_AZ c = false.
Proof.
  intros H. destruct (is_AZ c) eqn:E; [|done].
  apply is_AZ_not_az in E. congruence.
Qed.

Lemma is_AZ_not_decimal c : is_AZ c = true -> is_decimal c = false.
Proof.
  intros H. unfold is_decimal, class_is, char_info, ascii_info. rewrite H.
  assert ((c <? 128)%N = true) as ->; [|done].
  unfold is_AZ, in_range in H. apply andb_true_iff in H as [_ H].
  apply N.leb_le in H. apply N.ltb_lt. lia.
Qed.

Lemma run_app p a s :
  forallb p a = true -> head_is p s = false -> run p (a ++ s) = length a.
Proof.
  intros Ha Hs. induction a as [|x a IH]; simpl.
  - destruct s as [|y s]; [done|]. simpl in *. by rewrite Hs.
  - simpl in Ha. apply andb_true_iff in Ha as [Hx Ha]. rewrite Hx.
    by rewrite IH.
Qed.

(** [[A-Z]+(?=[A-Z][a-z])] on a run of capitals followed by a capital
    and a lowercase letter: the whole run, and nothing of the word. *)
Lemma acronym_before_camel_run caps a b rest :
  forallb is_AZ caps = true -> is_AZ a = true -> is_az b = true ->
  acronym_before_camel (caps ++ a :: b :: rest)
  = match caps with [] => None | _ => Some (length caps) end.
Proof.
  intros Hcaps Ha Hb.
  assert (acronym_before_camel (a :: b :: rest) = None) as Hword.
  { destruct rest as [|r rest']; cbn [acronym_before_camel ahead_camel];
      by rewrite Ha, (is_az_not_AZ b Hb). }
  induction caps as [|x caps IH]; [done|].
  simpl in Hcaps. apply andb_true_iff in Hcaps as [Hx Hcaps].
  specialize (IH Hcaps).
  change ((x :: caps) ++ a :: b :: rest) with (x :: (caps ++ a :: b :: rest)).
  cbn [acronym_before_camel]. rewrite Hx, IH.
  destruct caps as [|y caps]; [|done].
  simpl. by rewrite Ha, Hb.
Qed.

(** ... and on a run of capitals that no letter follows: no match. *)
Lemma acronym_before_camel_none caps rest :
  forallb is_AZ caps = true ->
  head_is is_AZ rest = false -> head_is is_az rest = false ->
  acronym_before_camel (caps ++ rest) = None.
Proof.
  intros Hcaps HAZ Haz.
  assert (acronym_before_camel rest = None) as Hrest.
  { destruct rest as [|y rest]; [done|]. simpl in *. by rewrite HAZ. }
  induction caps as [|x caps IH]; [done|].
  simpl in Hcaps. apply andb_true_iff in Hcaps as [Hx Hcaps].
  specialize (IH Hcaps).
  change ((x :: caps) ++ rest) with (x :: (caps ++ rest)).
  cbn [acronym_before_camel]. rewrite Hx, IH.
  assert (ahead_camel (caps ++ rest) = false) as ->; [|done].
  destruct caps as [|y [|z caps]].
  - destruct rest as [|y [|z rest]]; [done|done|].
    simpl in *. by rewrite HAZ.
  - destruct rest as [|z rest]; [done|]. simpl in *.
    rewrite Haz. apply andb_false_r.
  - simpl in *. apply andb_true_iff in Hcaps as [_ Hcaps].
    apply andb_true_iff in Hcaps as [Hz _].
    rewrite (is_AZ_not_az z Hz). apply andb_false_r.
Qed.

Lemma fold_tokenize_prefix value spans : forall tokens last_end,
  exists more,
    fst (fold_left (tokenize_step value) spans (tokens, last_end))
    = tokens ++ more.
Proof.
  induction spans as [|[a b] spans IH]; intros tokens last_end; simpl.
  - exists []. by rewrite app_nil_r.
  - destruct (IH (if last_end <? a
                   then (tokens ++ [slice value last_end a])
                        ++ [slice value a b]
                   else tokens ++ [slice value a b]) b) as (more & Hmore).
    destruct (last_end <? a); rewrite Hmore.
    + eexists. by rewrite <- !app_assoc.
    + eexists. by rewrite <- !app_assoc.
Qed.

(** A match at the start of the text is the first token, and the other
    tokens spell what is behind it. *)
Lemma tokenize_first s n :
  token_match None s = Some n ->
  exists tokens,
    tokenize_pascal_case s = take n s :: tokens /\ concat tokens = drop n s.
Proof.
  intros Hm.
  assert (exists tokens, tokenize_pascal_case s = take n s :: tokens)
    as (tokens & Htok).
  { pose proof (token_match_bounds _ _ _ Hm) as Hn.
    destruct s as [|c s]; [simpl in Hn; lia|].
    unfold tokenize_pascal_case, finditer.
    rewrite bool_decide_eq_false_2 by done.
    cbn [finditer_from]. rewrite Hm. cbn [fold_left tokenize_step].
    replace (0 <? 0) with false by done. cbn [app].
    destruct (fold_tokenize_prefix (c :: s)
                (finditer_from (Some c) 1 (n - 1) s)
                [slice (c :: s) 0 (0 + n)] (0 + n)) as (more & Hmore).
    destruct (fold_left _ _ _) as [tokens last_end]. simpl in Hmore.
    subst tokens. unfold slice. rewrite drop_0. simpl.
    destruct (last_end <? _); eexists; reflexivity. }
  exists tokens. split; [done|].
  pose proof (tokenize_concat s) as Hall. rewrite Htok in Hall.
  simpl in Hall. rewrite <- (take_drop n s) in Hall at 2.
  by apply app_inv_head in Hall.
Qed.

(** C2. A run of capitals in front of a capital-then-lowercase pair is
    one token, and the pair stays for the next word; a run of two or
    more capitals that no letter follows is one token as well. *)
Theorem acronym_runs_kept (caps rest : list N) (prev : option N) :
  forallb is_AZ caps = true ->
  (forall a b,
     nonempty caps = true -> is_AZ a = true -> is_az b = true ->
     token_match prev (caps ++ a :: b :: rest) = Some (length caps)
     /\ exists tokens,
          tokenize_pascal_case (caps ++ a :: b :: rest) = caps :: tokens
          /\ concat tokens = a :: b :: rest)
  /\ (2 <= length caps ->
      head_is is_AZ rest = false -> head_is is_az rest = false ->
      token_match prev (caps ++ rest) = Some (length caps)
      /\ exists tokens,
           tokenize_pascal_case (caps ++ rest) = caps :: tokens
           /\ concat tokens = rest)
  /\ family_from_filename (py "KWAKGrotesk-ExtraBold") true
     = Ok (py "KWAK Grotesk")
  /\ format_pascal_words (py "UIUXKit") = Ok (py "UIUX Kit")
  /\ format_pascal_words (py "ABCD") = Ok (py "ABCD").
Proof.
  intros Hcaps. split.
  { intros a b Hne Ha Hb.
    assert (forall prev', token_match prev' (caps ++ a :: b :: rest)
                          = Some (length caps)) as Hacr.
    { intros prev'. unfold token_match.
      rewrite (acronym_before_camel_run caps a b rest Hcaps Ha Hb).
      by destruct caps. }
    split; [apply Hacr|].
    destruct (tokenize_first _ _ (Hacr None)) as (tokens & Htok & Hcat).
    rewrite take_app_length in Htok. rewrite drop_app_length in Hcat.
    by exists tokens. }
  split; [|repeat split; vm_compute; reflexivity].
  intros Hlen HAZ Haz.
  assert (forall prev', token_match prev' (caps ++ rest)
                        = Some (length caps)) as Hrun.
  { intros prev'. unfold token_match.
    rewrite (acronym_before_camel_none caps rest Hcaps HAZ Haz).
    destruct caps as [|x [|y caps]]; [simpl in Hlen; lia..|].
    simpl in Hcaps. apply andb_true_iff in Hcaps as [Hx Hcaps].
    apply andb_true_iff in Hcaps as [Hy Hcaps].
    assert (single_cap_number prev' ((x :: y :: caps) ++ rest) = None) as ->.
    { unfold single_cap_number. destruct (prev_is is_AZ prev'); [done|].
      simpl. by rewrite Hx, (is_AZ_not_decimal y Hy). }
    assert (decimal_number ((x :: y :: caps) ++ rest) = None) as ->.
    { unfold decimal_number. simpl. by rewrite (is_AZ_not_decimal x Hx). }
    assert (capitalized_word ((x :: y :: caps) ++ rest) = None) as ->.
    { unfold capitalized_word. simpl.
      by rewrite Hx, (is_AZ_not_az y Hy), (is_AZ_not_az x Hx). }
    unfold or_else, all_caps_sequence.
    rewrite run_app; [|by simpl; rewrite Hx, Hy|done].
    by replace (2 <=? length (x :: y :: caps)) with true by done. }
  split; [apply Hrun|].
  destruct (tokenize_first _ _ (Hrun None)) as (tokens & Htok & Hcat).
  rewrite take_app_length in Htok. rewrite drop_app_length in Hcat.
  by exists tokens.
Qed.

(** ** Spaces in the result *)

Lemma spaces_apart_app p a b :
  spaces_apart p (a ++ b) = spaces_apart p a && spaces_apart (ends_blank p a) b.
Proof.
  revert p. induction a as [|c a IH]; intros p; [done|].
  cbn [app spaces_apart]. rewrite IH, andb_assoc. do 2 f_equal.
  unfold ends_blank. destruct a as [|d a]; [done|].
  rewrite last_cons_cons.
  destruct (list.last (d :: a)) eqn:Hlast; [done|].
  by apply last_None in Hlast.
Qed.

Lemma spaces_apart_weaken p s :
  spaces_apart p s = true -> spaces_apart false s = true.
Proof. destruct s as [|c s]; [done|]. simpl. by destruct p, (is_blank c). Qed.

(** A text between others inherits [no_double_space]. *)
Lemma no_double_space_infix before s after :
  no_double_space (before ++ s ++ after) = true -> no_double_space s = true.
Proof.
  unfold no_double_space. rewrite !spaces_apart_app.
  intros H. apply andb_true_iff in H as [_ H].
  apply andb_true_iff in H as [H _]. by eapply spaces_apart_weaken.
Qed.

Lemma lacks_blank_cons c s :
  lacks (py " ") (c :: s) = negb (is_blank c) && lacks (py " ") s.
Proof.
  unfold lacks, is_blank. change (py " ") with [32%N].
  change (ch " ") with 32%N. cbn [forallb existsb]. by rewrite orb_false_r.
Qed.

Lemma lacks_blank_elem s : lacks (py " ") s = true <-> ch " " ∉ s.
Proof.
  induction s as [|c s IH]; [split; [intros _; apply not_elem_of_nil|done]|].
  rewrite lacks_blank_cons, andb_true_iff, IH, not_elem_of_cons.
  unfold is_blank. rewrite negb_true_iff, N.eqb_neq.
  split; intros [? ?]; split; congruence || done.
Qed.

Lemma spaces_apart_word p s :
  lacks (py " ") s = true -> spaces_apart p s = true.
Proof.
  revert p. induction s as [|c s IH]; intros p Hl; [done|].
  rewrite lacks_blank_cons in Hl. apply andb_true_iff in Hl as [Hc Hl].
  cbn [spaces_apart]. rewrite (IH _ Hl).
  apply negb_true_iff in Hc. rewrite Hc. by rewrite andb_false_r.
Qed.

Lemma ends_blank_word p s :
  lacks (py " ") s = true -> s <> [] -> ends_blank p s = false.
Proof.
  intros Hl Hne. unfold ends_blank.
  destruct (list.last s) as [c|] eqn:Hlast; [|by apply last_None in Hlast].
  apply last_Some in Hlast as (s' & ->).
  rewrite lacks_app in Hl. apply andb_true_iff in Hl as [_ Hl].
  rewrite lacks_blank_cons in Hl. apply andb_true_iff in Hl as [Hl _].
  by apply negb_true_iff in Hl.
Qed.

(** A spaced token and what follows it: the token itself brings no
    double space, so only the flags at its two ends matter. *)
Lemma spaces_apart_spaced p b a token rest :
  lacks (py " ") token = true -> token <> [] ->
  spaces_apart p ((pad b ++ token ++ pad a) ++ rest)
  = negb (p && b) && spaces_apart a rest.
Proof.
  intros Hl Hne.
  rewrite <- !app_assoc, !spaces_apart_app.
  rewrite (spaces_apart_word _ token Hl).
  rewrite (ends_blank_word _ token Hl Hne).
  destruct b, a, p; done.
Qed.

(** The joined tokens never put two spaces side by side, provided the
    tokens themselves hold none. [p] tells whether the text in front
    ends with a space. *)
Lemma spacing_walk_spaces_apart tokens : forall prev p,
  Forall (fun t => lacks (py " ") t = true /\ t <> []) tokens ->
  (p = true -> forall t, head tokens = Some t ->
     space_before_text prev t = false) ->
  spaces_apart p (concat (spacing_walk prev tokens)) = true.
Proof.
  induction tokens as [|token rest IH]; intros prev p Hall Hp; [done|].
  inversion_clear Hall as [|? ? [Hl Hne] Hrest].
  cbn [spacing_walk concat]. unfold spaced_text.
  rewrite spaces_apart_spaced by done.
  apply andb_true_iff. split.
  - destruct p; [|done]. by rewrite (Hp eq_refl token eq_refl).
  - apply IH; [done|]. intros Hafter t Ht. rewrite Ht in Hafter.
    unfold space_after_text in Hafter. unfold space_before_text.
    apply andb_true_iff in Hafter as [_ Hafter].
    rewrite (space_after_excludes_space_before _ _ Hafter).
    apply andb_false_r.
Qed.

Lemma spacing_text_no_double_space tokens :
  Forall (fun t => lacks (py " ") t = true) tokens ->
  no_double_space (concat (spacing_text tokens)) = true.
Proof.
  intros Hall. apply spacing_walk_spaces_apart; [|done].
  apply list.Forall_forall. intros t Ht.
  apply list_elem_of_filter in Ht as [Hne Ht]. split; [|by destruct t].
  by apply (proj1 (list.Forall_forall _ _) Hall).
Qed.

(** *** The tokens of a text without spaces hold no space *)

Lemma elem_of_concat_inv {A} (x : A) ll :
  x ∈ concat ll -> exists l, l ∈ ll /\ x ∈ l.
Proof.
  induction ll as [|l ll IH]; simpl; [by intros H%elem_of_nil|].
  intros H. apply elem_of_app in H as [H|H].
  - exists l. split; [left|done].
  - destruct (IH H) as (l' & Hl' & Hx). exists l'. split; [by right|done].
Qed.

Lemma split_char_elem sep s : forall piece x,
  piece ∈ split_char sep s -> x ∈ piece -> x ∈ s.
Proof.
  induction s as [|c s IH]; intros piece x Hp Hx.
  - simpl in Hp. apply list_elem_of_singleton in Hp. subst.
    by apply elem_of_nil in Hx.
  - simpl in Hp. destruct (c =? sep)%N.
    + apply elem_of_cons in Hp as [->|Hp]; [by apply elem_of_nil in Hx|].
      right. by eapply IH.
    + destruct (split_char sep s) as [|first others] eqn:Hs.
      * apply list_elem_of_singleton in Hp. subst.
        apply list_elem_of_singleton in Hx. subst. left.
      * apply elem_of_cons in Hp as [->|Hp].
        -- apply elem_of_cons in Hx as [->|Hx]; [left|right].
           apply (IH first); [left|done].
        -- right. apply (IH piece); [by right|done].
Qed.

Lemma split_once_elem sep s : forall piece x,
  piece ∈ split_once sep s -> x ∈ piece -> x ∈ s.
Proof.
  induction s as [|c s IH]; intros piece x Hp Hx.
  - simpl in Hp. apply list_elem_of_singleton in Hp. subst.
    by apply elem_of_nil in Hx.
  - simpl in Hp. destruct (c =? sep)%N.
    + apply elem_of_cons in Hp as [->|Hp]; [by apply elem_of_nil in Hx|].
      apply list_elem_of_singleton in Hp. subst. by right.
    + destruct (split_once sep s) as [|first others] eqn:Hs.
      * apply list_elem_of_singleton in Hp. subst.
        apply list_elem_of_singleton in Hx. subst. left.
      * apply elem_of_cons in Hp as [->|Hp].
        -- apply elem_of_cons in Hx as [->|Hx]; [left|right].
           apply (IH first); [left|done].
        -- right. apply (IH piece); [by right|done].
Qed.

Lemma hyphen_parts_elem base x :
  x ∈ fst (hyphen_parts base) \/ x ∈ snd (hyphen_parts base) -> x ∈ base.
Proof.
  unfold hyphen_parts, _split_at_hyphen.
  destruct (negb (contains (py "-") base)).
  { simpl. intros [H|H]; [done|by apply elem_of_nil in H]. }
  pose proof (split_once_elem (ch "-") base) as Hel.
  destruct (split_once (ch "-") base) as [|a [|b [|c rest]]]; simpl;
    try (intros [H|H]; [done|by apply elem_of_nil in H]).
  intros [H|H].
  - apply (Hel a); [left|done].
  - apply (Hel b); [right; left|done].
Qed.

Lemma ascii_upper_blank c : ascii_upper c = ch " " -> c = ch " ".
Proof.
  unfold ascii_upper. destruct (is_az c) eqn:Haz; [|done].
  unfold is_az, in_range in Haz. apply andb_true_iff in Haz as [H1 H2].
  apply N.leb_le in H1, H2. change (ch " ") with 32%N. lia.
Qed.

Lemma ascii_lower_blank c : ascii_lower c = ch " " -> c = ch " ".
Proof.
  unfold ascii_lower. destruct (is_AZ c) eqn:HAZ; [|done].
  unfold is_AZ, in_range in HAZ. apply andb_true_iff in HAZ as [H1 H2].
  apply N.leb_le in H1, H2. change (ch " ") with 32%N. lia.
Qed.

Lemma title_case_spaceless token :
  spaceless_case_maps -> ch " " ∉ token -> ch " " ∉ title_case token.
Proof.
  intros [Hup Hlow] Htok. destruct token as [|c rest]; [done|].
  apply not_elem_of_cons in Htok as [Hc Hrest].
  unfold title_case, upper, lower. cbn [map concat]. rewrite app_nil_r.
  intros H. apply elem_of_app in H as [H|H].
  - unfold upper_char in H. destruct (c <? 128)%N eqn:Hlt.
    + apply list_elem_of_singleton in H. symmetry in H.
      apply ascii_upper_blank in H. congruence.
    + apply N.ltb_ge in Hlt. by apply (Hup c Hlt).
  - apply elem_of_concat_inv in H as (piece & Hpiece & Hx).
    apply elem_of_lookup_imap in Hpiece as (i & y & -> & Hy).
    destruct (y <? 128)%N eqn:Hlt.
    + apply list_elem_of_singleton in Hx. symmetry in Hx.
      apply ascii_lower_blank in Hx. subst y.
      apply Hrest. by eapply list_elem_of_lookup_2.
    + apply N.ltb_ge in Hlt. by apply (Hlow rest i y Hy Hlt).
Qed.

Lemma format_token_text_spaceless token :
  spaceless_case_maps -> ch " " ∉ token -> ch " " ∉ format_token_text token.
Proof.
  intros HU Htok. unfold format_token_text.
  repeat case_match; try done. by apply title_case_spaceless.
Qed.

Lemma segment_text_spaceless segment token :
  spaceless_case_maps -> ch " " ∉ segment ->
  token ∈ segment_text segment -> ch " " ∉ token.
Proof.
  intros HU Hseg Htok.
  assert (forall t, t ∈ map fst (merge_pairs (tokenize_pascal_case segment)) ->
            ch " " ∉ t) as Hraw.
  { intros t Ht Hin. apply Hseg.
    rewrite <- (tokenize_concat segment), <- merge_pairs_concat.
    by apply (elem_of_concat _ t). }
  unfold segment_text in Htok.
  destruct (head_is (case_is Lower) segment); [by apply Hraw|].
  apply list_elem_of_In, in_map_iff in Htok as ([t m] & <- & Hin).
  assert (ch " " ∉ t) as Ht.
  { apply Hraw. apply list_elem_of_In, in_map_iff. by exists (t, m). }
  destruct m; [done|]. by apply format_token_text_spaceless.
Qed.

Lemma formatted_text_spaceless value :
  spaceless_case_maps -> ch " " ∉ value ->
  Forall (fun t => lacks (py " ") t = true) (formatted_text value).
Proof.
  intros HU Hval. apply list.Forall_forall. intros token Htok.
  apply lacks_blank_elem. unfold formatted_text in Htok.
  apply elem_of_concat_inv in Htok as (tokens & Htokens & Htok).
  apply list_elem_of_In, in_map_iff in Htokens as (segment & <- & Hseg).
  apply (segment_text_spaceless segment); [done| |done].
  intros Hin. apply Hval. unfold segments_of in Hseg.
  apply list_elem_of_In, list_elem_of_filter in Hseg as [_ Hseg].
  by apply (split_char_elem (ch "_") value segment).
Qed.

(** *** [strip()] *)

Lemma lstrip_suffix s : exists before, s = before ++ lstrip s.
Proof.
  induction s as [|c s (before & IH)]; [by exists []|]. simpl.
  destruct (is_space c); [|by exists []].
  exists (c :: before). simpl. by f_equal.
Qed.

Lemma lstrip_head s : head_is is_space (lstrip s) = false.
Proof.
  induction s as [|c s IH]; [done|]. simpl.
  destruct (is_space c) eqn:Hc; [done|]. simpl. done.
Qed.

Lemma rstrip_prefix s : exists after, s = rstrip s ++ after.
Proof.
  unfold rstrip. destruct (lstrip_suffix (rev s)) as (before & Hrev).
  exists (rev before). rewrite <- rev_app_distr, <- Hrev.
  by rewrite rev_involutive.
Qed.

Lemma strip_infix s : exists before after, s = before ++ strip s ++ after.
Proof.
  unfold strip. destruct (lstrip_suffix s) as (before & Hl).
  destruct (rstrip_prefix (lstrip s)) as (after & Hr).
  exists before, after. by rewrite <- Hr.
Qed.

Lemma strip_trimmed s : trimmed (strip s) = true.
Proof.
  unfold trimmed, strip. apply andb_true_iff. split.
  - destruct (rstrip_prefix (lstrip s)) as (after & Hr).
    pose proof (lstrip_head s) as Hh. rewrite Hr in Hh.
    destruct (rstrip (lstrip s)) as [|c t]; [done|]. simpl in *.
    by rewrite Hh.
  - unfold rstrip. rewrite rev_involutive. by rewrite lstrip_head.
Qed.

Lemma format_text_trimmed value : trimmed (format_text value) = true.
Proof.
  unfold format_text. destruct (negb (nonempty value)); [done|].
  apply strip_trimmed.
Qed.

Lemma format_text_no_double_space value :
  spaceless_case_maps -> ch " " ∉ value ->
  no_double_space (format_text value) = true.
Proof.
  intros HU Hval. unfold format_text.
  destruct (negb (nonempty value)); [done|].
  destruct (strip_infix (joined_text value)) as (before & after & Hs).
  apply (no_double_space_infix before _ after). rewrite <- Hs.
  apply spacing_text_no_double_space. by apply formatted_text_spaceless.
Qed.

(** C10, as the code has it. The result of [format_pascal_words], and
    each part returned by [split_family_subfamily], never begins or
    ends with white space. When the input holds no space, the result
    holds no two spaces in a row either: a token writes at most one
    space on each side, and the token behind one that wrote a trailing
    space writes no leading one. (A space of the input is kept inside
    its token, next to the spaces the engine adds.) *)
Theorem result_is_trimmed_and_single_spaced
    (value : list N) (strip_extension : bool) :
  (exists out,
     format_pascal_words value = Ok out
     /\ trimmed out = true
     /\ (spaceless_case_maps -> lacks (py " ") value = true ->
         no_double_space out = true))
  /\ (exists family subfamily,
       split_family_subfamily value strip_extension = Ok (family, subfamily)
       /\ trimmed family = true /\ trimmed subfamily = true
       /\ (spaceless_case_maps -> lacks (py " ") value = true ->
           no_double_space family = true
           /\ no_double_space subfamily = true))
  /\ (forall token next,
       space_after token (Some next) = Ok true ->
       space_before (Some token) next = Ok false)
  /\ (forall before token after,
       exists b a,
         spaced_token (before ++ token :: after) (length before, token)
         = Ok (pad b ++ token ++ pad a))
  /\ is_space (ch " ") = true.
Proof.
  split.
  { exists (format_text value). split; [apply format_pascal_words_ok|].
    split; [apply format_text_trimmed|]. intros HU Hval.
    apply format_text_no_double_space; [done|]. by apply lacks_blank_elem. }
  split.
  2:{ split; [|split; [|done]].
      - intros token next. rewrite space_after_ok, space_before_ok.
        unfold space_after_text, space_before_text. intros [= Hafter].
        apply andb_true_iff in Hafter as [_ Hafter].
        rewrite (space_after_excludes_space_before _ _ Hafter).
        by rewrite andb_false_r.
      - intros before token after. rewrite spaced_token_ok.
        unfold spaced_text. by eexists _, _. }
  rewrite split_family_subfamily_ok.
  pose proof (hyphen_parts_elem
                (_normalize_basename value strip_extension)) as Hel.
  destruct (hyphen_parts _) as [l r]. simpl in Hel.
  eexists _, _. split; [done|].
  split; [apply format_text_trimmed|]. split.
  { destruct (nonempty r); [apply format_text_trimmed|done]. }
  intros HU Hval. apply lacks_blank_elem in Hval.
  assert (forall part : list N, (forall x, x ∈ part -> x ∈ l \/ x ∈ r) ->
            ch " " ∉ part) as Hpart.
  { intros part Hsub Hin. specialize (Hel (ch " ") (Hsub _ Hin)).
    apply _normalize_basename_elem in Hel as [H|[H|H]]; done. }
  split.
  - apply format_text_no_double_space; [done|]. apply Hpart. by left.
  - destruct (nonempty r); [|done].
    apply format_text_no_double_space; [done|]. apply Hpart. by right.
Qed.

(** * Further results

    Properties of the functions of the module that the statements above
    leave out, and of the callers of [parse_filename]. *)

(** ** [sanitize_forbidden_characters] *)

Lemma replace_char a b s :
  replace [a] [b] s = map (fun c => if (c =? a)%N then b else c) s.
Proof.
  unfold replace. induction s as [|c s IH]; [done|].
  cbn [replace_from startswith map]. rewrite andb_true_r, (N.eqb_sym a c).
  destruct (c =? a)%N; simpl; by rewrite IH.
Qed.

Lemma sanitize_as_map name :
  sanitize_forbidden_characters name = map sanitize_char name.
Proof.
  unfold sanitize_forbidden_characters.
  change (py "\") with [ch "\"]. change (py ":") with [ch ":"].
  change (py "_") with [ch "_"]. rewrite !replace_char, map_map.
  apply map_ext. intros c. unfold sanitize_char.
  destruct (c =? ch ":")%N eqn:Hcolon; [done|]. simpl.
  by destruct (c =? ch "\")%N.
Qed.

Lemma sanitize_char_allowed c :
  negb (existsb (N.eqb (sanitize_char c)) (py ":\")) = true.
Proof.
  unfold sanitize_char.
  destruct (c =? ch ":")%N eqn:Hcolon; [done|].
  destruct (c =? ch "\")%N eqn:Hback; [done|].
  cbn [orb]. change (py ":\") with [ch ":"; ch "\"].
  cbn [existsb]. by rewrite Hcolon, Hback.
Qed.

Lemma sanitize_char_fixed c :
  sanitize_char c = c <-> negb (existsb (N.eqb c) (py ":\")) = true.
Proof.
  unfold sanitize_char. change (py ":\") with [ch ":"; ch "\"].
  cbn [existsb]. rewrite orb_false_r.
  destruct (c =? ch ":")%N eqn:Hcolon.
  { apply N.eqb_eq in Hcolon. subst c. by split. }
  destruct (c =? ch "\")%N eqn:Hback.
  { apply N.eqb_eq in Hback. subst c. by split. }
  by split.
Qed.

Lemma sanitize_lacks_forbidden name :
  lacks (py ":\") (sanitize_forbidden_characters name) = true.
Proof.
  rewrite sanitize_as_map. unfold lacks. rewrite forallb_forall. intros x Hx.
  apply in_map_iff in Hx as (c & <- & _). apply sanitize_char_allowed.
Qed.

(** X1. [sanitize_forbidden_characters] works character by character:
    every [:] and every [\] becomes an underscore and nothing else
    changes. So the length is kept, the result holds neither character,
    sanitizing twice is sanitizing once, and a name is returned as it is
    exactly when it holds neither character. *)
Theorem sanitize_maps_characters (name : list N) :
  sanitize_forbidden_characters name = map sanitize_char name
  /\ length (sanitize_forbidden_characters name) = length name
  /\ lacks (py ":\") (sanitize_forbidden_characters name) = true
  /\ sanitize_forbidden_characters (sanitize_forbidden_characters name)
     = sanitize_forbidden_characters name
  /\ (sanitize_forbidden_characters name = name
      <-> lacks (py ":\") name = true).
Proof.
  rewrite !sanitize_as_map. split; [done|].
  split; [apply length_map|].
  split; [rewrite <- sanitize_as_map; apply sanitize_lacks_forbidden|].
  split.
  { rewrite map_map. apply map_ext_in. intros c _.
    apply sanitize_char_fixed, sanitize_char_allowed. }
  unfold lacks. induction name as [|c name IH]; [done|].
  cbn [map forallb]. rewrite andb_true_iff, <- IH, <- sanitize_char_fixed.
  split; [by intros [= -> ->]|by intros [-> ->]].
Qed.

(** ** [_split_at_hyphen] *)

Lemma split_once_first sep s :
  sep ∈ s ->
  exists a b, split_once sep s = [a; b] /\ s = a ++ sep :: b /\ sep ∉ a.
Proof.
  induction s as [|c s IH]; intros H; [by apply elem_of_nil in H|].
  simpl. destruct (c =? sep)%N eqn:He.
  - apply N.eqb_eq in He. subst c. exists [], s.
    split; [done|]. split; [done|]. apply not_elem_of_nil.
  - apply elem_of_cons in H as [->|H]; [by rewrite N.eqb_refl in He|].
    destruct (IH H) as (a & b & Hsplit & Hs & Ha). rewrite Hsplit.
    exists (c :: a), b. split; [done|]. split; [by rewrite Hs|].
    intros Hin. apply elem_of_cons in Hin as [->|Hin]; [|done].
    by rewrite N.eqb_refl in He.
Qed.

Lemma split_once_join sep a b :
  sep ∉ a -> split_once sep (a ++ sep :: b) = [a; b].
Proof.
  induction a as [|c a IH]; intros Ha; simpl.
  - by rewrite N.eqb_refl.
  - destruct (c =? sep)%N eqn:He.
    + apply N.eqb_eq in He. subst c. exfalso. apply Ha. left.
    + rewrite IH; [done|]. intros H. apply Ha. by right.
Qed.

(** X2. [_split_at_hyphen] always returns two parts. With a hyphen in
    the base name the parts are what stands before and behind the first
    hyphen, so [left + "-" + right] is the base name again and [left]
    holds no hyphen; without one the parts are the base name and [""]. *)
Theorem split_at_first_hyphen (base : list N) :
  exists left_raw right_raw,
    _split_at_hyphen base = [left_raw; right_raw]
    /\ contains (py "-") left_raw = false
    /\ (if contains (py "-") base
        then base = left_raw ++ py "-" ++ right_raw
        else left_raw = base /\ right_raw = []).
Proof.
  unfold _split_at_hyphen. destruct (contains (py "-") base) eqn:Hc.
  - assert (ch "-" ∈ base) as Hin.
    { destruct (decide (ch "-" ∈ base)) as [|Hn]; [done|].
      apply contains_single in Hn. change (py "-") with [ch "-"] in Hc.
      congruence. }
    destruct (split_once_first _ _ Hin) as (a & b & Hsplit & Hs & Ha).
    exists a, b. split; [done|]. split; [by apply contains_single|done].
  - by exists base, [].
Qed.

(** X3. Splitting undoes joining: when [left] holds no hyphen,
    [_split_at_hyphen(left + "-" + right)] is [[left, right]], whatever
    hyphens [right] holds. *)
Theorem split_at_hyphen_of_join (left_raw right_raw : list N) :
  contains (py "-") left_raw = false ->
  _split_at_hyphen (left_raw ++ py "-" ++ right_raw) = [left_raw; right_raw]
  /\ hyphen_parts (left_raw ++ py "-" ++ right_raw) = (left_raw, right_raw).
Proof.
  intros Hl. change (py "-") with [ch "-"] in *.
  assert (_split_at_hyphen (left_raw ++ [ch "-"] ++ right_raw)
          = [left_raw; right_raw]) as Hsplit.
  { unfold _split_at_hyphen. change (py "-") with [ch "-"].
    rewrite contains_app_r by apply contains_here.
    apply split_once_join. by apply contains_single. }
  split; [done|]. unfold hyphen_parts. by rewrite Hsplit.
Qed.

(** ** [_normalize_basename] *)

Lemma lacks_intro cs s : (forall c, c ∈ cs -> c ∉ s) -> lacks cs s = true.
Proof.
  intros H. unfold lacks. rewrite forallb_forall. intros x Hx.
  apply negb_true_iff. destruct (existsb (N.eqb x) cs) eqn:He; [|done].
  apply existsb_exists in He as (c & Hc & Heq). apply N.eqb_eq in Heq.
  subst c. exfalso. apply (H x); by apply list_elem_of_In.
Qed.

Lemma rfind_char_none c s : rfind_char c s = None -> c ∉ s.
Proof.
  induction s as [|x s IH]; [intros _; apply not_elem_of_nil|]. simpl.
  destruct (rfind_char c s); [done|].
  destruct (x =? c)%N eqn:He; [done|]. intros _ H.
  apply elem_of_cons in H as [->|H]; [by rewrite N.eqb_refl in He|by apply IH].
Qed.

Lemma rfind_char_after c s k : rfind_char c s = Some k -> c ∉ drop (S k) s.
Proof.
  revert k. induction s as [|x s IH]; intros k; [done|]. simpl.
  destruct (rfind_char c s) as [j|] eqn:Hr.
  - intros [= <-]. by apply IH.
  - destruct (x =? c)%N; [|done]. intros [= <-]. rewrite drop_0.
    by apply rfind_char_none.
Qed.

Lemma basename_no_slash p : ch "/" ∉ basename p.
Proof.
  unfold basename, slice_from.
  destruct (rfind_char (ch "/") p) as [k|] eqn:Hr.
  - by apply rfind_char_after.
  - rewrite drop_0. by apply rfind_char_none.
Qed.

(** X4. The base name [_normalize_basename] returns never holds a
    slash, a colon or a backslash, whatever the input and with or
    without the extension. *)
Theorem base_without_separators (input_name : list N) (strip_extension : bool) :
  lacks (py "/:\") (_normalize_basename input_name strip_extension) = true.
Proof.
  apply lacks_intro. intros c Hc Hin.
  rewrite _normalize_basename_unfold in Hin. cbv zeta in Hin.
  assert (c ∈ drop_cff2 (sanitize_forbidden_characters (basename input_name)))
    as H.
  { destruct strip_extension; [by apply splitext_elem|done]. }
  assert (c <> ch ".") as Hdot.
  { intros ->. apply list_elem_of_In in Hc. vm_compute in Hc.
    destruct Hc as [Hc|[Hc|[Hc|[]]]]; discriminate. }
  apply drop_cff2_elem in H as [H|H]; [|done].
  assert (c = ch "/" \/ c ∈ py ":\") as [->|Hforbidden].
  { apply list_elem_of_In in Hc. vm_compute in Hc.
    destruct Hc as [<-|[<-|[<-|[]]]]; [by left|right; literal_elem..]. }
  - apply sanitize_elem in H as [H|H]; [|discriminate].
    by apply basename_no_slash in H.
  - by apply (lacks_spec _ _ _ (sanitize_lacks_forbidden (basename input_name))
                  Hforbidden).
Qed.

Lemma basename_of_path directory name :
  ch "/" ∉ name -> basename (directory ++ py "/" ++ name) = name.
Proof.
  intros Hname. unfold basename, slice_from.
  change (py "/" ++ name) with (ch "/" :: name).
  rewrite (rfind_char_last _ directory name Hname).
  induction directory as [|c directory IH]; [done|apply IH].
Qed.

(** X5. Only the last component of a path counts: with a file name
    [name] that holds no slash, [directory + "/" + name] has the base
    name, the family and the subfamily of [name] alone. *)
Theorem directory_is_ignored
    (directory name : list N) (strip_extension : bool) :
  lacks (py "/") name = true ->
  _normalize_basename (directory ++ py "/" ++ name) strip_extension
  = _normalize_basename name strip_extension
  /\ split_family_subfamily (directory ++ py "/" ++ name) strip_extension
     = split_family_subfamily name strip_extension
  /\ family_from_filename (directory ++ py "/" ++ name) strip_extension
     = family_from_filename name strip_extension
  /\ subfamily_from_filename (directory ++ py "/" ++ name) strip_extension
     = subfamily_from_filename name strip_extension.
Proof.
  intros Hl.
  assert (ch "/" ∉ name) as Hname by (apply (lacks_spec _ _ _ Hl); literal_elem).
  assert (_normalize_basename (directory ++ py "/" ++ name) strip_extension
          = _normalize_basename name strip_extension) as Hbase.
  { rewrite !_normalize_basename_unfold. cbv zeta.
    rewrite (basename_of_path directory name Hname).
    assert (basename name = name) as ->; [|done].
    unfold basename. by rewrite (rfind_char_absent _ _ Hname). }
  split; [done|].
  unfold family_from_filename, subfamily_from_filename.
  rewrite !split_family_subfamily_ok, Hbase. done.
Qed.

Lemma startswith_prefix p : forall s,
  startswith p s = true -> exists rest, s = p ++ rest.
Proof.
  induction p as [|a p IH]; intros s Hs; [by exists s|].
  destruct s as [|b s]; [done|]. simpl in Hs.
  apply andb_true_iff in Hs as [Hab Hs]. apply N.eqb_eq in Hab. subst b.
  destruct (IH s Hs) as (rest & ->). by exists rest.
Qed.

Lemma endswith_suffix s p :
  endswith s p = true -> exists before, s = before ++ p.
Proof.
  unfold endswith. intros H.
  destruct (startswith_prefix _ _ H) as (rest & Hrev). exists (rev rest).
  rewrite <- (rev_involutive s), Hrev, rev_app_distr. by rewrite rev_involutive.
Qed.

Lemma endswith_app before p : endswith (before ++ p) p = true.
Proof. unfold endswith. rewrite rev_app_distr. apply startswith_app. Qed.

(** The place of the last occurrence of a character is unique. *)
Lemma last_occurrence_unique (c : N) a : forall a' b b',
  c ∉ b -> c ∉ b' -> a ++ c :: b = a' ++ c :: b' -> a = a' /\ b = b'.
Proof.
  induction a as [|x a IH]; intros a' b b' Hb Hb' Heq.
  - destruct a' as [|y a']; [by injection Heq|].
    injection Heq as -> ->. exfalso. apply Hb.
    apply elem_of_app. right. left.
  - destruct a' as [|y a'].
    + injection Heq as -> <-. exfalso. apply Hb'.
      apply elem_of_app. right. left.
    + injection Heq as -> Heq. by destruct (IH _ _ _ Hb Hb' Heq) as [-> ->].
Qed.

Lemma endswith_cff2 stem ext :
  ch "." ∉ ext ->
  endswith (stem ++ py "." ++ ext) (py ".CFF2") = str_eqb ext (py "CFF2").
Proof.
  intros Hext. unfold str_eqb. case_bool_decide as Heq.
  - subst ext. apply endswith_app.
  - destruct (endswith _ _) eqn:He; [|done]. exfalso. apply Heq.
    apply endswith_suffix in He as (before & He).
    change (py "." ++ ext) with (ch "." :: ext) in He.
    change (py ".CFF2") with (ch "." :: py "CFF2") in He.
    apply last_occurrence_unique in He as [_ ->]; [done|done|].
    intros H. apply list_elem_of_In in H. vm_compute in H.
    destruct H as [H|[H|[H|[H|[]]]]]; discriminate.
Qed.

Lemma contains_marker_one_dot stem ext :
  ch "." ∉ stem -> ch "." ∉ ext ->
  contains (py ".CFF2.") (stem ++ py "." ++ ext) = false.
Proof.
  intros Hstem Hext. change (py ".CFF2.") with (ch "." :: py "CFF2.").
  rewrite (contains_skip_prefix _ _ _ _ Hstem).
  change (py "." ++ ext) with (ch "." :: ext). cbn [contains].
  rewrite (contains_absent _ _ _ Hext), orb_false_r.
  cbn [startswith]. rewrite N.eqb_refl. cbn [andb].
  destruct (startswith (py "CFF2.") ext) eqn:Hs; [|done].
  exfalso. apply Hext. apply (startswith_elem _ _ _ Hs). literal_elem.
Qed.

(** X6. For a file name [stem + "." + ext] whose two parts hold no dot,
    slash, colon or backslash, and whose stem is not empty, the base
    name without the extension is [stem], and the family and subfamily
    are those of [stem]. When the extension is kept the base name is the
    file name itself, unless the extension is [CFF2], which is dropped
    as a marker even then. *)
Theorem extension_is_dropped (stem ext : list N) :
  lacks (py "/:\.") stem = true ->
  lacks (py "/:\.") ext = true ->
  nonempty stem = true ->
  _normalize_basename (stem ++ py "." ++ ext) true = stem
  /\ _normalize_basename (stem ++ py "." ++ ext) false
     = (if str_eqb ext (py "CFF2") then stem else stem ++ py "." ++ ext)
  /\ split_family_subfamily (stem ++ py "." ++ ext) true
     = split_family_subfamily stem true.
Proof.
  intros Hstem Hext Hne.
  assert (ch "." ∉ stem) as Hdot by (apply (lacks_spec _ _ _ Hstem); literal_elem).
  assert (ch "." ∉ ext) as Hdot' by (apply (lacks_spec _ _ _ Hext); literal_elem).
  assert (lacks (py "/:\") (stem ++ py "." ++ ext) = true) as Hl.
  { rewrite !lacks_app. rewrite andb_true_iff. split; [|split_and?].
    - eapply lacks_weaken; [|exact Hstem]. intros c Hc. literal_subset Hc.
    - apply andb_true_iff. split; [done|].
      eapply lacks_weaken; [|exact Hext]. intros c Hc. literal_subset Hc. }
  assert (drop_cff2 (sanitize_forbidden_characters
                       (basename (stem ++ py "." ++ ext)))
          = if str_eqb ext (py "CFF2") then stem else stem ++ py "." ++ ext)
    as Hmarker.
  { assert (basename (stem ++ py "." ++ ext) = stem ++ py "." ++ ext) as ->.
    { unfold basename. rewrite rfind_char_absent; [done|].
      apply (lacks_spec _ _ _ Hl). literal_elem. }
    assert (sanitize_forbidden_characters (stem ++ py "." ++ ext)
            = stem ++ py "." ++ ext) as ->.
    { unfold sanitize_forbidden_characters, replace.
      change (py ":") with [ch ":"]. change (py "\") with [ch "\"].
      rewrite (replace_from_absent (ch ":") [] (py "_") (stem ++ py "." ++ ext))
        by (apply (lacks_spec _ _ _ Hl); literal_elem).
      apply replace_from_absent. apply (lacks_spec _ _ _ Hl). literal_elem. }
    unfold drop_cff2.
    rewrite (contains_marker_one_dot _ _ Hdot Hdot'), (endswith_cff2 _ _ Hdot').
    unfold str_eqb. case_bool_decide as Heq; [|done]. subst ext.
    apply take_app_length'. rewrite length_app.
    change (length (py "." ++ py "CFF2")) with 5. lia. }
  assert (_normalize_basename (stem ++ py "." ++ ext) true = stem) as Hbase.
  { rewrite _normalize_basename_unfold. cbv zeta. rewrite Hmarker.
    unfold str_eqb. case_bool_decide.
    - unfold splitext. by rewrite (rfind_char_absent _ _ Hdot).
    - rewrite splitext_stem; [done| |  |done].
      + eapply lacks_weaken; [|exact Hstem]. intros c Hc. literal_subset Hc.
      + eapply lacks_weaken; [|exact Hext]. intros c Hc. literal_subset Hc. }
  split; [done|]. split.
  { rewrite _normalize_basename_unfold. cbv zeta. by rewrite Hmarker. }
  rewrite !split_family_subfamily_ok, Hbase.
  by rewrite (_normalize_basename_plain stem true Hstem).
Qed.

(** ** The accessors *)

(** X7. [family_from_filename] and [subfamily_from_filename] return the
    two components of [split_family_subfamily]; none of the three
    raises, and the subfamily is [""] when the input holds no hyphen. *)
Theorem accessors_project_the_split
    (input_name : list N) (strip_extension : bool) :
  exists family subfamily,
    split_family_subfamily input_name strip_extension = Ok (family, subfamily)
    /\ family_from_filename input_name strip_extension = Ok family
    /\ subfamily_from_filename input_name strip_extension = Ok subfamily
    /\ (contains (py "-") input_name = true \/ subfamily = []).
Proof.
  unfold family_from_filename, subfamily_from_filename.
  rewrite split_family_subfamily_ok.
  destruct (contains (py "-") input_name) eqn:Hc.
  - destruct (hyphen_parts _) as [l r]. eexists _, _.
    split; [done|]. split; [done|]. split; [done|]. by left.
  - rewrite (hyphen_parts_absent _
               (_normalize_basename_no_hyphen _ strip_extension Hc)).
    eexists _, _. split; [done|]. split; [done|]. split; [done|]. by right.
Qed.

(** ** [apply_spacing_rules] *)

Lemma spacing_walk_shape tokens : forall prev,
  Forall2 (fun token spaced => exists b a, spaced = pad b ++ token ++ pad a)
    tokens (spacing_walk prev tokens).
Proof.
  induction tokens as [|token rest IH]; intros prev; [constructor|].
  cbn [spacing_walk]. constructor; [|apply IH].
  unfold spaced_text. by eexists _, _.
Qed.

Lemma spacing_walk_last before : forall prev token,
  exists b, list.last (spacing_walk prev (before ++ [token]))
            = Some (pad b ++ token).
Proof.
  induction before as [|x before IH]; intros prev token.
  - cbn [app spacing_walk head list.last]. unfold spaced_text.
    cbn [space_after_text pad]. rewrite app_nil_r. by eexists.
  - cbn [app spacing_walk]. rewrite last_cons.
    destruct (IH (Some x) token) as (b & ->). by eexists.
Qed.

(** The walk over a list in two pieces: the tokens before a place only
    matter to the rest through the last of them. *)
Lemma spacing_walk_app before : forall prev token rest,
  exists outs,
    spacing_walk prev (before ++ token :: rest)
    = outs ++ spacing_walk (match list.last before with
                            | Some x => Some x
                            | None => prev
                            end) (token :: rest)
    /\ length outs = length before.
Proof.
  induction before as [|x before IH]; intros prev token rest.
  - by exists [].
  - destruct (IH (Some x) token rest) as (outs & Hwalk & Hlen).
    exists (spaced_text prev x (head (before ++ token :: rest)) :: outs).
    cbn [app spacing_walk]. rewrite Hwalk, last_cons.
    split; [by destruct (list.last before)|]. cbn [length]. by rewrite Hlen.
Qed.

(** X8. [apply_spacing_rules] drops the empty tokens and returns the
    others in their order, each with at most one space written in front
    of it and at most one behind it; the first one gets no space in
    front and the last one none behind. *)
Theorem spacing_keeps_the_tokens (tokens : list (list N)) :
  exists out,
    apply_spacing_rules tokens = Ok out
    /\ Forall2 (fun token spaced => exists b a, spaced = pad b ++ token ++ pad a)
         (filter (fun t => nonempty t = true) tokens) out
    /\ (forall token rest,
          filter (fun t => nonempty t = true) tokens = token :: rest ->
          exists a, head out = Some (token ++ pad a))
    /\ (forall before token,
          filter (fun t => nonempty t = true) tokens = before ++ [token] ->
          exists b, list.last out = Some (pad b ++ token)).
Proof.
  exists (spacing_text tokens). split; [apply apply_spacing_rules_ok|].
  unfold spacing_text. split; [apply spacing_walk_shape|]. split.
  - intros token rest ->. cbn [spacing_walk head]. unfold spaced_text.
    by eexists.
  - intros before token ->. apply spacing_walk_last.
Qed.

Lemma not_alpha_no_space_mark mark :
  mark ∈ NO_SPACE -> starts_alpha mark = false.
Proof.
  intros H.
  repeat (apply elem_of_cons in H as [->|H]; [by vm_compute|]).
  by apply elem_of_nil in H.
Qed.

Lemma no_space_towards_mark prev mark :
  str_in mark NO_SPACE = true ->
  wants_space_after prev mark = false /\ wants_space_before prev mark = false.
Proof.
  intros Hmark. split; [|unfold wants_space_before; by rewrite Hmark].
  unfold wants_space_after. rewrite Hmark.
  destruct (str_in prev NO_SPACE); [done|].
  destruct (str_eqb prev (py "$")); [done|].
  destruct (str_eqb prev (py "%")); [|by destruct (str_in prev TRAILING_SPACE)].
  by apply not_alpha_no_space_mark, str_in_elem.
Qed.

Lemma no_space_from_mark mark next :
  str_in mark NO_SPACE = true ->
  wants_space_after mark next = false /\ wants_space_before mark next = false.
Proof.
  intros Hmark. split; [unfold wants_space_after; by rewrite Hmark|].
  pose proof (not_alpha_no_space_mark _ (str_in_elem _ _ Hmark)) as Halpha.
  unfold wants_space_before. rewrite Hmark, Halpha, andb_false_r.
  destruct (str_in next NO_SPACE); [done|].
  destruct (str_in next TRAILING_SPACE); [done|].
  destruct (_ || _); [done|]. by destruct (str_in next LEADING_SPACE).
Qed.

(** X9. The marks [*], [@] and ['] attach to their neighbours wherever
    they stand in the token list: the mark is returned bare, the token
    before it gets no space behind it and the token after it gets no
    space in front of it. *)
Theorem no_space_marks_attach
    (before after : list (list N)) (prev mark next : list N) :
  str_in mark NO_SPACE = true ->
  nonempty prev = true ->
  nonempty next = true ->
  exists outs_before b a outs_after,
    apply_spacing_rules (before ++ [prev; mark; next] ++ after)
    = Ok (outs_before ++ [pad b ++ prev; mark; next ++ pad a] ++ outs_after)
    /\ length outs_before
       = length (filter (fun t => nonempty t = true) before)
    /\ length outs_after
       = length (filter (fun t => nonempty t = true) after).
Proof.
  intros Hmark Hprev Hnext. rewrite apply_spacing_rules_ok. unfold spacing_text.
  assert (nonempty mark = true) as Hne.
  { apply str_in_elem in Hmark.
    repeat (apply elem_of_cons in Hmark as [->|Hmark]; [done|]).
    by apply elem_of_nil in Hmark. }
  rewrite !list.filter_app.
  rewrite (filter_cons_True _ prev), (filter_cons_True _ mark),
    (filter_cons_True _ next), filter_nil by done.
  cbn [app].
  set (pre := filter _ before). set (post := filter _ after).
  destruct (spacing_walk_app pre None prev (mark :: next :: post))
    as (outs & -> & Hlen).
  cbn [spacing_walk head]. unfold spaced_text at 1 2 3.
  cbn [space_after_text space_before_text]. rewrite Hprev, Hnext, Hne.
  cbn [andb].
  destruct (no_space_towards_mark prev mark Hmark) as [-> ->].
  destruct (no_space_from_mark mark next Hmark) as [-> ->].
  cbn [pad]. rewrite !app_nil_r.
  exists outs. eexists _, _, _. split; [reflexivity|]. split; [done|].
  symmetry. eapply Forall2_length, spacing_walk_shape.
Qed.

(** ** ASCII text *)

Lemma is_AZ_ascii c : is_AZ c = true -> (c <? 128)%N = true.
Proof.
  unfold is_AZ, in_range. intros H. apply andb_true_iff in H as [_ H].
  apply N.leb_le in H. apply N.ltb_lt. lia.
Qed.

Lemma is_az_ascii c : is_az c = true -> (c <? 128)%N = true.
Proof.
  unfold is_az, in_range. intros H. apply andb_true_iff in H as [_ H].
  apply N.leb_le in H. apply N.ltb_lt. lia.
Qed.

Lemma char_info_AZ c :
  is_AZ c = true -> char_info c = {| u_class := Alpha; u_case := Upper |}.
Proof.
  intros H. unfold char_info, ascii_info. by rewrite (is_AZ_ascii c H), H.
Qed.

Lemma char_info_az c :
  is_az c = true -> char_info c = {| u_class := Alpha; u_case := Lower |}.
Proof.
  intros H. unfold char_info, ascii_info.
  by rewrite (is_az_ascii c H), (is_az_not_AZ c H), H.
Qed.

Lemma ascii_upper_ascii c : (c <? 128)%N = true -> (ascii_upper c <? 128)%N = true.
Proof.
  unfold ascii_upper. destruct (is_az c) eqn:H; [|done]. intros _.
  unfold is_az, in_range in H. apply andb_true_iff in H as [H1 H2].
  apply N.leb_le in H1, H2. apply N.ltb_lt. lia.
Qed.

Lemma ascii_lower_ascii c : (c <? 128)%N = true -> (ascii_lower c <? 128)%N = true.
Proof.
  unfold ascii_lower. destruct (is_AZ c) eqn:H; [|done]. intros _.
  unfold is_AZ, in_range in H. apply andb_true_iff in H as [H1 H2].
  apply N.leb_le in H1, H2. apply N.ltb_lt. lia.
Qed.

Lemma ascii_upper_twice c : ascii_upper (ascii_upper c) = ascii_upper c.
Proof.
  unfold ascii_upper at 2 3. destruct (is_az c) eqn:H; unfold ascii_upper.
  - assert (is_az (c - 32) = false) as ->; [|done].
    unfold is_az, in_range in *. apply andb_true_iff in H as [H1 H2].
    apply N.leb_le in H1, H2. apply andb_false_iff. left.
    apply N.leb_gt. lia.
  - by rewrite H.
Qed.

Lemma ascii_lower_twice c : ascii_lower (ascii_lower c) = ascii_lower c.
Proof.
  unfold ascii_lower at 2 3. destruct (is_AZ c) eqn:H; unfold ascii_lower.
  - assert (is_AZ (c + 32) = false) as ->; [|done].
    unfold is_AZ, in_range in *. apply andb_true_iff in H as [H1 H2].
    apply N.leb_le in H1, H2. apply andb_false_iff. right.
    apply N.leb_gt. lia.
  - by rewrite H.
Qed.

Lemma ascii_lower_upper c : ascii_lower (ascii_upper c) = ascii_lower c.
Proof.
  unfold ascii_upper. destruct (is_az c) eqn:H; [|done].
  unfold ascii_lower. rewrite (is_az_not_AZ c H).
  assert (is_AZ (c - 32) = true) as ->.
  { unfold is_az, is_AZ, in_range in *. apply andb_true_iff in H as [H1 H2].
    apply N.leb_le in H1, H2. apply andb_true_iff.
    split; apply N.leb_le; lia. }
  unfold is_az, in_range in H. apply andb_true_iff in H as [H1 H2].
  apply N.leb_le in H1, H2. lia.
Qed.

Lemma upper_ascii s : ascii_text s = true -> upper s = map ascii_upper s.
Proof.
  unfold upper, upper_char. induction s as [|c s IH]; [done|].
  cbn [ascii_text forallb map concat]. intros H.
  apply andb_true_iff in H as [-> H]. by rewrite (IH H).
Qed.

Lemma concat_imap_ascii (s : list N) : forall f : nat -> N -> list N,
  (forall i c, s !! i = Some c -> f i c = [ascii_lower c]) ->
  concat (imap f s) = map ascii_lower s.
Proof.
  induction s as [|c s IH]; intros f Hf; [done|].
  cbn [imap concat map]. rewrite (Hf 0 c eq_refl). cbn [app]. f_equal.
  apply IH. intros i x Hx. apply (Hf (S i) x Hx).
Qed.

Lemma lower_ascii s : ascii_text s = true -> lower s = map ascii_lower s.
Proof.
  intros Hs. unfold lower. apply concat_imap_ascii. intros i c Hc.
  unfold ascii_text in Hs. rewrite forallb_forall in Hs.
  rewrite (Hs c); [done|]. apply list_elem_of_In.
  by apply list_elem_of_lookup_2 in Hc.
Qed.

Lemma title_case_ascii c rest :
  ascii_text (c :: rest) = true ->
  title_case (c :: rest) = ascii_upper c :: map ascii_lower rest.
Proof.
  cbn [ascii_text forallb]. intros H. apply andb_true_iff in H as [Hc Hrest].
  unfold title_case. rewrite (lower_ascii rest Hrest).
  rewrite (upper_ascii [c]); [done|]. cbn [ascii_text forallb].
  by rewrite Hc.
Qed.

Lemma ascii_text_map f s :
  (forall c, (c <? 128)%N = true -> (f c <? 128)%N = true) ->
  ascii_text s = true -> ascii_text (map f s) = true.
Proof.
  intros Hf. unfold ascii_text. induction s as [|c s IH]; [done|].
  cbn [map forallb]. intros H. apply andb_true_iff in H as [Hc H].
  by rewrite (Hf c Hc), (IH H).
Qed.

Lemma title_case_ascii_text token :
  ascii_text token = true -> ascii_text (title_case token) = true.
Proof.
  destruct token as [|c rest]; [done|]. intros H.
  rewrite (title_case_ascii c rest H).
  cbn [ascii_text forallb] in *. apply andb_true_iff in H as [Hc Hrest].
  rewrite (ascii_upper_ascii c Hc).
  by apply (ascii_text_map ascii_lower rest ascii_lower_ascii).
Qed.

Lemma title_case_twice token :
  ascii_text token = true -> title_case (title_case token) = title_case token.
Proof.
  destruct token as [|c rest]; [done|]. intros H.
  pose proof (title_case_ascii_text _ H) as H'.
  rewrite (title_case_ascii c rest H) in *.
  rewrite (title_case_ascii _ _ H'), ascii_upper_twice, map_map.
  f_equal. apply map_ext. apply ascii_lower_twice.
Qed.

Lemma title_case_lower token :
  ascii_text token = true ->
  map ascii_lower (title_case token) = map ascii_lower token.
Proof.
  destruct token as [|c rest]; [done|]. intros H.
  rewrite (title_case_ascii c rest H). cbn [map].
  rewrite ascii_lower_upper, map_map. f_equal.
  apply map_ext. apply ascii_lower_twice.
Qed.

Lemma format_token_text_cases token :
  format_token_text token = token
  \/ format_token_text token = title_case token.
Proof.
  unfold format_token_text.
  destruct (negb (nonempty token)); [by left|].
  destruct (str_in token format_specials); [by left|].
  destruct (isupper token); [by left|].
  destruct (islower token); [by left|].
  destruct (match_cap_digit token); [by left|by right].
Qed.

Lemma format_token_text_lower token :
  ascii_text token = true ->
  map ascii_lower (format_token_text token) = map ascii_lower token.
Proof.
  intros H. destruct (format_token_text_cases token) as [-> | ->]; [done|].
  by apply title_case_lower.
Qed.

(** X10. On an ASCII token [_format_token] only changes the case of
    letters: the result has the letters of the token in the same places
    when case is ignored, and formatting the result again returns it
    unchanged. *)
Theorem format_token_on_ascii (token : list N) :
  ascii_text token = true ->
  exists out,
    _format_token token = Ok out
    /\ _format_token out = Ok out
    /\ length out = length token
    /\ map ascii_lower out = map ascii_lower token.
Proof.
  intros H. exists (format_token_text token).
  rewrite !_format_token_ok. split; [done|].
  pose proof (format_token_text_lower token H) as Hlower.
  split; [|split; [|done]].
  - f_equal. destruct (format_token_text_cases token) as [Heq|Heq].
    + by rewrite !Heq.
    + rewrite Heq.
      destruct (format_token_text_cases (title_case token)) as [-> | ->];
        [done|by apply title_case_twice].
  - by rewrite <- (length_map ascii_lower), Hlower, length_map.
Qed.

(** ** Texts that are a sequence of matches *)

Lemma finditer_from_skip a : forall prev pos s,
  finditer_from prev pos (length a) (a ++ s)
  = finditer_from (match list.last a with Some c => Some c | None => prev end)
      (pos + length a) 0 s.
Proof.
  induction a as [|c a IH]; intros prev pos s.
  - cbn [length app list.last]. by rewrite Nat.add_0_r.
  - cbn [length app finditer_from]. rewrite IH, last_cons.
    rewrite Nat.add_succ_r. by destruct (list.last a).
Qed.

Lemma finditer_from_match prev pos w s :
  w <> [] -> token_match prev (w ++ s) = Some (length w) ->
  finditer_from prev pos 0 (w ++ s)
  = (pos, pos + length w) :: finditer_from (list.last w) (pos + length w) 0 s.
Proof.
  destruct w as [|c w]; [done|]. intros _ Hm.
  change ((c :: w) ++ s) with (c :: (w ++ s)) in *.
  cbn [finditer_from]. rewrite Hm. f_equal.
  cbn [length]. rewrite Nat.sub_succ, Nat.sub_0_r, finditer_from_skip.
  rewrite last_cons, Nat.add_succ_r. by destruct (list.last w).
Qed.

Lemma finditer_in_turn ws : forall prev pos,
  matched_in_turn prev ws ->
  finditer_from prev pos 0 (concat ws) = spans_of pos ws.
Proof.
  induction ws as [|w ws IH]; intros prev pos; [done|].
  cbn [matched_in_turn concat spans_of]. intros (Hw & Hm & Hrest).
  rewrite (finditer_from_match _ _ _ _ Hw Hm). f_equal. by apply IH.
Qed.

Lemma fold_tokenize_in_turn ws : forall before tokens,
  fold_left (tokenize_step (before ++ concat ws))
    (spans_of (length before) ws) (tokens, length before)
  = (tokens ++ ws, length before + length (concat ws)).
Proof.
  induction ws as [|w ws IH]; intros before tokens.
  - cbn [concat spans_of fold_left length]. by rewrite app_nil_r, Nat.add_0_r.
  - cbn [concat spans_of fold_left tokenize_step].
    rewrite Nat.ltb_irrefl.
    assert (slice (before ++ w ++ concat ws) (length before)
              (length before + length w) = w) as ->.
    { unfold slice. rewrite take_app_add, drop_app_length.
      by rewrite take_app_length. }
    rewrite <- length_app, (app_assoc before w), IH.
    rewrite <- app_assoc, !length_app. f_equal. lia.
Qed.

(** When the pattern matches the words of [ws] one after the other, the
    tokens of [concat ws] are these words. *)
Lemma tokenize_in_turn ws :
  matched_in_turn None ws -> tokenize_pascal_case (concat ws) = ws.
Proof.
  intros Hws. unfold tokenize_pascal_case, finditer.
  case_bool_decide as Hempty.
  - destruct ws as [|w ws]; [done|]. destruct Hws as (Hw & _).
    destruct w; [done|discriminate].
  - rewrite (finditer_in_turn ws None 0 Hws).
    pose proof (fold_tokenize_in_turn ws [] []) as Hfold.
    cbn [app length] in Hfold. rewrite Hfold. cbn [Nat.add].
    by rewrite Nat.ltb_irrefl.
Qed.

(** ** Words in camel case *)

Lemma is_az_not_decimal c : is_az c = true -> is_decimal c = false.
Proof. intros H. unfold is_decimal, class_is. by rewrite (char_info_az c H). Qed.

Lemma is_az_not_word_stop c : is_az c = true -> is_word_stop c = false.
Proof.
  intros H. unfold is_word_stop.
  destruct (existsb (N.eqb c) word_stop_chars) eqn:E; [|done].
  apply existsb_exists in E as (x & Hx & Heq). apply N.eqb_eq in Heq.
  subst x. vm_compute in Hx.
  repeat (destruct Hx as [<-|Hx]; [discriminate|]). done.
Qed.

Lemma ahead_word_end_az prev c s :
  is_az c = true -> ahead_word_end prev (c :: s) = false.
Proof.
  intros H. unfold ahead_word_end. cbn [head_is].
  rewrite (is_az_not_AZ c H), (is_az_not_decimal c H),
    (is_az_not_word_stop c H).
  assert ((c =? 10)%N = false) as Hnl.
  { unfold is_az, in_range in H. apply andb_true_iff in H as [H _].
    apply N.leb_le in H. apply N.eqb_neq. lia. }
  destruct s as [|b s]; cbn [at_dollar andb orb];
    [by rewrite Hnl, andb_false_r|by rewrite andb_false_r].
Qed.

(** [[a-z]+?(?=...)] on a run of lowercase letters that no lowercase
    letter follows: the whole run when the look-ahead holds behind it,
    and no match otherwise. *)
Lemma lazy_lowercase_run lows rest :
  forallb is_az lows = true -> lows <> [] -> head_is is_az rest = false ->
  lazy_lowercase (lows ++ rest)
  = if ahead_word_end (list.last lows) rest then Some (length lows) else None.
Proof.
  intros Hlows Hne Hrest.
  assert (lazy_lowercase rest = None) as Hnone.
  { destruct rest as [|r rest]; [done|]. cbn [head_is] in Hrest.
    cbn [lazy_lowercase]. by rewrite Hrest. }
  induction lows as [|c lows IH]; [done|].
  cbn [forallb] in Hlows. apply andb_true_iff in Hlows as [Hc Hlows].
  change ((c :: lows) ++ rest) with (c :: (lows ++ rest)).
  cbn [lazy_lowercase]. rewrite Hc.
  destruct lows as [|d lows].
  - cbn [app list.last length]. rewrite Hnone.
    by destruct (ahead_word_end (Some c) rest).
  - cbn [forallb] in Hlows. apply andb_true_iff in Hlows as [Hd Hlows'].
    change ((d :: lows) ++ rest) with (d :: (lows ++ rest)) in *.
    rewrite (ahead_word_end_az (Some c) d (lows ++ rest) Hd).
    rewrite IH; [|by cbn [forallb]; rewrite Hd|done].
    rewrite (last_cons c (d :: lows)).
    destruct (list.last (d :: lows)) eqn:Hlast.
    + by destruct (ahead_word_end _ rest).
    + by apply last_None in Hlast.
Qed.

Lemma token_match_capitalized prev w rest :
  capitalized w = true ->
  ahead_word_end (list.last w) rest = true -> head_is is_az rest = false ->
  token_match prev (w ++ rest) = Some (length w).
Proof.
  destruct w as [|c [|d lows]]; [done| |].
  { cbn [capitalized nonempty]. by rewrite andb_false_r. }
  cbn [capitalized nonempty]. rewrite andb_true_r. intros Hw Hahead Hrest.
  apply andb_true_iff in Hw as [Hc Hlows].
  pose proof Hlows as Hlows'. cbn [forallb] in Hlows'.
  apply andb_true_iff in Hlows' as [Hd _].
  change ((c :: d :: lows) ++ rest) with (c :: d :: (lows ++ rest)).
  unfold token_match.
  assert (acronym_before_camel (c :: d :: lows ++ rest) = None) as ->.
  { cbn [acronym_before_camel]. rewrite Hc, (is_az_not_AZ d Hd).
    unfold ahead_camel. destruct (lows ++ rest); [done|].
    by rewrite (is_az_not_AZ d Hd). }
  assert (single_cap_number prev (c :: d :: lows ++ rest) = None) as ->.
  { unfold single_cap_number. destruct (prev_is is_AZ prev); [done|].
    rewrite Hc. cbn [run]. by rewrite (is_az_not_decimal d Hd). }
  assert (decimal_number (c :: d :: lows ++ rest) = None) as ->.
  { unfold decimal_number. cbn [run]. by rewrite (is_AZ_not_decimal c Hc). }
  cbn [or_else]. unfold capitalized_word. rewrite Hc.
  change (d :: lows ++ rest) with ((d :: lows) ++ rest).
  rewrite (lazy_lowercase_run (d :: lows) rest Hlows) by done.
  rewrite (last_cons c (d :: lows)) in Hahead.
  destruct (list.last (d :: lows)) eqn:Hlast; [|by apply last_None in Hlast].
  by rewrite Hahead.
Qed.

Lemma run_all p s : forallb p s = true -> run p s = length s.
Proof.
  intros H. rewrite <- (app_nil_r s) at 1. by apply run_app.
Qed.

Lemma token_match_all_caps_end prev w :
  all_caps w = true -> token_match prev w = Some (length w).
Proof.
  unfold all_caps. intros Hw. apply andb_true_iff in Hw as [Hne Hw].
  destruct w as [|c caps]; [done|].
  pose proof Hw as Hw'. cbn [forallb] in Hw'.
  apply andb_true_iff in Hw' as [Hc Hcaps].
  unfold token_match.
  assert (acronym_before_camel (c :: caps) = None) as ->.
  { rewrite <- (app_nil_r (c :: caps)).
    by apply acronym_before_camel_none. }
  assert (run is_decimal caps = 0) as Hdigits.
  { destruct caps as [|d caps]; [done|]. cbn [forallb] in Hcaps.
    apply andb_true_iff in Hcaps as [Hd _]. cbn [run].
    by rewrite (is_AZ_not_decimal d Hd). }
  assert (lazy_lowercase caps = None) as Hlows.
  { destruct caps as [|d caps]; [done|]. cbn [forallb] in Hcaps.
    apply andb_true_iff in Hcaps as [Hd _]. cbn [lazy_lowercase].
    by rewrite (is_AZ_not_az d Hd). }
  assert (single_cap_number prev (c :: caps) = None) as ->.
  { unfold single_cap_number. destruct (prev_is is_AZ prev); [done|].
    by rewrite Hc, Hdigits. }
  assert (decimal_number (c :: caps) = None) as ->.
  { unfold decimal_number. cbn [run]. by rewrite (is_AZ_not_decimal c Hc). }
  assert (capitalized_word (c :: caps) = None) as ->.
  { unfold capitalized_word. rewrite Hc, Hlows. cbn [option_map lazy_lowercase].
    by rewrite (is_AZ_not_az c Hc). }
  cbn [or_else]. unfold all_caps_sequence, single_uppercase.
  rewrite (run_all _ _ Hw). cbn [head_is]. rewrite Hc.
  destruct caps as [|d caps]; [done|]. done.
Qed.

Lemma token_match_all_caps_word prev w a b rest :
  all_caps w = true -> is_AZ a = true -> is_az b = true ->
  token_match prev (w ++ a :: b :: rest) = Some (length w).
Proof.
  unfold all_caps. intros Hw Ha Hb. apply andb_true_iff in Hw as [Hne Hw].
  unfold token_match.
  rewrite (acronym_before_camel_run w a b rest Hw Ha Hb).
  by destruct w.
Qed.

Lemma capitalized_head w :
  capitalized w = true ->
  exists a b rest, w = a :: b :: rest /\ is_AZ a = true /\ is_az b = true.
Proof.
  destruct w as [|a [|b rest]]; [done| |].
  { cbn [capitalized nonempty]. by rewrite andb_false_r. }
  cbn [capitalized nonempty forallb]. rewrite andb_true_r. intros H.
  apply andb_true_iff in H as [Ha H]. apply andb_true_iff in H as [Hb _].
  by exists a, b, rest.
Qed.

Lemma all_caps_head w :
  all_caps w = true -> exists a rest, w = a :: rest /\ is_AZ a = true.
Proof.
  unfold all_caps. destruct w as [|a rest]; [done|].
  cbn [nonempty forallb andb].
  intros H. apply andb_true_iff in H as [Ha _]. by exists a, rest.
Qed.

Lemma camel_words_head w ws :
  camel_words (w :: ws) = true ->
  exists a rest, w = a :: rest /\ is_AZ a = true.
Proof.
  cbn [camel_words]. intros H. apply andb_true_iff in H as [H _].
  apply orb_true_iff in H as [H|H].
  - destruct (capitalized_head w H) as (a & b & rest & -> & Ha & _).
    by eexists _, _.
  - apply andb_true_iff in H as [H _]. by apply all_caps_head.
Qed.

Lemma capitalized_last w :
  capitalized w = true -> exists c, list.last w = Some c /\ is_az c = true.
Proof.
  destruct w as [|a rest]; [done|]. cbn [capitalized]. intros H.
  apply andb_true_iff in H as [H Hrest]. apply andb_true_iff in H as [_ Hne].
  rewrite last_cons. destruct (list.last rest) as [c|] eqn:Hlast.
  - exists c. split; [done|]. rewrite forallb_forall in Hrest.
    apply Hrest, list_elem_of_In. apply last_Some in Hlast as (l' & ->).
    apply elem_of_app. right. left.
  - apply last_None in Hlast. by subst rest.
Qed.

(** The pattern reads a list of camel-case words word by word. *)
Lemma camel_words_matched ws : forall prev,
  camel_words ws = true -> matched_in_turn prev ws.
Proof.
  induction ws as [|w ws IH]; intros prev Hws; [done|].
  pose proof Hws as Hall. cbn [camel_words] in Hws.
  apply andb_true_iff in Hws as [Hw Hrest].
  destruct (camel_words_head w ws Hall) as (a & tail & Hhead & Ha).
  cbn [matched_in_turn]. split; [by subst w|]. split; [|by apply IH].
  apply orb_true_iff in Hw as [Hw|Hw].
  - apply token_match_capitalized; [done| |].
    + destruct ws as [|next ws']; [by unfold ahead_word_end; rewrite !orb_true_r|].
      destruct (camel_words_head next ws' Hrest) as (b & tail' & -> & Hb).
      unfold ahead_word_end. cbn [concat app head_is]. by rewrite Hb.
    + destruct ws as [|next ws']; [done|].
      destruct (camel_words_head next ws' Hrest) as (b & tail' & -> & Hb).
      cbn [concat app head_is]. by apply is_AZ_not_az.
  - apply andb_true_iff in Hw as [Hw Hnext].
    destruct ws as [|next ws'].
    + cbn [concat]. rewrite app_nil_r. by apply token_match_all_caps_end.
    + destruct (capitalized_head next Hnext) as (b & c & tail' & -> & Hb & Hc).
      cbn [concat app]. by apply token_match_all_caps_word.
Qed.

(** X11. A text made of capitalized words and runs of capitals, where
    every run of capitals is followed by a capitalized word or ends the
    text, is cut into exactly these words: the tokens of
    ["KWAKGroteskBold"] are [KWAK], [Grotesk], [Bold]. *)
Theorem camel_words_are_the_tokens (ws : list (list N)) :
  camel_words ws = true -> tokenize_pascal_case (concat ws) = ws.
Proof.
  intros Hws. apply tokenize_in_turn. by apply camel_words_matched.
Qed.

Lemma split_char_absent sep s : sep ∉ s -> split_char sep s = [s].
Proof.
  induction s as [|c s IH]; intros Hs; [done|]. cbn [split_char].
  destruct (c =? sep)%N eqn:He.
  - apply N.eqb_eq in He. subst c. exfalso. apply Hs. left.
  - rewrite IH; [done|]. intros H. apply Hs. by right.
Qed.

Lemma merge_pairs_no_digits tokens :
  Forall (fun t => isdigit t = false) tokens ->
  merge_pairs tokens = map (fun t => (t, false)) tokens.
Proof.
  induction 1 as [|t tokens Ht Htokens IH]; [done|].
  destruct tokens as [|next rest]; [done|].
  rewrite merge_pairs_step, Ht. cbn [andb map]. by rewrite IH.
Qed.

(** Tokens that start with a capital letter are not numbers. *)
Lemma head_AZ_not_digits w : head_is is_AZ w = true -> isdigit w = false.
Proof.
  destruct w as [|c w]; [done|]. cbn [head_is]. intros Hc.
  unfold isdigit. cbn [forallb]. unfold is_digit, class_is.
  rewrite (char_info_AZ c Hc). cbn. by rewrite ?andb_false_r.
Qed.

Lemma head_AZ_alnum w : head_is is_AZ w = true -> head_is is_alnum w = true.
Proof.
  destruct w as [|c w]; [done|]. cbn [head_is]. unfold is_alnum.
  by intros ->.
Qed.

(** Tokens that start with a letter or a digit of ASCII: none of them
    is one of the marks the spacing rules name. *)
Lemma head_alnum_not_among w marks :
  head_is is_alnum w = true ->
  Forall (fun m => head_is is_alnum m = false) marks ->
  str_in w marks = false.
Proof.
  intros Hw Hmarks. destruct (str_in w marks) eqn:Hin; [|done].
  apply str_in_elem in Hin. rewrite list.Forall_forall in Hmarks.
  specialize (Hmarks w Hin). congruence.
Qed.

Lemma head_alnum_not_mark w c :
  head_is is_alnum w = true -> is_alnum c = false -> str_eqb w [c] = false.
Proof.
  intros Hw Hc. unfold str_eqb. case_bool_decide as Heq; [|done].
  subst w. cbn [head_is] in Hw. congruence.
Qed.

Lemma marks_not_alnum :
  Forall (fun m => head_is is_alnum m = false) NO_SPACE
  /\ Forall (fun m => head_is is_alnum m = false) TRAILING_SPACE
  /\ Forall (fun m => head_is is_alnum m = false) LEADING_SPACE
  /\ Forall (fun m => head_is is_alnum m = false) format_specials.
Proof. repeat split; repeat constructor. Qed.

Lemma wants_space_between_words prev w :
  head_is is_alnum prev = true -> head_is is_alnum w = true ->
  wants_space_before prev w = true.
Proof.
  intros Hprev Hw. destruct marks_not_alnum as (Hno & Htrail & Hlead & _).
  unfold wants_space_before.
  rewrite (head_alnum_not_among w _ Hw Hno),
    (head_alnum_not_among w _ Hw Htrail),
    (head_alnum_not_among w _ Hw Hlead),
    (head_alnum_not_among prev _ Hprev Hno),
    (head_alnum_not_among prev _ Hprev Htrail),
    (head_alnum_not_among prev _ Hprev Hlead).
  change (py "$") with [ch "$"]. change (py "%") with [ch "%"].
  by rewrite !(head_alnum_not_mark w), !(head_alnum_not_mark prev).
Qed.

Lemma no_space_behind_word w next :
  head_is is_alnum w = true -> wants_space_after w next = false.
Proof.
  intros Hw. destruct marks_not_alnum as (Hno & Htrail & _).
  unfold wants_space_after.
  rewrite (head_alnum_not_among w _ Hw Hno),
    (head_alnum_not_among w _ Hw Htrail).
  change (py "$") with [ch "$"]. change (py "%") with [ch "%"].
  by rewrite !(head_alnum_not_mark w).
Qed.

Lemma space_after_text_word w next :
  head_is is_alnum w = true -> space_after_text w next = false.
Proof.
  intros Hw. destruct next as [n|]; [|done]. cbn [space_after_text].
  rewrite (no_space_behind_word w n Hw). apply andb_false_r.
Qed.

Lemma head_alnum_nonempty w : head_is is_alnum w = true -> nonempty w = true.
Proof. by destruct w. Qed.

Lemma filter_nonempty_all (ws : list (list N)) :
  Forall (fun t => nonempty t = true) ws ->
  filter (fun t => nonempty t = true) ws = ws.
Proof.
  induction 1 as [|w ws Hw Hws IH]; [done|].
  rewrite filter_cons_True by done. by rewrite IH.
Qed.

Lemma spacing_walk_words ws : forall prev,
  Forall (fun w => head_is is_alnum w = true) ws ->
  head_is is_alnum prev = true ->
  spacing_walk (Some prev) ws = map (app (py " ")) ws.
Proof.
  induction ws as [|w ws IH]; intros prev Hws Hprev; [done|].
  inversion Hws as [|? ? Hw Hws']; subst. cbn [spacing_walk map].
  rewrite (IH w Hws' Hw). f_equal. unfold spaced_text.
  rewrite (space_after_text_word w _ Hw). cbn [space_before_text pad].
  rewrite (head_alnum_nonempty prev Hprev),
    (wants_space_between_words _ _ Hprev Hw).
  cbn [andb]. by rewrite app_nil_r.
Qed.

Lemma spacing_text_words w ws :
  Forall (fun w => head_is is_alnum w = true) (w :: ws) ->
  spacing_text (w :: ws) = w :: map (app (py " ")) ws.
Proof.
  intros Hall. unfold spacing_text.
  assert (filter (fun t => nonempty t = true) (w :: ws) = w :: ws) as ->.
  { apply filter_nonempty_all. eapply Forall_impl; [|exact Hall].
    intros t Ht. by apply head_alnum_nonempty. }
  inversion Hall as [|? ? Hw Hws]; subst. cbn [spacing_walk].
  rewrite (spacing_walk_words ws w Hws Hw). f_equal. unfold spaced_text.
  rewrite (space_after_text_word w _ Hw). cbn [space_before_text pad app].
  apply app_nil_r.
Qed.

Lemma concat_spaced ws : forall w,
  concat (w :: map (app (py " ")) ws) = space_join (w :: ws).
Proof.
  induction ws as [|next ws IH]; intros w.
  - cbn [map concat space_join]. apply app_nil_r.
  - cbn [map concat]. cbn [concat] in IH. rewrite <- app_assoc, (IH next).
    done.
Qed.

Lemma head_is_rev (p : N -> bool) s :
  head_is p (rev s) = match list.last s with Some c => p c | None => false end.
Proof.
  induction s as [|c s IH] using rev_ind; [done|].
  by rewrite rev_app_distr, last_snoc.
Qed.

Lemma strip_trimmed_same s : trimmed s = true -> strip s = s.
Proof.
  unfold trimmed. intros H. apply andb_true_iff in H as [Hhead Hlast].
  apply negb_true_iff in Hhead, Hlast.
  assert (forall t, head_is is_space t = false -> lstrip t = t) as Hl.
  { intros [|c t]; [done|]. cbn [head_is lstrip]. by intros ->. }
  unfold strip, rstrip. rewrite (Hl s Hhead), (Hl (rev s) Hlast).
  apply rev_involutive.
Qed.

Lemma camel_words_forall ws :
  camel_words ws = true ->
  Forall (fun w => capitalized w || all_caps w = true) ws.
Proof.
  induction ws as [|w ws IH]; [constructor|]. cbn [camel_words]. intros H.
  apply andb_true_iff in H as [Hw Hws]. constructor; [|by apply IH].
  apply orb_true_iff in Hw as [Hw|Hw]; [by rewrite Hw|].
  apply andb_true_iff in Hw as [Hw _]. rewrite Hw. apply orb_true_r.
Qed.

Lemma camel_word_head w :
  capitalized w || all_caps w = true -> head_is is_AZ w = true.
Proof.
  intros H. apply orb_true_iff in H as [H|H].
  - by destruct (capitalized_head w H) as (a & b & rest & -> & Ha & _).
  - by destruct (all_caps_head w H) as (a & rest & -> & Ha).
Qed.

Lemma camel_word_letters w c :
  capitalized w || all_caps w = true -> c ∈ w ->
  is_AZ c = true \/ is_az c = true.
Proof.
  intros H Hc. apply orb_true_iff in H as [H|H].
  - destruct w as [|a rest]; [done|]. cbn [capitalized] in H.
    apply andb_true_iff in H as [H Hrest]. apply andb_true_iff in H as [Ha _].
    apply elem_of_cons in Hc as [->|Hc]; [by left|]. right.
    rewrite forallb_forall in Hrest. by apply Hrest, list_elem_of_In.
  - unfold all_caps in H. apply andb_true_iff in H as [_ H].
    rewrite forallb_forall in H. left. by apply H, list_elem_of_In.
Qed.

Lemma letter_not_space c :
  is_AZ c = true \/ is_az c = true -> is_space c = false.
Proof.
  unfold is_space, class_is.
  intros [H|H]; [by rewrite (char_info_AZ c H)|by rewrite (char_info_az c H)].
Qed.

Lemma format_token_text_camel w :
  capitalized w || all_caps w = true -> format_token_text w = w.
Proof.
  intros H. apply orb_true_iff in H as [H|H].
  - destruct (format_token_text_cases w) as [Heq|Heq]; [done|].
    rewrite Heq. destruct w as [|a rest]; [done|].
    cbn [capitalized] in H.
    apply andb_true_iff in H as [H Hrest]. apply andb_true_iff in H as [Ha _].
    rewrite title_case_ascii.
    + unfold ascii_upper. rewrite (is_AZ_not_az a Ha). f_equal.
      rewrite <- (map_id rest) at 2. apply map_ext_in. intros c Hc.
      rewrite forallb_forall in Hrest. unfold ascii_lower.
      by rewrite (is_az_not_AZ c (Hrest c Hc)).
    + cbn [ascii_text forallb]. rewrite (is_AZ_ascii a Ha). cbn [andb].
      apply forallb_forall. intros c Hc. rewrite forallb_forall in Hrest.
      by apply is_az_ascii, Hrest.
  - unfold all_caps in H. apply andb_true_iff in H as [Hne H].
    unfold format_token_text. rewrite Hne. cbn [negb].
    destruct (str_in w format_specials); [done|].
    assert (isupper w = true) as ->; [|done].
    unfold isupper. apply andb_true_iff. split.
    + apply forallb_forall. intros c Hc. rewrite forallb_forall in H.
      unfold case_is. by rewrite (char_info_AZ c (H c Hc)).
    + destruct w as [|a rest]; [done|]. cbn [forallb existsb] in *.
      apply andb_true_iff in H as [Ha _]. unfold case_is.
      by rewrite (char_info_AZ a Ha).
Qed.

Lemma camel_word_last w :
  capitalized w || all_caps w = true ->
  exists c, list.last w = Some c /\ (is_AZ c = true \/ is_az c = true).
Proof.
  intros H. destruct (list.last w) as [c|] eqn:Hlast.
  - exists c. split; [done|]. apply (camel_word_letters w c H).
    apply last_Some in Hlast as (l' & ->). apply elem_of_app. right. left.
  - apply last_None in Hlast. subst w. done.
Qed.

Lemma space_join_last ws : forall w,
  Forall (fun w => capitalized w || all_caps w = true) (w :: ws) ->
  exists c, list.last (space_join (w :: ws)) = Some c
            /\ (is_AZ c = true \/ is_az c = true).
Proof.
  induction ws as [|next ws IH]; intros w Hall;
    inversion Hall as [|? ? Hw Hws]; subst.
  - by apply camel_word_last.
  - destruct (IH next Hws) as (c & Hlast & Hc). exists c. split; [|done].
    change (space_join (w :: next :: ws))
      with (w ++ py " " ++ space_join (next :: ws)).
    by rewrite !last_app, Hlast.
Qed.

Lemma format_text_camel_words ws :
  camel_words ws = true -> format_text (concat ws) = space_join ws.
Proof.
  intros Hws. destruct ws as [|w ws]; [done|].
  pose proof (camel_words_forall _ Hws) as Hall.
  assert (Forall (fun w => head_is is_AZ w = true) (w :: ws)) as Hheads.
  { eapply Forall_impl; [|exact Hall]. apply camel_word_head. }
  assert (Forall (fun w => head_is is_alnum w = true) (w :: ws)) as Halnum.
  { eapply Forall_impl; [|exact Hheads]. apply head_AZ_alnum. }
  destruct (camel_words_head w ws Hws) as (a & tail & -> & Ha).
  unfold format_text. cbn [concat app nonempty negb].
  change (a :: tail ++ concat ws) with (concat ((a :: tail) :: ws)).
  set (words := (a :: tail) :: ws) in *.
  assert (formatted_text (concat words) = words) as Hformatted.
  { unfold formatted_text, segments_of.
    rewrite split_char_absent.
    2:{ intros Hin. apply elem_of_concat_inv in Hin as (w & Hw & Hin).
        rewrite list.Forall_forall in Hall.
        destruct (camel_word_letters w _ (Hall w Hw) Hin) as [H|H];
          vm_compute in H; discriminate. }
    rewrite filter_cons_True by done. rewrite filter_nil.
    cbn [map concat]. rewrite app_nil_r. unfold segment_text.
    rewrite (tokenize_in_turn words (camel_words_matched words None Hws)).
    rewrite merge_pairs_no_digits.
    2:{ eapply Forall_impl; [|exact Hheads]. apply head_AZ_not_digits. }
    assert (head_is (case_is Lower) (concat words) = false) as ->.
    { cbn [words concat app head_is]. unfold case_is.
      by rewrite (char_info_AZ a Ha). }
    rewrite map_map. rewrite <- (map_id words) at 2.
    apply map_ext_in. intros w Hw. apply format_token_text_camel.
    rewrite Forall_forall in Hall. by apply Hall. }
  unfold joined_text. rewrite Hformatted. unfold words.
  rewrite (spacing_text_words _ _ Halnum), concat_spaced.
  apply strip_trimmed_same. unfold trimmed. apply andb_true_iff. split.
  - destruct ws; cbn [space_join app head_is];
      by rewrite (letter_not_space a (or_introl Ha)).
  - rewrite head_is_rev. destruct (space_join_last ws _ Hall) as (c & -> & Hc).
    by rewrite (letter_not_space c Hc).
Qed.

(** X12. [format_pascal_words] puts exactly one space between the words
    of such a text and changes nothing else: for capitalized words and
    runs of capitals [ws] (no run of capitals followed by another one)
    the result for [concat ws] is [" ".join(ws)]. *)
Theorem camel_words_are_spaced (ws : list (list N)) :
  camel_words ws = true ->
  format_pascal_words (concat ws) = Ok (space_join ws).
Proof.
  intros Hws. rewrite format_pascal_words_ok. f_equal.
  by apply format_text_camel_words.
Qed.

(** ** Underscores *)

Lemma split_char_cons sep s : exists piece rest, split_char sep s = piece :: rest.
Proof.
  destruct s as [|c s]; [by eexists _, _|]. cbn [split_char].
  destruct (c =? sep)%N; [by eexists _, _|].
  destruct (split_char sep s); by eexists _, _.
Qed.

Lemma split_char_app sep a b :
  split_char sep (a ++ sep :: b) = split_char sep a ++ split_char sep b.
Proof.
  induction a as [|c a IH]; cbn [app split_char].
  - by rewrite N.eqb_refl.
  - rewrite IH. destruct (c =? sep)%N; [done|].
    by destruct (split_char_cons sep a) as (piece & rest & ->).
Qed.

Lemma segments_of_app a b :
  segments_of (a ++ py "_" ++ b) = segments_of a ++ segments_of b.
Proof.
  unfold segments_of. change (py "_" ++ b) with (ch "_" :: b).
  by rewrite split_char_app, list.filter_app.
Qed.

Lemma segments_of_nil : segments_of [] = [].
Proof. done. Qed.

Lemma format_text_joined value : format_text value = strip (joined_text value).
Proof. unfold format_text. by destruct value. Qed.

Lemma format_text_segments v w :
  segments_of v = segments_of w -> format_text v = format_text w.
Proof.
  intros H. rewrite !format_text_joined. unfold joined_text, formatted_text.
  by rewrite H.
Qed.

(** X13. Underscores only separate: one in front of the text or behind
    it changes nothing, and two in a row count as one. *)
Theorem underscores_only_separate (a b s : list N) :
  format_pascal_words (py "_" ++ s) = format_pascal_words s
  /\ format_pascal_words (s ++ py "_") = format_pascal_words s
  /\ format_pascal_words (a ++ py "__" ++ b)
     = format_pascal_words (a ++ py "_" ++ b).
Proof.
  rewrite !format_pascal_words_ok.
  split; [|split]; f_equal; apply format_text_segments.
  - apply (segments_of_app [] s).
  - rewrite <- (app_nil_r (py "_")), segments_of_app, segments_of_nil.
    apply app_nil_r.
  - change (py "__" ++ b) with (py "_" ++ (py "_" ++ b)).
    by rewrite !segments_of_app.
Qed.

Lemma segments_of_join parts :
  Forall (fun part => ch "_" ∉ part) parts ->
  segments_of (underscore_join parts)
  = filter (fun part => nonempty part = true) parts.
Proof.
  induction 1 as [|part parts Hpart Hparts IH]; [done|].
  destruct parts as [|next parts].
  - cbn [underscore_join]. unfold segments_of.
    by rewrite (split_char_absent _ _ Hpart).
  - change (underscore_join (part :: next :: parts))
      with (part ++ py "_" ++ underscore_join (next :: parts)).
    rewrite segments_of_app, IH. unfold segments_of.
    rewrite (split_char_absent _ _ Hpart).
    by rewrite (filter_cons _ part (next :: parts)), (filter_cons _ part []),
      filter_nil; destruct (decide (nonempty part = true)).
Qed.

Lemma segment_text_camel ws :
  camel_words ws = true -> ws <> [] -> segment_text (concat ws) = ws.
Proof.
  intros Hws Hne. destruct ws as [|w ws]; [done|].
  pose proof (camel_words_forall _ Hws) as Hall.
  destruct (camel_words_head w ws Hws) as (a & tail & -> & Ha).
  unfold segment_text.
  rewrite (tokenize_in_turn _ (camel_words_matched _ None Hws)).
  rewrite merge_pairs_no_digits.
  2:{ eapply Forall_impl; [|exact Hall].
      intros t Ht. by apply head_AZ_not_digits, camel_word_head. }
  assert (head_is (case_is Lower) (concat ((a :: tail) :: ws)) = false) as ->.
  { cbn [concat app head_is]. unfold case_is. by rewrite (char_info_AZ a Ha). }
  rewrite map_map. rewrite <- (map_id ((a :: tail) :: ws)) at 2.
  apply map_ext_in. intros w Hw. apply format_token_text_camel.
  rewrite Forall_forall in Hall. by apply Hall.
Qed.

Lemma camel_words_no_underscore ws :
  camel_words ws = true -> ch "_" ∉ concat ws.
Proof.
  intros Hws Hin. pose proof (camel_words_forall _ Hws) as Hall.
  apply elem_of_concat_inv in Hin as (w & Hw & Hin).
  rewrite list.Forall_forall in Hall.
  destruct (camel_word_letters w _ (Hall w Hw) Hin) as [H|H];
    vm_compute in H; discriminate.
Qed.

Lemma formatted_camel_segments segs :
  Forall (fun ws => camel_words ws = true) segs ->
  concat (map segment_text
            (filter (fun part => nonempty part = true) (map (@concat N) segs)))
  = concat segs.
Proof.
  induction 1 as [|ws segs Hws Hsegs IH]; [done|]. cbn [map].
  rewrite filter_cons. destruct ws as [|w ws].
  - by destruct (decide _).
  - destruct (camel_words_head w ws Hws) as (a & tail & -> & Ha).
    destruct (decide _) as [_|Hn]; [|by exfalso; apply Hn].
    cbn [map]. rewrite (segment_text_camel _ Hws) by done.
    change (concat (((a :: tail) :: ws) :: segs))
      with (((a :: tail) :: ws) ++ concat segs).
    by rewrite <- IH.
Qed.

(** X14. An underscore between camel-case words is a word break like
    any other: when every part between the underscores is a text of
    capitalized words and runs of capitals as above (or is empty), the
    result is all the words, in order, with one space between them. *)
Theorem camel_segments_are_spaced (segs : list (list (list N))) :
  forallb camel_words segs = true ->
  format_pascal_words (underscore_join (map (@concat N) segs))
  = Ok (space_join (concat segs)).
Proof.
  intros Hsegs. rewrite format_pascal_words_ok, format_text_joined. f_equal.
  assert (Forall (fun ws => camel_words ws = true) segs) as Hall.
  { apply list.Forall_forall. intros ws Hws. rewrite forallb_forall in Hsegs.
    by apply Hsegs, list_elem_of_In. }
  unfold joined_text, formatted_text. rewrite segments_of_join.
  2:{ apply list.Forall_forall. intros part Hpart.
      apply list_elem_of_In, in_map_iff in Hpart as (ws & <- & Hws).
      apply camel_words_no_underscore. rewrite forallb_forall in Hsegs.
      by apply Hsegs. }
  rewrite (formatted_camel_segments _ Hall).
  assert (Forall (fun w => capitalized w || all_caps w = true) (concat segs))
    as Hwords.
  { apply list.Forall_forall. intros w Hw.
    apply elem_of_concat_inv in Hw as (ws & Hws & Hw).
    rewrite list.Forall_forall in Hall.
    pose proof (camel_words_forall _ (Hall ws Hws)) as H.
    rewrite list.Forall_forall in H. by apply H. }
  destruct (concat segs) as [|w ws]; [done|].
  assert (Forall (fun w => head_is is_AZ w = true) (w :: ws)) as Hheads.
  { eapply Forall_impl; [|exact Hwords]. apply camel_word_head. }
  assert (Forall (fun w => head_is is_alnum w = true) (w :: ws)) as Halnum.
  { eapply Forall_impl; [|exact Hheads]. apply head_AZ_alnum. }
  rewrite (spacing_text_words _ _ Halnum), concat_spaced.
  apply strip_trimmed_same. unfold trimmed. apply andb_true_iff. split.
  - inversion Hheads as [|? ? Hw _]; subst.
    destruct w as [|a tail]; [done|]. cbn [head_is] in Hw.
    destruct ws; cbn [space_join app head_is];
      by rewrite (letter_not_space a (or_introl Hw)).
  - rewrite head_is_rev.
    destruct (space_join_last ws _ Hwords) as (c & -> & Hc).
    by rewrite (letter_not_space c Hc).
Qed.

(** ** What formatting keeps *)

Lemma content_app a b : content (a ++ b) = content a ++ content b.
Proof. unfold content. by rewrite map_app, List.filter_app. Qed.

Lemma content_concat l : content (concat l) = concat (map content l).
Proof.
  induction l as [|x l IH]; [done|]. cbn [concat map].
  by rewrite content_app, IH.
Qed.

Lemma content_pad b : content (pad b) = [].
Proof. by destruct b. Qed.

Lemma is_space_ascii c :
  (c <? 128)%N = true -> is_space c = is_ascii_space c.
Proof.
  intros H. unfold is_space, class_is, char_info. rewrite H.
  unfold ascii_info.
  destruct (is_AZ c) eqn:HAZ; [|destruct (is_az c) eqn:Haz;
    [|destruct (is_09 c) eqn:H09; [|by destruct (is_ascii_space c)]]];
    cbn; symmetry; apply orb_false_iff;
    unfold is_AZ, is_az, is_09, is_ascii_space, in_range in *;
    match goal with
    | Hr : _ && _ = true |- _ =>
        apply andb_true_iff in Hr as [Hlo Hhi]; apply N.leb_le in Hlo, Hhi
    end;
    split; apply andb_false_iff;
    first [left; apply N.leb_gt; lia|right; apply N.leb_gt; lia].
Qed.

Lemma ascii_text_app a b : ascii_text (a ++ b) = ascii_text a && ascii_text b.
Proof. apply forallb_app. Qed.

Lemma content_spaces s :
  ascii_text s = true -> forallb is_space s = true -> content s = [].
Proof.
  induction s as [|c s IH]; [done|]. cbn [ascii_text forallb].
  intros Ha Hs. apply andb_true_iff in Ha as [Hc Ha].
  apply andb_true_iff in Hs as [Hsp Hs].
  change (c :: s) with ([c] ++ s). rewrite content_app, (IH Ha Hs), app_nil_r.
  rewrite (is_space_ascii c Hc) in Hsp. unfold content. cbn [map List.filter].
  assert (ascii_lower c = c) as ->.
  { unfold ascii_lower. destruct (is_AZ c) eqn:HAZ; [|done].
    unfold is_AZ, is_ascii_space, in_range in *.
    apply andb_true_iff in HAZ as [Hlo Hhi]. apply N.leb_le in Hlo, Hhi.
    apply orb_true_iff in Hsp as [Hsp|Hsp];
      apply andb_true_iff in Hsp as [_ Hsp]; apply N.leb_le in Hsp; lia. }
  by rewrite Hsp.
Qed.

Lemma lstrip_spaces s :
  exists before, s = before ++ lstrip s /\ forallb is_space before = true.
Proof.
  induction s as [|c s (before & Hs & Hb)]; [by exists []|]. cbn [lstrip].
  destruct (is_space c) eqn:Hc; [|by exists []].
  exists (c :: before). split; [by rewrite Hs at 1|].
  cbn [forallb]. by rewrite Hc, Hb.
Qed.

Lemma rstrip_spaces s :
  exists after, s = rstrip s ++ after /\ forallb is_space after = true.
Proof.
  destruct (lstrip_spaces (rev s)) as (before & Hs & Hb).
  exists (rev before). unfold rstrip. split.
  - rewrite <- rev_app_distr, <- Hs. by rewrite rev_involutive.
  - apply forallb_forall. intros c Hc. apply in_rev in Hc.
    rewrite forallb_forall in Hb. by apply Hb.
Qed.

Lemma content_strip s : ascii_text s = true -> content (strip s) = content s.
Proof.
  intros Hs. unfold strip.
  destruct (lstrip_spaces s) as (before & Hl & Hb).
  destruct (rstrip_spaces (lstrip s)) as (after & Hr & Ha).
  rewrite Hl in Hs. rewrite ascii_text_app in Hs.
  apply andb_true_iff in Hs as [Hs1 Hs2].
  rewrite Hr in Hs2. rewrite ascii_text_app in Hs2.
  apply andb_true_iff in Hs2 as [_ Hs2].
  rewrite Hl at 2. rewrite Hr at 2.
  rewrite !content_app, (content_spaces _ Hs1 Hb), (content_spaces _ Hs2 Ha).
  by rewrite app_nil_r.
Qed.

Lemma content_spacing tokens :
  content (concat (spacing_text tokens)) = content (concat tokens).
Proof.
  unfold spacing_text.
  assert (content (concat (filter (fun t => nonempty t = true) tokens))
          = content (concat tokens)) as <-.
  { f_equal. induction tokens as [|t tokens IH]; [done|].
    rewrite filter_cons. destruct (decide _) as [_|Hn]; cbn [concat].
    - by rewrite IH.
    - rewrite IH. by destruct t. }
  generalize (filter (fun t => nonempty t = true) tokens). intros toks.
  generalize (@None (list N)).
  induction toks as [|t toks IH]; intros prev; [done|].
  cbn [spacing_walk concat]. rewrite !content_app, IH. unfold spaced_text.
  by rewrite !content_app, !content_pad, app_nil_r.
Qed.

Lemma content_of_lower a b :
  map ascii_lower a = map ascii_lower b -> content a = content b.
Proof. unfold content. by intros ->. Qed.

Lemma ascii_text_concat l :
  ascii_text (concat l) = true -> Forall (fun t => ascii_text t = true) l.
Proof.
  induction l as [|t l IH]; [constructor|]. cbn [concat].
  rewrite ascii_text_app. intros H. apply andb_true_iff in H as [Ht Hl].
  constructor; [done|by apply IH].
Qed.

Lemma formatted_pairs_lower (merged : list (list N * bool)) :
  Forall (fun t => ascii_text t = true) (map fst merged) ->
  map ascii_lower
    (concat (map (fun '(token, is_merged) =>
                    if (is_merged : bool) then token
                    else format_token_text token) merged))
  = map ascii_lower (concat (map fst merged)).
Proof.
  induction merged as [|[t m] l IH]; [done|]. cbn [map concat fst].
  intros Hall. inversion Hall as [|? ? Ht Hl]; subst.
  rewrite !map_app, (IH Hl). f_equal.
  destruct m; [done|]. by apply format_token_text_lower.
Qed.

(** A segment and its formatted tokens spell the same text up to
    case. *)
Lemma segment_text_lower segment :
  ascii_text segment = true ->
  map ascii_lower (concat (segment_text segment)) = map ascii_lower segment.
Proof.
  intros Hseg.
  pose proof (merge_pairs_concat (tokenize_pascal_case segment)) as Hcat.
  rewrite tokenize_concat in Hcat. unfold segment_text.
  destruct (head_is (case_is Lower) segment); [by rewrite Hcat|].
  rewrite formatted_pairs_lower; [by rewrite Hcat|].
  apply ascii_text_concat. by rewrite Hcat.
Qed.

Lemma concat_split_char sep s :
  concat (split_char sep s) = List.filter (fun c => negb (c =? sep)%N) s.
Proof.
  induction s as [|c s IH]; [done|]. cbn [split_char List.filter].
  destruct (c =? sep)%N; cbn [negb]; [done|].
  destruct (split_char_cons sep s) as (piece & rest & Hsplit).
  rewrite Hsplit in *. cbn [concat app] in *. by rewrite IH.
Qed.

Lemma concat_segments_of value :
  concat (segments_of value)
  = List.filter (fun c => negb (c =? ch "_")%N) value.
Proof.
  unfold segments_of. rewrite <- concat_split_char.
  induction (split_char (ch "_") value) as [|t l IH]; [done|].
  rewrite filter_cons. destruct (decide _) as [_|Hn]; cbn [concat].
  - by rewrite IH.
  - rewrite IH. by destruct t.
Qed.

Lemma ascii_text_filter f s :
  ascii_text s = true -> ascii_text (List.filter f s) = true.
Proof.
  unfold ascii_text. rewrite !forallb_forall. intros H c Hc.
  apply filter_In in Hc as [Hc _]. by apply H.
Qed.

Lemma formatted_text_lower value :
  ascii_text value = true ->
  map ascii_lower (concat (formatted_text value))
  = map ascii_lower (List.filter (fun c => negb (c =? ch "_")%N) value).
Proof.
  intros Hvalue. rewrite <- concat_segments_of. unfold formatted_text.
  assert (Forall (fun t => ascii_text t = true) (segments_of value)) as Hsegs.
  { apply ascii_text_concat. rewrite concat_segments_of.
    by apply ascii_text_filter. }
  induction Hsegs as [|seg segs Hseg Hsegs IH]; [done|].
  cbn [map concat]. rewrite concat_app, !map_app, IH.
  by rewrite (segment_text_lower seg Hseg).
Qed.

Lemma ascii_text_lower s : ascii_text (map ascii_lower s) = ascii_text s.
Proof.
  unfold ascii_text. induction s as [|c s IH]; [done|].
  cbn [map forallb]. rewrite IH. f_equal. unfold ascii_lower.
  destruct (is_AZ c) eqn:H; [|done].
  rewrite (is_AZ_ascii c H). apply N.ltb_lt.
  unfold is_AZ, in_range in H. apply andb_true_iff in H as [_ H].
  apply N.leb_le in H. lia.
Qed.

Lemma content_without_underscores s :
  content (List.filter (fun c => negb (c =? ch "_")%N) s) = content s.
Proof.
  unfold content. induction s as [|c s IH]; [done|]. cbn [List.filter map].
  destruct (c =? ch "_")%N eqn:Hc; cbn [negb map List.filter]; rewrite IH.
  - apply N.eqb_eq in Hc. by subst c.
  - done.
Qed.

Lemma ascii_lower_underscore c : ascii_lower c = ch "_" -> c = ch "_".
Proof.
  unfold ascii_lower. destruct (is_AZ c) eqn:H; [|done].
  unfold is_AZ, in_range in H. apply andb_true_iff in H as [H1 H2].
  apply N.leb_le in H1, H2. change (ch "_") with 95%N. lia.
Qed.

Lemma spacing_walk_chars tokens x : forall prev,
  x ∈ concat (spacing_walk prev tokens) -> x ∈ concat tokens \/ x = ch " ".
Proof.
  induction tokens as [|t tokens IH]; intros prev; [by left|].
  cbn [spacing_walk concat]. unfold spaced_text. rewrite !elem_of_app.
  assert (forall b, x ∈ pad b -> x = ch " ") as Hpad.
  { intros [|] H; [|by apply elem_of_nil in H].
    by apply list_elem_of_singleton in H. }
  intros [[H|[H|H]]|H]; [right; by eapply Hpad|left; by left|
                         right; by eapply Hpad|].
  destruct (IH _ H) as [H'|H']; [left; by right|by right].
Qed.

Lemma concat_filter_nonempty (l : list (list N)) :
  concat (filter (fun t => nonempty t = true) l) = concat l.
Proof.
  induction l as [|t l IH]; [done|].
  rewrite filter_cons. destruct (decide _) as [_|Hn]; cbn [concat].
  - by rewrite IH.
  - rewrite IH. by destruct t.
Qed.

Lemma joined_text_chars value x :
  x ∈ joined_text value -> x ∈ concat (formatted_text value) \/ x = ch " ".
Proof.
  unfold joined_text, spacing_text. intros H.
  apply spacing_walk_chars in H. by rewrite concat_filter_nonempty in H.
Qed.

(** X15. On ASCII text [format_pascal_words] only changes case, white
    space and underscores: the other characters of the result are those
    of the input, in the same order, up to the case of letters. The
    result holds no underscore and is ASCII text again. *)
Theorem format_keeps_the_content (value : list N) :
  ascii_text value = true ->
  exists out,
    format_pascal_words value = Ok out
    /\ content out = content value
    /\ lacks (py "_") out = true
    /\ ascii_text out = true.
Proof.
  intros Hvalue. exists (format_text value).
  split; [apply format_pascal_words_ok|]. rewrite format_text_joined.
  pose proof (formatted_text_lower value Hvalue) as Hlower.
  assert (ascii_text (concat (formatted_text value)) = true) as Hformatted.
  { rewrite <- ascii_text_lower, Hlower, ascii_text_lower.
    by apply ascii_text_filter. }
  assert (ascii_text (joined_text value) = true) as Hjoined.
  { apply forallb_forall. intros x Hx. apply list_elem_of_In in Hx.
    apply joined_text_chars in Hx as [Hx| ->]; [|done].
    unfold ascii_text in Hformatted. rewrite forallb_forall in Hformatted.
    by apply Hformatted, list_elem_of_In. }
  destruct (strip_infix (joined_text value)) as (before & after & Hstrip).
  split; [|split].
  - rewrite (content_strip _ Hjoined). unfold joined_text.
    rewrite content_spacing, (content_of_lower _ _ Hlower).
    apply content_without_underscores.
  - apply lacks_intro. intros c Hc Hin.
    apply list_elem_of_singleton in Hc. subst c.
    assert (ch "_" ∈ joined_text value) as Hj.
    { rewrite Hstrip. rewrite !elem_of_app. right. by left. }
    apply joined_text_chars in Hj as [Hj|Hj]; [|discriminate].
    assert (ch "_" ∈ map ascii_lower (concat (formatted_text value))) as Hl.
    { apply list_elem_of_In, in_map_iff. exists (ch "_").
      split; [done|by apply list_elem_of_In]. }
    rewrite Hlower in Hl.
    apply list_elem_of_In, in_map_iff in Hl as (c & Hc & Hin').
    apply ascii_lower_underscore in Hc. subst c.
    apply filter_In in Hin' as [_ Hne]. done.
  - rewrite Hstrip, !ascii_text_app in Hjoined.
    apply andb_true_iff in Hjoined as [_ Hjoined].
    by apply andb_true_iff in Hjoined as [Hjoined _].
Qed.

(** ** Grouping font files by family *)

Lemma dict_get_setdefault families fam path : forall key,
  dict_get (setdefault_append families fam path) key
  = if str_eqb fam key
    then Some (default [] (dict_get families fam) ++ [path])
    else dict_get families key.
Proof.
  induction families as [|[k paths] rest IH]; intros key.
  - cbn [setdefault_append dict_get]. by destruct (str_eqb fam key).
  - cbn [setdefault_append dict_get]. unfold str_eqb in *.
    case_bool_decide as Hk.
    + subst k. cbn [dict_get]. unfold str_eqb.
      by case_bool_decide.
    + cbn [dict_get]. unfold str_eqb. rewrite IH.
      case_bool_decide as Hkey; [|done]. subst k.
      by rewrite bool_decide_eq_false_2 by congruence.
Qed.

Lemma dict_get_None families fam :
  dict_get families fam = None <-> fam ∉ map fst families.
Proof.
  induction families as [|[k paths] rest IH]; cbn [dict_get map fst].
  - split; [intros _; apply not_elem_of_nil|done].
  - unfold str_eqb. case_bool_decide as Hk.
    + subst k. split; [done|]. intros H. exfalso. apply H. left.
    + rewrite IH, not_elem_of_cons. split; [by intros H; split; [congruence|]|].
      by intros [_ H].
Qed.

Lemma setdefault_append_keys families fam path :
  map fst (setdefault_append families fam path)
  = match dict_get families fam with
    | Some _ => map fst families
    | None => map fst families ++ [fam]
    end.
Proof.
  induction families as [|[k paths] rest IH]; [done|].
  cbn [setdefault_append dict_get]. destruct (str_eqb k fam); [done|].
  cbn [map fst]. rewrite IH. by destruct (dict_get rest fam).
Qed.

Lemma setdefault_append_NoDup families fam path :
  NoDup (map fst families) ->
  NoDup (map fst (setdefault_append families fam path)).
Proof.
  intros Hnd. rewrite setdefault_append_keys.
  destruct (dict_get families fam) eqn:Hget; [done|].
  apply list.NoDup_app. split; [done|]. split; [|apply list.NoDup_singleton].
  intros x Hx Hin. apply list_elem_of_singleton in Hin. subst x.
  by apply dict_get_None in Hget.
Qed.

Lemma setdefault_append_paths families fam path :
  concat (map snd (setdefault_append families fam path))
  ≡ₚ path :: concat (map snd families).
Proof.
  induction families as [|[k paths] rest IH]; [done|].
  cbn [setdefault_append]. destruct (str_eqb k fam); cbn [map snd concat].
  - rewrite <- app_assoc. cbn [app].
    by rewrite <- Permutation_middle.
  - rewrite IH. by rewrite <- Permutation_middle.
Qed.

(** What the loop leaves under every key. *)
Lemma group_by_get key font_paths : forall families fam,
  dict_get (group_by key font_paths families) fam
  = match filter (fun path => key path = fam) font_paths with
    | [] => dict_get families fam
    | paths => Some (default [] (dict_get families fam) ++ paths)
    end.
Proof.
  induction font_paths as [|path rest IH]; intros families fam; [done|].
  cbn [group_by]. rewrite IH, dict_get_setdefault, filter_cons.
  unfold str_eqb. destruct (decide (key path = fam)) as [Heq|Hne].
  - rewrite bool_decide_eq_true_2 by done. subst fam.
    destruct (filter _ rest); simpl; [done|by rewrite <- app_assoc].
  - by rewrite bool_decide_eq_false_2 by done.
Qed.

Lemma group_by_NoDup key font_paths : forall families,
  NoDup (map fst families) ->
  NoDup (map fst (group_by key font_paths families)).
Proof.
  induction font_paths as [|path rest IH]; intros families Hnd; [done|].
  cbn [group_by]. by apply IH, setdefault_append_NoDup.
Qed.

Lemma group_by_paths key font_paths : forall families,
  concat (map snd (group_by key font_paths families))
  ≡ₚ concat (map snd families) ++ font_paths.
Proof.
  induction font_paths as [|path rest IH]; intros families.
  - by rewrite app_nil_r.
  - cbn [group_by]. rewrite IH, setdefault_append_paths.
    by rewrite <- Permutation_middle.
Qed.

Lemma family_key_ok path : family_key path = Ok (family_name path).
Proof.
  unfold family_key, family_name. rewrite parse_filename_ok. cbv zeta.
  by destruct (hyphen_parts _).
Qed.

Lemma family_name_nonempty path : family_name path <> [].
Proof.
  unfold family_name.
  destruct (format_text _) as [|c name]; [discriminate|done].
Qed.

Lemma group_fonts_loop_ok font_paths : forall families,
  group_fonts_loop font_paths families
  = Ok (group_by family_name font_paths families).
Proof.
  induction font_paths as [|path rest IH]; intros families; [done|].
  cbn [group_fonts_loop group_by]. rewrite family_key_ok. cbn [bind].
  apply IH.
Qed.

Lemma filter_by_key (key : list N -> result (list N)) name
    (font_paths : list (list N)) fam :
  (forall path, key path = Ok (name path)) ->
  filter (fun path => key path = Ok fam) font_paths
  = filter (fun path => name path = fam) font_paths.
Proof.
  intros Hkey. apply list_filter_iff. intros path. rewrite Hkey.
  split; [by intros [= ->]|by intros ->].
Qed.

(** X16. [group_fonts_by_family_filename] never raises and files every
    path under the family name the parser gives it ([Unknown] when that
    name is empty): the keys are distinct and never the empty string,
    the list under a key holds exactly the paths with that family name,
    in the order of the input, and no other key exists. Taken together
    the groups hold every path once. *)
Theorem fonts_are_grouped_by_family (font_paths : list (list N)) :
  exists families,
    group_fonts_by_family_filename font_paths = Ok families
    /\ NoDup (map fst families)
    /\ (forall fam,
          dict_get families fam
          = group_of (filter (fun path => family_key path = Ok fam)
                        font_paths))
    /\ dict_get families [] = None
    /\ concat (map snd families) ≡ₚ font_paths.
Proof.
  exists (group_by family_name font_paths []).
  split; [apply group_fonts_loop_ok|].
  split; [apply group_by_NoDup, base.NoDup_nil_2|].
  assert (forall fam,
            dict_get (group_by family_name font_paths []) fam
            = group_of (filter (fun path => family_name path = fam)
                          font_paths)) as Hget.
  { intros fam. rewrite group_by_get. by destruct (filter _ font_paths). }
  split; [|split; [|apply (group_by_paths family_name font_paths [])]].
  - intros fam. rewrite Hget.
    by rewrite (filter_by_key family_key family_name _ _ family_key_ok).
  - rewrite Hget. clear Hget.
    induction font_paths as [|path rest IH]; [done|].
    rewrite filter_cons_False by apply family_name_nonempty. apply IH.
Qed.

Lemma fallback_key_ok path : fallback_key path = Ok (fallback_name path).
Proof.
  unfold fallback_key, fallback_name, hyphen_parts, _split_at_hyphen.
  cbv zeta. destruct (contains (py "-") _) eqn:Hc; [|done]. cbn [negb].
  assert (ch "-" ∈ fst (splitext (basename path))) as Hin.
  { destruct (decide (ch "-" ∈ fst (splitext (basename path)))) as [|Hn];
      [done|].
    apply contains_single in Hn. change (py "-") with [ch "-"] in Hc.
    congruence. }
  by destruct (split_once_two _ _ Hin) as (a & b & ->).
Qed.

Lemma group_fallback_loop_ok font_paths : forall families,
  group_fallback_loop font_paths families
  = Ok (group_by fallback_name font_paths families).
Proof.
  induction font_paths as [|path rest IH]; intros families; [done|].
  cbn [group_fallback_loop group_by]. rewrite fallback_key_ok. cbn [bind].
  apply IH.
Qed.

(** X17. [_group_fonts_fallback] never raises either (the indexing
    [split("-", 1)[0]] always finds its element) and files every path
    under the text of its base name up to the first hyphen, extension
    dropped, which is the raw family part of [_split_at_hyphen]: the
    keys are distinct, the list under a key holds exactly the paths with
    that key, in the order of the input, and the groups hold every path
    once. *)
Theorem fonts_are_grouped_by_fallback (font_paths : list (list N)) :
  exists families,
    _group_fonts_fallback font_paths = Ok families
    /\ NoDup (map fst families)
    /\ (forall fam,
          dict_get families fam
          = group_of (filter (fun path => fallback_key path = Ok fam)
                        font_paths))
    /\ (forall path,
          fallback_key path
          = Ok (fst (hyphen_parts (fst (splitext (basename path))))))
    /\ concat (map snd families) ≡ₚ font_paths.
Proof.
  exists (group_by fallback_name font_paths []).
  split; [apply group_fallback_loop_ok|].
  split; [apply group_by_NoDup, base.NoDup_nil_2|].
  split; [|split; [apply fallback_key_ok|
                   apply (group_by_paths fallback_name font_paths [])]].
  intros fam. rewrite group_by_get.
  rewrite (filter_by_key fallback_key fallback_name _ _ fallback_key_ok).
  by destruct (filter _ font_paths).
Qed.

(** ** Texts with stretches the pattern does not match *)

Lemma finditer_from_unmatched gap : forall prev pos rest,
  unmatched prev gap rest ->
  finditer_from prev pos 0 (gap ++ rest)
  = finditer_from (match list.last gap with Some c => Some c | None => prev end)
      (pos + length gap) 0 rest.
Proof.
  induction gap as [|c gap IH]; intros prev pos rest.
  - intros _. cbn [app length list.last]. by rewrite Nat.add_0_r.
  - cbn [unmatched]. intros [Hnone Hgap].
    change ((c :: gap) ++ rest) with (c :: gap ++ rest).
    cbn [finditer_from]. rewrite Hnone, (IH _ _ _ Hgap), last_cons.
    cbn [length]. rewrite Nat.add_succ_r. by destruct (list.last gap).
Qed.

Lemma finditer_pieces pieces : forall prev pos,
  read_in_turn prev pieces ->
  finditer_from prev pos 0 (text_of pieces) = spans_of_pieces pos pieces.
Proof.
  induction pieces as [|[is_match w] pieces IH]; intros prev pos; [done|].
  cbn [read_in_turn spans_of_pieces]. intros (Hw & Hread & Hrest).
  change (text_of ((is_match, w) :: pieces)) with (w ++ text_of pieces).
  destruct is_match.
  - rewrite (finditer_from_match _ _ _ _ Hw Hread). f_equal. by apply IH.
  - destruct Hread as [Hgap _]. rewrite (finditer_from_unmatched _ _ _ _ Hgap).
    destruct (list.last w) eqn:Hlast; [by apply IH|].
    by apply last_None in Hlast.
Qed.

Lemma slice_app_middle (a b c : list N) :
  slice (a ++ b ++ c) (length a) (length a + length b) = b.
Proof.
  unfold slice. rewrite take_app_add, drop_app_length.
  apply take_app_length.
Qed.

(** The loop of [tokenize_pascal_case] and the step behind it, started
    in front of [pieces] with the stretch [pending] not yet written. *)
Lemma fold_tokenize_pieces pieces : forall prev before pending tokens,
  read_in_turn prev pieces ->
  (pending <> [] ->
   match pieces with (false, _) :: _ => False | _ => True end) ->
  let value := before ++ pending ++ text_of pieces in
  let '(tokens', last_end) :=
    fold_left (tokenize_step value)
      (spans_of_pieces (length before + length pending) pieces)
      (tokens, length before) in
  (if last_end <? length value then tokens' ++ [slice_from value last_end]
   else tokens')
  = tokens ++ (if nonempty pending then [pending] else []) ++ map snd pieces.
Proof.
  induction pieces as [|[is_match w] pieces IH];
    intros prev before pending tokens Hread Hpending; cbv zeta.
  - cbn [spans_of_pieces fold_left map text_of concat].
    rewrite !app_nil_r, length_app. unfold slice_from.
    rewrite drop_app_length. destruct pending as [|c pending].
    + cbn [length nonempty]. rewrite Nat.add_0_r, Nat.ltb_irrefl.
      by rewrite app_nil_r.
    + cbn [length nonempty].
      by rewrite (proj2 (Nat.ltb_lt _ _)) by lia.
  - destruct Hread as (Hw & Hmatch & Hrest).
    change (text_of ((is_match, w) :: pieces)) with (w ++ text_of pieces).
    cbn [spans_of_pieces map snd]. destruct is_match.
    + cbn [fold_left tokenize_step].
      assert ((if length before <? length before + length pending
               then tokens ++ [slice (before ++ pending ++ w ++ text_of pieces)
                                 (length before)
                                 (length before + length pending)]
               else tokens)
              = tokens ++ (if nonempty pending then [pending] else []))
        as ->.
      { rewrite slice_app_middle. destruct pending as [|c pending].
        - cbn [length nonempty]. rewrite Nat.add_0_r, Nat.ltb_irrefl.
          by rewrite app_nil_r.
        - cbn [length nonempty].
          by rewrite (proj2 (Nat.ltb_lt _ _)) by lia. }
      assert (slice (before ++ pending ++ w ++ text_of pieces)
                (length before + length pending)
                (length before + length pending + length w) = w) as ->.
      { rewrite (app_assoc before pending), <- length_app.
        apply slice_app_middle. }
      specialize (IH (list.last w) (before ++ pending ++ w) []
                    ((tokens ++ (if nonempty pending then [pending] else []))
                     ++ [w]) Hrest (fun H => False_ind _ (H eq_refl))).
      assert (length (before ++ pending ++ w)
              = length before + length pending + length w) as Hlen.
      { rewrite !length_app. lia. }
      cbv zeta in IH. cbn [length] in IH.
      rewrite Hlen, Nat.add_0_r in IH.
      rewrite <- !app_assoc in IH. cbn [app nonempty] in IH.
      rewrite <- (app_assoc tokens). exact IH.
    + destruct Hmatch as [_ Hnext].
      destruct pending as [|c pending]; [|by destruct Hpending].
      cbn [length app nonempty]. rewrite Nat.add_0_r.
      specialize (IH (list.last w) before w tokens Hrest (fun _ => Hnext)).
      cbv zeta in IH. destruct w as [|c w]; [done|]. exact IH.
Qed.

(** When the pattern reads a text piece by piece, the tokens are the
    pieces: the matches and the stretches between them. *)
Lemma tokenize_pieces pieces :
  read_in_turn None pieces ->
  tokenize_pascal_case (text_of pieces) = map snd pieces.
Proof.
  intros Hread. unfold tokenize_pascal_case, finditer.
  case_bool_decide as Hempty.
  - destruct pieces as [|[m w] pieces]; [done|]. destruct Hread as (Hw & _).
    change (text_of ((m, w) :: pieces)) with (w ++ text_of pieces) in Hempty.
    destruct w; [done|discriminate].
  - rewrite (finditer_pieces pieces None 0 Hread).
    pose proof (fold_tokenize_pieces pieces None [] [] [] Hread
                  (fun H => False_ind _ (H eq_refl))) as Hfold.
    cbv zeta in Hfold. cbn [app length Nat.add nonempty] in Hfold.
    by destruct (fold_left _ _ _).
Qed.

(** ** A mark between two words *)

Lemma word_stop_cases m :
  is_word_stop m = true -> m ∈ word_stop_chars.
Proof.
  unfold is_word_stop. intros H.
  apply existsb_exists in H as (x & Hx & Heq). apply N.eqb_eq in Heq.
  subst x. by apply list_elem_of_In.
Qed.

Lemma word_stop_inert m :
  is_word_stop m = true ->
  is_AZ m = false /\ is_az m = false /\ is_decimal m = false
  /\ is_alpha m = false /\ is_digit m = false /\ is_space m = false.
Proof.
  intros H. apply word_stop_cases in H.
  repeat (apply elem_of_cons in H as [->|H]; [by vm_compute|]).
  by apply elem_of_nil in H.
Qed.

Lemma token_match_one_character prev m rest :
  is_AZ m = false -> is_az m = false -> is_decimal m = false ->
  token_match prev (m :: rest)
  = if existsb (N.eqb m) special_chars then Some 1 else None.
Proof.
  intros HAZ Haz Hdec. unfold token_match.
  assert (acronym_before_camel (m :: rest) = None) as ->.
  { cbn [acronym_before_camel]. by rewrite HAZ. }
  assert (single_cap_number prev (m :: rest) = None) as ->.
  { unfold single_cap_number. rewrite HAZ. by destruct (prev_is is_AZ prev). }
  assert (decimal_number (m :: rest) = None) as ->.
  { unfold decimal_number. cbn [run]. by rewrite Hdec. }
  assert (capitalized_word (m :: rest) = None) as ->.
  { unfold capitalized_word. cbn [lazy_lowercase]. by rewrite HAZ, Haz. }
  assert (all_caps_sequence (m :: rest) = None) as ->.
  { unfold all_caps_sequence. cbn [run]. by rewrite HAZ. }
  assert (single_uppercase (m :: rest) = None) as ->.
  { unfold single_uppercase. cbn [head_is]. by rewrite HAZ. }
  assert (digits (m :: rest) = None) as ->.
  { unfold digits. cbn [run]. by rewrite Hdec. }
  cbn [or_else]. unfold special_char. cbn [head_is]. done.
Qed.

(** A run of capitals in front of a character that is neither a letter
    nor a digit. *)
Lemma token_match_all_caps_before prev w rest :
  all_caps w = true ->
  head_is is_AZ rest = false -> head_is is_az rest = false ->
  head_is is_decimal rest = false ->
  token_match prev (w ++ rest) = Some (length w).
Proof.
  unfold all_caps. intros Hw HAZ Haz Hdec.
  apply andb_true_iff in Hw as [Hne Hw].
  destruct w as [|c caps]; [done|].
  pose proof Hw as Hw'. cbn [forallb] in Hw'.
  apply andb_true_iff in Hw' as [Hc Hcaps].
  change ((c :: caps) ++ rest) with (c :: caps ++ rest).
  unfold token_match.
  assert (acronym_before_camel (c :: caps ++ rest) = None) as ->.
  { change (c :: caps ++ rest) with ((c :: caps) ++ rest).
    by apply acronym_before_camel_none. }
  assert (run is_decimal (caps ++ rest) = 0) as Hdigits.
  { destruct caps as [|d caps].
    - destruct rest as [|r rest]; [done|]. cbn [app run head_is] in *.
      by rewrite Hdec.
    - cbn [forallb] in Hcaps. apply andb_true_iff in Hcaps as [Hd _].
      cbn [app run]. by rewrite (is_AZ_not_decimal d Hd). }
  assert (lazy_lowercase (caps ++ rest) = None) as Hlows.
  { destruct caps as [|d caps].
    - destruct rest as [|r rest]; [done|]. cbn [app lazy_lowercase head_is] in *.
      by rewrite Haz.
    - cbn [forallb] in Hcaps. apply andb_true_iff in Hcaps as [Hd _].
      cbn [app lazy_lowercase]. by rewrite (is_AZ_not_az d Hd). }
  assert (single_cap_number prev (c :: caps ++ rest) = None) as ->.
  { unfold single_cap_number. destruct (prev_is is_AZ prev); [done|].
    by rewrite Hc, Hdigits. }
  assert (decimal_number (c :: caps ++ rest) = None) as ->.
  { unfold decimal_number. cbn [run]. by rewrite (is_AZ_not_decimal c Hc). }
  assert (capitalized_word (c :: caps ++ rest) = None) as ->.
  { unfold capitalized_word. rewrite Hc, Hlows. cbn [option_map lazy_lowercase].
    by rewrite (is_AZ_not_az c Hc). }
  cbn [or_else]. unfold all_caps_sequence, single_uppercase.
  change (c :: caps ++ rest) with ((c :: caps) ++ rest).
  rewrite (run_app _ _ _ Hw HAZ). cbn [app head_is]. rewrite Hc.
  by destruct caps.
Qed.

Lemma token_match_camel_before_mark prev w m rest :
  capitalized w || all_caps w = true -> is_word_stop m = true ->
  token_match prev (w ++ m :: rest) = Some (length w).
Proof.
  intros Hw Hm.
  destruct (word_stop_inert m Hm) as (HAZ & Haz & Hdec & _).
  apply orb_true_iff in Hw as [Hw|Hw].
  - apply token_match_capitalized; [done| |done].
    unfold ahead_word_end. cbn [head_is]. by rewrite Hm, !orb_true_r.
  - by apply token_match_all_caps_before.
Qed.

Lemma token_match_camel_end prev w :
  capitalized w || all_caps w = true ->
  token_match prev w = Some (length w).
Proof.
  intros Hw. apply orb_true_iff in Hw as [Hw|Hw].
  - rewrite <- (app_nil_r w) at 1. apply token_match_capitalized; [done| |done].
    unfold ahead_word_end. cbn [at_dollar]. by rewrite !orb_true_r.
  - by apply token_match_all_caps_end.
Qed.

Lemma tokenize_around_mark w1 m w2 :
  capitalized w1 || all_caps w1 = true ->
  capitalized w2 || all_caps w2 = true ->
  is_word_stop m = true ->
  tokenize_pascal_case (w1 ++ [m] ++ w2) = [w1; [m]; w2].
Proof.
  intros Hw1 Hw2 Hm.
  destruct (word_stop_inert m Hm) as (HAZ & Haz & Hdec & _).
  pose proof (tokenize_pieces
                [(true, w1); (existsb (N.eqb m) special_chars, [m]);
                 (true, w2)]) as Htok.
  cbn [text_of map snd concat] in Htok. rewrite app_nil_r in Htok.
  apply Htok. clear Htok.
  cbn [read_in_turn text_of map snd concat]. rewrite !app_nil_r.
  assert (w1 <> []) as Hne1 by (by destruct w1).
  assert (w2 <> []) as Hne2 by (by destruct w2).
  split; [done|]. split; [by apply token_match_camel_before_mark|].
  split; [done|]. split.
  { pose proof (token_match_one_character (list.last w1) m w2 HAZ Haz Hdec)
      as Hone.
    destruct (existsb (N.eqb m) special_chars); [done|].
    cbn [unmatched app]. done. }
  split; [done|]. split; [|done].
  by apply token_match_camel_end.
Qed.

Lemma spacing_text_three first second third :
  nonempty first = true -> nonempty second = true -> nonempty third = true ->
  spacing_text [first; second; third]
  = [first ++ pad (wants_space_after first second);
     pad (wants_space_before first second) ++ second
       ++ pad (wants_space_after second third);
     pad (wants_space_before second third) ++ third].
Proof.
  intros H1 H2 H3. unfold spacing_text.
  rewrite !filter_cons_True by done. rewrite filter_nil.
  cbn [spacing_walk head]. unfold spaced_text.
  cbn [space_before_text space_after_text]. rewrite H1, H2, H3.
  cbn [andb pad app]. by rewrite app_nil_r.
Qed.

Lemma camel_word_alpha w :
  capitalized w || all_caps w = true -> starts_alpha w = true.
Proof.
  intros Hw. pose proof (camel_word_head w Hw) as Hhead.
  destruct w as [|c w]; [done|]. cbn [head_is] in Hhead.
  unfold starts_alpha, is_alpha, class_is. cbn [head_is].
  by rewrite (char_info_AZ c Hhead).
Qed.

(** The spaces the engine writes around a mark that stands between two
    words. *)
Lemma spacing_around_mark w1 m w2 :
  capitalized w1 || all_caps w1 = true ->
  capitalized w2 || all_caps w2 = true ->
  is_word_stop m = true ->
  concat (spacing_text [w1; [m]; w2]) = w1 ++ between_words m ++ w2.
Proof.
  intros Hw1 Hw2 Hm.
  pose proof (head_AZ_alnum _ (camel_word_head w1 Hw1)) as Hhead1.
  pose proof (head_AZ_alnum _ (camel_word_head w2 Hw2)) as Hhead2.
  pose proof (camel_word_alpha w1 Hw1) as Halpha1.
  pose proof (camel_word_alpha w2 Hw2) as Halpha2.
  destruct marks_not_alnum as (Hno & Htrail & Hlead & _).
  rewrite spacing_text_three by (done || by apply head_alnum_nonempty).
  cbn [concat]. rewrite app_nil_r, <- !app_assoc. f_equal.
  unfold wants_space_after, wants_space_before, between_words.
  rewrite (head_alnum_not_among w1 _ Hhead1 Hno),
    (head_alnum_not_among w1 _ Hhead1 Htrail),
    (head_alnum_not_among w1 _ Hhead1 Hlead),
    (head_alnum_not_among w2 _ Hhead2 Hno),
    (head_alnum_not_among w2 _ Hhead2 Htrail),
    (head_alnum_not_among w2 _ Hhead2 Hlead).
  change (py "$") with [ch "$"]. change (py "%") with [ch "%"].
  rewrite !(head_alnum_not_mark w1), !(head_alnum_not_mark w2) by done.
  rewrite Halpha1, Halpha2, (starts_alpha_not_numeric w1 Halpha1),
    (starts_alpha_not_numeric w2 Halpha2).
  apply word_stop_cases in Hm.
  repeat (apply elem_of_cons in Hm as [->|Hm]; [reflexivity|]).
  by apply elem_of_nil in Hm.
Qed.

(** X18. A mark between two words is set as its class asks: [*], [@]
    and ['] attach on both sides, the closing marks and [!], [?], [,],
    [;] get a space behind them, the opening brackets one in front, and
    [&], [$], [%] and [-] one on either side. The words are capitalized
    words or runs of capitals; the mark is any character at which the
    pattern ends a word. *)
Theorem mark_between_words (w1 w2 : list N) (m : N) :
  capitalized w1 || all_caps w1 = true ->
  capitalized w2 || all_caps w2 = true ->
  is_word_stop m = true ->
  tokenize_pascal_case (w1 ++ [m] ++ w2) = [w1; [m]; w2]
  /\ format_pascal_words (w1 ++ [m] ++ w2)
     = Ok (w1 ++ between_words m ++ w2).
Proof.
  intros Hw1 Hw2 Hm. split; [by apply tokenize_around_mark|].
  rewrite format_pascal_words_ok, format_text_joined. f_equal.
  destruct (word_stop_inert m Hm) as (HAZ & Haz & Hdec & Halpha & Hdig & _).
  pose proof (camel_word_head w1 Hw1) as Hhead1.
  pose proof (camel_word_head w2 Hw2) as Hhead2.
  assert (formatted_text (w1 ++ [m] ++ w2) = [w1; [m]; w2]) as Hformatted.
  { unfold formatted_text, segments_of.
    rewrite split_char_absent.
    2:{ rewrite !elem_of_app. intros [Hin|[Hin|Hin]].
        - destruct (camel_word_letters w1 _ Hw1 Hin) as [H|H];
            vm_compute in H; discriminate.
        - apply list_elem_of_singleton in Hin. subst m. vm_compute in Hm.
          discriminate.
        - destruct (camel_word_letters w2 _ Hw2 Hin) as [H|H];
            vm_compute in H; discriminate. }
    rewrite filter_cons_True by (by destruct w1). rewrite filter_nil.
    cbn [map concat]. rewrite app_nil_r. unfold segment_text.
    rewrite (tokenize_around_mark w1 m w2 Hw1 Hw2 Hm).
    rewrite merge_pairs_no_digits.
    2:{ repeat constructor; [by apply head_AZ_not_digits| |
                             by apply head_AZ_not_digits].
        unfold isdigit. cbn [forallb]. by rewrite Hdig, andb_false_r. }
    assert (head_is (case_is Lower) (w1 ++ [m] ++ w2) = false) as ->.
    { destruct w1 as [|a tail]; [done|]. cbn [head_is app] in *.
      unfold case_is. by rewrite (char_info_AZ a Hhead1). }
    cbn [map]. rewrite (format_token_text_camel w1 Hw1),
      (format_token_text_camel w2 Hw2).
    destruct (format_token_text_cases [m]) as [-> | ->]; [done|].
    unfold title_case, upper, upper_char, lower. cbn [map concat imap app].
    assert ((m <? 128)%N = true) as ->.
    { apply word_stop_cases in Hm.
      repeat (apply elem_of_cons in Hm as [->|Hm]; [reflexivity|]).
      by apply elem_of_nil in Hm. }
    unfold ascii_upper. by rewrite Haz. }
  unfold joined_text. rewrite Hformatted, spacing_around_mark by done.
  apply strip_trimmed_same. unfold trimmed. apply andb_true_iff. split.
  - destruct w1 as [|a tail]; [done|]. cbn [head_is app] in *.
    by rewrite (letter_not_space a (or_introl Hhead1)).
  - rewrite head_is_rev, !last_app.
    destruct (camel_word_last w2 Hw2) as (c & -> & Hc).
    by rewrite (letter_not_space c Hc).
Qed.

(** ** Formatting a formatted name again *)

Lemma is_az_not_special c :
  is_az c = true -> existsb (N.eqb c) special_chars = false.
Proof.
  intros H. destruct (existsb (N.eqb c) special_chars) eqn:E; [|done].
  apply existsb_exists in E as (x & Hx & Heq). apply N.eqb_eq in Heq.
  subst x. vm_compute in Hx.
  repeat (destruct Hx as [<-|Hx]; [discriminate|]). done.
Qed.

Lemma token_match_lowercase_stuck prev c rest :
  is_az c = true -> lazy_lowercase (c :: rest) = None ->
  token_match prev (c :: rest) = None.
Proof.
  intros Hc Hlazy. unfold token_match.
  assert (acronym_before_camel (c :: rest) = None) as ->.
  { cbn [acronym_before_camel]. by rewrite (is_az_not_AZ c Hc). }
  assert (single_cap_number prev (c :: rest) = None) as ->.
  { unfold single_cap_number. rewrite (is_az_not_AZ c Hc).
    by destruct (prev_is is_AZ prev). }
  assert (decimal_number (c :: rest) = None) as ->.
  { unfold decimal_number. cbn [run]. by rewrite (is_az_not_decimal c Hc). }
  assert (capitalized_word (c :: rest) = None) as ->.
  { unfold capitalized_word. by rewrite (is_az_not_AZ c Hc), Hlazy. }
  assert (all_caps_sequence (c :: rest) = None) as ->.
  { unfold all_caps_sequence. cbn [run]. by rewrite (is_az_not_AZ c Hc). }
  assert (single_uppercase (c :: rest) = None) as ->.
  { unfold single_uppercase. cbn [head_is]. by rewrite (is_az_not_AZ c Hc). }
  assert (digits (c :: rest) = None) as ->.
  { unfold digits. cbn [run]. by rewrite (is_az_not_decimal c Hc). }
  cbn [or_else]. unfold special_char. cbn [head_is].
  by rewrite (is_az_not_special c Hc).
Qed.

(** Lowercase letters that no end of a word follows hold no match. *)
Lemma unmatched_lowercase lows : forall prev rest,
  forallb is_az lows = true -> head_is is_az rest = false ->
  (forall c, list.last lows = Some c -> ahead_word_end (Some c) rest = false) ->
  unmatched prev lows rest.
Proof.
  induction lows as [|c lows IH]; intros prev rest Hlows Hrest Hahead; [done|].
  cbn [forallb] in Hlows. apply andb_true_iff in Hlows as [Hc Hlows].
  cbn [unmatched]. split.
  - apply token_match_lowercase_stuck; [done|].
    change (c :: lows ++ rest) with ((c :: lows) ++ rest).
    rewrite lazy_lowercase_run; [|by cbn [forallb]; rewrite Hc|done|done].
    destruct (list.last (c :: lows)) as [d|] eqn:Hlast;
      [|by apply last_None in Hlast].
    by rewrite (Hahead d eq_refl).
  - apply IH; [done|done|]. intros d Hd. apply Hahead.
    by rewrite last_cons, Hd.
Qed.

Lemma unmatched_app gap : forall prev more rest,
  unmatched prev gap (more ++ rest) ->
  unmatched (match list.last gap with Some c => Some c | None => prev end)
    more rest ->
  unmatched prev (gap ++ more) rest.
Proof.
  induction gap as [|c gap IH]; intros prev more rest Hgap Hmore; [done|].
  cbn [unmatched] in Hgap. destruct Hgap as [Hc Hgap].
  change ((c :: gap) ++ more) with (c :: gap ++ more). cbn [unmatched].
  rewrite <- app_assoc. split; [done|]. apply IH; [done|].
  rewrite last_cons in Hmore. by destruct (list.last gap).
Qed.

Lemma ahead_word_end_space prev rest :
  rest <> [] -> ahead_word_end prev (ch " " :: rest) = false.
Proof.
  intros Hrest. unfold ahead_word_end.
  destruct rest as [|r rest]; [done|]. cbn [head_is at_dollar].
  change (ch " ") with 32%N.
  assert (is_AZ 32 = false) as -> by done.
  assert (is_decimal 32 = false) as -> by done.
  assert (is_word_stop 32 = false) as -> by done.
  by rewrite andb_false_r.
Qed.

Lemma token_match_capital_alone prev c lows rest :
  capitalized (c :: lows) = true -> rest <> [] ->
  token_match prev (c :: lows ++ ch " " :: rest) = Some 1.
Proof.
  cbn [capitalized]. intros Hw Hrest.
  apply andb_true_iff in Hw as [Hw Hlows]. apply andb_true_iff in Hw as [Hc Hne].
  destruct lows as [|d lows]; [done|].
  pose proof Hlows as Hlows'. cbn [forallb] in Hlows'.
  apply andb_true_iff in Hlows' as [Hd _].
  change (c :: (d :: lows) ++ ch " " :: rest)
    with (c :: d :: lows ++ ch " " :: rest).
  unfold token_match.
  assert (acronym_before_camel (c :: d :: lows ++ ch " " :: rest) = None) as ->.
  { cbn [acronym_before_camel]. rewrite Hc, (is_az_not_AZ d Hd).
    unfold ahead_camel. destruct (lows ++ ch " " :: rest); [done|].
    by rewrite (is_az_not_AZ d Hd). }
  assert (single_cap_number prev (c :: d :: lows ++ ch " " :: rest) = None)
    as ->.
  { unfold single_cap_number. destruct (prev_is is_AZ prev); [done|].
    rewrite Hc. cbn [run]. by rewrite (is_az_not_decimal d Hd). }
  assert (decimal_number (c :: d :: lows ++ ch " " :: rest) = None) as ->.
  { unfold decimal_number. cbn [run]. by rewrite (is_AZ_not_decimal c Hc). }
  assert (capitalized_word (c :: d :: lows ++ ch " " :: rest) = None) as ->.
  { unfold capitalized_word. rewrite Hc.
    change (d :: lows ++ ch " " :: rest) with ((d :: lows) ++ ch " " :: rest).
    rewrite (lazy_lowercase_run (d :: lows) _ Hlows) by done.
    rewrite (ahead_word_end_space _ rest Hrest). cbn [option_map lazy_lowercase].
    by rewrite (is_AZ_not_az c Hc). }
  assert (all_caps_sequence (c :: d :: lows ++ ch " " :: rest) = None) as ->.
  { unfold all_caps_sequence. cbn [run]. by rewrite Hc, (is_az_not_AZ d Hd). }
  cbn [or_else]. unfold single_uppercase. cbn [head_is]. by rewrite Hc.
Qed.

Lemma tokenize_spaced_words c lows w2 :
  capitalized (c :: lows) = true ->
  capitalized w2 || all_caps w2 = true ->
  tokenize_pascal_case ((c :: lows) ++ py " " ++ w2)
  = [[c]; lows ++ py " "; w2].
Proof.
  intros Hw1 Hw2.
  assert (w2 <> []) as Hne2 by (by destruct w2).
  pose proof Hw1 as Hw1'. cbn [capitalized] in Hw1'.
  apply andb_true_iff in Hw1' as [Hw1' Hlows].
  apply andb_true_iff in Hw1' as [Hc Hne].
  pose proof (tokenize_pieces
                [(true, [c]); (false, lows ++ py " "); (true, w2)]) as Htok.
  cbn [text_of map snd concat] in Htok.
  rewrite app_nil_r, <- app_assoc in Htok. apply Htok. clear Htok.
  cbn [read_in_turn text_of map snd concat]. rewrite !app_nil_r.
  split; [done|]. split.
  { rewrite <- app_assoc. by apply token_match_capital_alone. }
  split; [by destruct lows|]. split.
  { split; [|done]. apply unmatched_app.
    - apply unmatched_lowercase; [done|done|].
      intros d _. by apply ahead_word_end_space.
    - cbn [unmatched app]. split; [|done].
      by rewrite token_match_one_character. }
  split; [done|]. split; [|done]. by apply token_match_camel_end.
Qed.

Lemma lowercase_then_space_islower lows :
  forallb is_az lows = true -> nonempty lows = true ->
  islower (lows ++ py " ") = true.
Proof.
  intros Hlows Hne. unfold islower. apply andb_true_iff. split.
  - rewrite forallb_app. apply andb_true_iff. split; [|done].
    apply forallb_forall. intros c Hc. rewrite forallb_forall in Hlows.
    unfold case_is. by rewrite (char_info_az c (Hlows c Hc)).
  - destruct lows as [|c lows]; [done|]. cbn [forallb app existsb] in *.
    apply andb_true_iff in Hlows as [Hc _]. unfold case_is.
    by rewrite (char_info_az c Hc).
Qed.

Lemma head_az_not_digits w : head_is is_az w = true -> isdigit w = false.
Proof.
  destruct w as [|c w]; [done|]. cbn [head_is]. intros Hc.
  unfold isdigit. cbn [forallb]. unfold is_digit, class_is.
  rewrite (char_info_az c Hc). cbn. by rewrite ?andb_false_r.
Qed.

Lemma format_text_spaced_words c lows w2 :
  capitalized (c :: lows) = true ->
  capitalized w2 || all_caps w2 = true ->
  format_text ((c :: lows) ++ py " " ++ w2)
  = [c] ++ py " " ++ lows ++ py "  " ++ w2.
Proof.
  intros Hw1 Hw2. rewrite format_text_joined.
  pose proof Hw1 as Hw1'. cbn [capitalized] in Hw1'.
  apply andb_true_iff in Hw1' as [Hw1' Hlows].
  apply andb_true_iff in Hw1' as [Hc Hne].
  pose proof (camel_word_head w2 Hw2) as Hhead2.
  assert (head_is is_az (lows ++ py " ") = true) as Hheadl.
  { destruct lows as [|d lows]; [done|]. cbn [forallb] in Hlows.
    by apply andb_true_iff in Hlows as [Hd _]. }
  assert (formatted_text ((c :: lows) ++ py " " ++ w2)
          = [[c]; lows ++ py " "; w2]) as Hformatted.
  { unfold formatted_text, segments_of.
    rewrite split_char_absent.
    2:{ rewrite !elem_of_app. intros [Hin|[Hin|Hin]].
        - destruct (camel_word_letters _ _ (orb_true_intro _ _ (or_introl Hw1))
                      Hin) as [H|H]; vm_compute in H; discriminate.
        - apply list_elem_of_singleton in Hin. discriminate.
        - destruct (camel_word_letters w2 _ Hw2 Hin) as [H|H];
            vm_compute in H; discriminate. }
    rewrite filter_cons_True by done. rewrite filter_nil.
    cbn [map concat]. rewrite app_nil_r. unfold segment_text.
    rewrite (tokenize_spaced_words c lows w2 Hw1 Hw2).
    rewrite merge_pairs_no_digits.
    2:{ repeat constructor; [apply head_AZ_not_digits; by cbn [head_is]|
                             by apply head_az_not_digits|
                             by apply head_AZ_not_digits]. }
    assert (head_is (case_is Lower) ((c :: lows) ++ py " " ++ w2) = false)
      as ->.
    { cbn [head_is app]. unfold case_is. by rewrite (char_info_AZ c Hc). }
    cbn [map]. rewrite (format_token_text_camel w2 Hw2).
    rewrite (format_token_text_camel [c]).
    2:{ apply orb_true_iff. right. unfold all_caps. cbn [nonempty forallb].
        by rewrite Hc. }
    assert (format_token_text (lows ++ py " ") = lows ++ py " ") as ->; [|done].
    unfold format_token_text.
    destruct (negb (nonempty (lows ++ py " "))); [done|].
    destruct (str_in (lows ++ py " ") format_specials); [done|].
    destruct (isupper (lows ++ py " ")); [done|].
    by rewrite (lowercase_then_space_islower lows Hlows Hne). }
  unfold joined_text. rewrite Hformatted.
  rewrite spacing_text_words.
  2:{ repeat constructor.
      - cbn [head_is]. unfold is_alnum. by rewrite Hc.
      - destruct lows as [|d lows]; [done|]. cbn [head_is app] in *.
        unfold is_alnum. by rewrite Hheadl, orb_true_r.
      - by apply head_AZ_alnum. }
  cbn [map concat]. rewrite app_nil_r, <- !app_assoc.
  change (py " " ++ py " " ++ w2) with (py "  " ++ w2).
  apply strip_trimmed_same. unfold trimmed. apply andb_true_iff. split.
  - cbn [head_is app]. by rewrite (letter_not_space c (or_introl Hc)).
  - rewrite head_is_rev, !last_app.
    destruct (camel_word_last w2 Hw2) as (d & -> & Hd).
    by rewrite (letter_not_space d Hd).
Qed.

(** X19. Formatting is not meant for names that are formatted already:
    for a capitalized word and a second word, the spaced text the first
    pass returns comes back from a second pass with the capital of the
    first word cut off and two spaces in front of the second word. The
    demo does pass the family of [parse_filename] to
    [format_pascal_words] again, so this is what it shows for a file
    name of two words. *)
Theorem formatting_again_breaks_words (c : N) (lows w2 : list N) :
  capitalized (c :: lows) = true ->
  capitalized w2 || all_caps w2 = true ->
  format_pascal_words ((c :: lows) ++ w2) = Ok ((c :: lows) ++ py " " ++ w2)
  /\ format_pascal_words ((c :: lows) ++ py " " ++ w2)
     = Ok ([c] ++ py " " ++ lows ++ py "  " ++ w2)
  /\ demo_names ((c :: lows) ++ w2)
     = Ok ([c] ++ py " " ++ lows ++ py "  " ++ w2, []).
Proof.
  intros Hw1 Hw2.
  assert (format_text ((c :: lows) ++ w2) = (c :: lows) ++ py " " ++ w2)
    as Hfirst.
  { pose proof (format_text_camel_words [c :: lows; w2]) as H.
    cbn [concat space_join] in H. rewrite app_nil_r in H. apply H.
    cbn [camel_words]. rewrite Hw1. cbn [orb andb].
    apply orb_true_iff in Hw2 as [-> | ->]; [done|].
    by rewrite orb_true_r. }
  pose proof (format_text_spaced_words c lows w2 Hw1 Hw2) as Hsecond.
  rewrite !format_pascal_words_ok.
  split; [by rewrite Hfirst|]. split; [by rewrite Hsecond|].
  unfold demo_names. rewrite parse_filename_ok. cbv zeta.
  assert (lacks (py "/:\.-") ((c :: lows) ++ w2) = true) as Hplain.
  { apply lacks_intro. intros x Hx Hin.
    assert (is_AZ x = true \/ is_az x = true) as Hletter.
    { apply elem_of_app in Hin as [Hin|Hin].
      - by apply (camel_word_letters _ _ (orb_true_intro _ _ (or_introl Hw1))).
      - by apply (camel_word_letters w2). }
    apply list_elem_of_In in Hx. vm_compute in Hx.
    repeat (destruct Hx as [<-|Hx];
            [destruct Hletter as [H|H]; vm_compute in H; discriminate|]).
    done. }
  rewrite _normalize_basename_plain.
  2:{ eapply lacks_weaken; [|exact Hplain]. intros x Hx. literal_subset Hx. }
  rewrite hyphen_parts_absent.
  2:{ change (py "-") with [ch "-"]. apply contains_single.
      apply (lacks_spec _ _ _ Hplain). literal_elem. }
  cbn [bind family subfamily nonempty]. rewrite Hfirst.
  rewrite format_pascal_words_ok. cbn [bind]. by rewrite Hsecond.
Qed.

(** ** Numbers *)

Lemma is_09_ascii c : is_09 c = true -> (c <? 128)%N = true.
Proof.
  unfold is_09, in_range. intros H. apply andb_true_iff in H as [_ H].
  apply N.leb_le in H. apply N.ltb_lt. lia.
Qed.

Lemma is_09_not_letter c : is_09 c = true -> is_AZ c = false /\ is_az c = false.
Proof.
  unfold is_09, is_AZ, is_az, in_range. intros H.
  apply andb_true_iff in H as [H1 H2]. apply N.leb_le in H1, H2.
  split; apply andb_false_iff; left; apply N.leb_gt; lia.
Qed.

Lemma char_info_09 c :
  is_09 c = true -> char_info c = {| u_class := Decimal; u_case := Uncased |}.
Proof.
  intros H. destruct (is_09_not_letter c H) as [HAZ Haz].
  unfold char_info, ascii_info. by rewrite (is_09_ascii c H), HAZ, Haz, H.
Qed.

Lemma is_09_decimal c : is_09 c = true -> is_decimal c = true.
Proof. intros H. unfold is_decimal, class_is. by rewrite (char_info_09 c H). Qed.

Lemma digits_head ds :
  nonempty ds = true -> forallb is_09 ds = true ->
  exists d rest, ds = d :: rest /\ is_09 d = true.
Proof.
  destruct ds as [|d rest]; [done|]. cbn [forallb]. intros _ H.
  apply andb_true_iff in H as [Hd _]. by exists d, rest.
Qed.

Lemma digits_isdigit ds :
  nonempty ds = true -> forallb is_09 ds = true -> isdigit ds = true.
Proof.
  intros Hne Hds. unfold isdigit. apply andb_true_iff. split.
  - destruct ds; [done|]. by rewrite bool_decide_eq_false_2.
  - apply forallb_forall. intros c Hc. rewrite forallb_forall in Hds.
    unfold is_digit, class_is. by rewrite (char_info_09 c (Hds c Hc)).
Qed.

Lemma digits_decimal ds :
  forallb is_09 ds = true -> forallb is_decimal ds = true.
Proof.
  intros Hds. apply forallb_forall. intros c Hc.
  rewrite forallb_forall in Hds. by apply is_09_decimal, Hds.
Qed.

(** [\d+] on digits that neither a digit nor a dot follows. *)
Lemma token_match_digits prev ds rest :
  nonempty ds = true -> forallb is_09 ds = true ->
  head_is is_decimal rest = false ->
  head_is (fun c => (c =? 46)%N) rest = false ->
  token_match prev (ds ++ rest) = Some (length ds).
Proof.
  intros Hne Hds Hrest Hdot.
  destruct (digits_head ds Hne Hds) as (d & tail & -> & Hd).
  destruct (is_09_not_letter d Hd) as [HAZ Haz].
  pose proof (run_app is_decimal (d :: tail) rest (digits_decimal _ Hds) Hrest)
    as Hrun.
  change ((d :: tail) ++ rest) with (d :: tail ++ rest) in *.
  unfold token_match.
  assert (acronym_before_camel (d :: tail ++ rest) = None) as ->.
  { cbn [acronym_before_camel]. by rewrite HAZ. }
  assert (single_cap_number prev (d :: tail ++ rest) = None) as ->.
  { unfold single_cap_number. rewrite HAZ. by destruct (prev_is is_AZ prev). }
  assert (decimal_number (d :: tail ++ rest) = None) as ->.
  { unfold decimal_number. rewrite Hrun. cbn [length].
    change (drop (S (length tail)) (d :: tail ++ rest))
      with (drop (length tail) (tail ++ rest)).
    rewrite drop_app_length. cbn [dot_groups].
    destruct rest as [|r rest]; [done|]. cbn [head_is] in Hdot.
    by rewrite Hdot. }
  assert (capitalized_word (d :: tail ++ rest) = None) as ->.
  { unfold capitalized_word. cbn [lazy_lowercase]. by rewrite HAZ, Haz. }
  assert (all_caps_sequence (d :: tail ++ rest) = None) as ->.
  { unfold all_caps_sequence. cbn [run]. by rewrite HAZ. }
  assert (single_uppercase (d :: tail ++ rest) = None) as ->.
  { unfold single_uppercase. cbn [head_is]. by rewrite HAZ. }
  cbn [or_else]. unfold digits. by rewrite Hrun.
Qed.

(** [[a-z]+?(?=...)] and the pattern on a lowercase word. *)
Lemma token_match_lowercase prev lows rest :
  nonempty lows = true -> forallb is_az lows = true ->
  head_is is_az rest = false ->
  ahead_word_end (list.last lows) rest = true ->
  token_match prev (lows ++ rest) = Some (length lows).
Proof.
  intros Hne Hlows Hrest Hahead.
  assert (lazy_lowercase (lows ++ rest) = Some (length lows)) as Hlazy.
  { rewrite lazy_lowercase_run; [by rewrite Hahead|done|by destruct lows|done]. }
  destruct lows as [|c lows]; [done|]. cbn [forallb] in Hlows.
  apply andb_true_iff in Hlows as [Hc _].
  change ((c :: lows) ++ rest) with (c :: lows ++ rest) in *.
  unfold token_match.
  assert (acronym_before_camel (c :: lows ++ rest) = None) as ->.
  { cbn [acronym_before_camel]. by rewrite (is_az_not_AZ c Hc). }
  assert (single_cap_number prev (c :: lows ++ rest) = None) as ->.
  { unfold single_cap_number. rewrite (is_az_not_AZ c Hc).
    by destruct (prev_is is_AZ prev). }
  assert (decimal_number (c :: lows ++ rest) = None) as ->.
  { unfold decimal_number. cbn [run]. by rewrite (is_az_not_decimal c Hc). }
  cbn [or_else]. unfold capitalized_word.
  by rewrite (is_az_not_AZ c Hc), Hlazy.
Qed.

Lemma lowercase_islower lows :
  nonempty lows = true -> forallb is_az lows = true -> islower lows = true.
Proof.
  intros Hne Hlows. unfold islower. apply andb_true_iff. split.
  - apply forallb_forall. intros c Hc. rewrite forallb_forall in Hlows.
    unfold case_is. by rewrite (char_info_az c (Hlows c Hc)).
  - destruct lows as [|c lows]; [done|]. cbn [forallb existsb] in *.
    apply andb_true_iff in Hlows as [Hc _]. unfold case_is.
    by rewrite (char_info_az c Hc).
Qed.

Lemma format_token_text_digits ds :
  forallb is_09 ds = true -> format_token_text ds = ds.
Proof.
  intros Hds. destruct (format_token_text_cases ds) as [Heq|Heq]; [done|].
  rewrite Heq. destruct ds as [|d tail]; [done|].
  assert (forall c, c ∈ d :: tail -> is_09 c = true) as Hall.
  { intros c Hc. rewrite forallb_forall in Hds.
    by apply Hds, list_elem_of_In. }
  rewrite title_case_ascii.
  - unfold ascii_upper.
    rewrite (proj2 (is_09_not_letter d (Hall d ltac:(left)))). f_equal.
    rewrite <- (map_id tail) at 2. apply map_ext_in. intros c Hc.
    unfold ascii_lower.
    by rewrite (proj1 (is_09_not_letter c
                         (Hall c ltac:(right; by apply list_elem_of_In)))).
  - apply forallb_forall. intros c Hc.
    by apply is_09_ascii, Hall, list_elem_of_In.
Qed.

Lemma digits_last ds :
  nonempty ds = true -> forallb is_09 ds = true ->
  exists c, list.last ds = Some c /\ is_09 c = true.
Proof.
  intros Hne Hds. destruct (list.last ds) as [c|] eqn:Hlast.
  - exists c. split; [done|]. rewrite forallb_forall in Hds.
    apply Hds, list_elem_of_In. apply last_Some in Hlast as (l' & ->).
    apply elem_of_app. right. left.
  - apply last_None in Hlast. by subst ds.
Qed.

Lemma lowercase_last lows :
  nonempty lows = true -> forallb is_az lows = true ->
  exists c, list.last lows = Some c /\ is_az c = true.
Proof.
  intros Hne Hlows. destruct (list.last lows) as [c|] eqn:Hlast.
  - exists c. split; [done|]. rewrite forallb_forall in Hlows.
    apply Hlows, list_elem_of_In. apply last_Some in Hlast as (l' & ->).
    apply elem_of_app. right. left.
  - apply last_None in Hlast. by subst lows.
Qed.

Lemma digit_not_space c : is_09 c = true -> is_space c = false.
Proof. intros H. unfold is_space, class_is. by rewrite (char_info_09 c H). Qed.

Lemma no_underscore_in (s : list N) :
  (forall c, c ∈ s -> is_AZ c = true \/ is_az c = true \/ is_09 c = true) ->
  ch "_" ∉ s.
Proof.
  intros H Hin. destruct (H _ Hin) as [Hc|[Hc|Hc]]; vm_compute in Hc;
    discriminate.
Qed.

Lemma segments_of_plain s :
  nonempty s = true -> ch "_" ∉ s -> segments_of s = [s].
Proof.
  intros Hne Hs. unfold segments_of. rewrite (split_char_absent _ _ Hs).
  by rewrite filter_cons_True, filter_nil.
Qed.

Lemma tokenize_number_and_unit ds unit :
  nonempty ds = true -> forallb is_09 ds = true ->
  nonempty unit = true -> forallb is_az unit = true ->
  tokenize_pascal_case (ds ++ unit) = [ds; unit].
Proof.
  intros Hne Hds Hneu Hunit.
  destruct unit as [|u unit]; [done|]. pose proof Hunit as Hunit'.
  cbn [forallb] in Hunit'. apply andb_true_iff in Hunit' as [Hu _].
  pose proof (tokenize_pieces [(true, ds); (true, u :: unit)]) as Htok.
  cbn [text_of map snd concat] in Htok. rewrite app_nil_r in Htok.
  apply Htok. clear Htok.
  cbn [read_in_turn text_of map snd concat]. rewrite !app_nil_r.
  split; [by destruct ds|]. split.
  { apply token_match_digits; [done|done| |].
    - cbn [head_is]. by apply is_az_not_decimal.
    - cbn [head_is]. apply N.eqb_neq. intros ->. by vm_compute in Hu. }
  split; [done|]. split; [|done].
  rewrite <- (app_nil_r (u :: unit)) at 1.
  apply token_match_lowercase; [done|done|done|].
  unfold ahead_word_end. cbn [at_dollar]. by rewrite !orb_true_r.
Qed.

Lemma tokenize_word_number_unit w ds unit :
  capitalized w = true ->
  nonempty ds = true -> forallb is_09 ds = true ->
  nonempty unit = true -> forallb is_az unit = true ->
  tokenize_pascal_case (w ++ ds ++ unit) = [w; ds; unit].
Proof.
  intros Hw Hne Hds Hneu Hunit.
  destruct (digits_head ds Hne Hds) as (d & tail & -> & Hd).
  destruct unit as [|u unit]; [done|]. pose proof Hunit as Hunit'.
  cbn [forallb] in Hunit'. apply andb_true_iff in Hunit' as [Hu _].
  pose proof (tokenize_pieces
                [(true, w); (true, d :: tail); (true, u :: unit)]) as Htok.
  cbn [text_of map snd concat] in Htok. rewrite app_nil_r in Htok.
  apply Htok. clear Htok.
  cbn [read_in_turn text_of map snd concat]. rewrite !app_nil_r.
  split; [by destruct w|]. split.
  { apply token_match_capitalized; [done| |].
    - unfold ahead_word_end. cbn [app head_is].
      by rewrite (is_09_decimal d Hd), !orb_true_r.
    - cbn [app head_is]. by apply is_09_not_letter. }
  split; [done|]. split.
  { apply token_match_digits; [done|done| |].
    - cbn [head_is]. by apply is_az_not_decimal.
    - cbn [head_is]. apply N.eqb_neq. intros ->. by vm_compute in Hu. }
  split; [done|]. split; [|done].
  rewrite <- (app_nil_r (u :: unit)) at 1.
  apply token_match_lowercase; [done|done|done|].
  unfold ahead_word_end. cbn [at_dollar]. by rewrite !orb_true_r.
Qed.

(** X20. A number and the lowercase unit behind it stay one unit:
    ["35mm"] is returned as it is, and behind a capitalized word it is
    set off by one space and not taken apart. *)
Theorem unit_stays_with_its_number (w ds unit : list N) :
  capitalized w = true ->
  nonempty ds = true -> forallb is_09 ds = true ->
  nonempty unit = true -> forallb is_az unit = true ->
  tokenize_pascal_case (w ++ ds ++ unit) = [w; ds; unit]
  /\ format_pascal_words (ds ++ unit) = Ok (ds ++ unit)
  /\ format_pascal_words (w ++ ds ++ unit) = Ok (w ++ py " " ++ ds ++ unit).
Proof.
  intros Hw Hne Hds Hneu Hunit.
  split; [by apply tokenize_word_number_unit|].
  pose proof (orb_true_intro _ _ (or_introl Hw) : capitalized w || all_caps w = true)
    as Hcamel.
  pose proof (digits_isdigit ds Hne Hds) as Hisdigit.
  pose proof (lowercase_islower unit Hneu Hunit) as Hislower.
  destruct (digits_head ds Hne Hds) as (d & tail & Hdigits & Hd).
  destruct (lowercase_last unit Hneu Hunit) as (z & Hlast & Hz).
  assert (forall c, c ∈ ds ++ unit ->
            is_AZ c = true \/ is_az c = true \/ is_09 c = true) as Hchars.
  { intros c Hc. apply elem_of_app in Hc as [Hc|Hc].
    - right. right. rewrite forallb_forall in Hds.
      by apply Hds, list_elem_of_In.
    - right. left. rewrite forallb_forall in Hunit.
      by apply Hunit, list_elem_of_In. }
  rewrite !format_pascal_words_ok, !format_text_joined.
  unfold joined_text, formatted_text. split; f_equal.
  - rewrite segments_of_plain;
      [|by subst ds|by apply no_underscore_in].
    cbn [map concat]. rewrite app_nil_r. unfold segment_text.
    rewrite (tokenize_number_and_unit ds unit) by done.
    rewrite merge_pairs_step, Hisdigit, Hislower. cbn [andb merge_pairs map fst].
    assert (spacing_text [ds ++ unit] = [ds ++ unit]) as Hspacing.
    { apply (spacing_text_words (ds ++ unit) []). repeat constructor.
      subst ds. cbn [app head_is]. unfold is_alnum. by rewrite Hd, orb_true_r. }
    destruct (head_is (case_is Lower) (ds ++ unit));
      cbn [map]; rewrite Hspacing; cbn [concat]; rewrite app_nil_r;
      apply strip_trimmed_same; unfold trimmed; apply andb_true_iff;
      (split;
       [subst ds; cbn [app head_is]; by rewrite (digit_not_space d Hd)|
        rewrite head_is_rev, last_app, Hlast;
        by rewrite (letter_not_space z (or_intror Hz))]).
  - rewrite segments_of_plain.
    2:{ destruct w; [done|done]. }
    2:{ apply no_underscore_in. intros c Hc.
        apply elem_of_app in Hc as [Hc|Hc]; [|by apply Hchars].
        destruct (camel_word_letters w c Hcamel Hc); tauto. }
    cbn [map concat]. rewrite app_nil_r. unfold segment_text.
    rewrite (tokenize_word_number_unit w ds unit) by done.
    rewrite merge_pairs_step.
    rewrite (head_AZ_not_digits w (camel_word_head w Hcamel)). cbn [andb].
    rewrite merge_pairs_step, Hisdigit, Hislower. cbn [andb merge_pairs].
    assert (head_is (case_is Lower) (w ++ ds ++ unit) = false) as ->.
    { pose proof (camel_word_head w Hcamel) as Hhead.
      destruct w as [|a rest]; [done|]. cbn [app head_is] in *.
      unfold case_is. by rewrite (char_info_AZ a Hhead). }
    cbn [map]. rewrite (format_token_text_camel w Hcamel).
    rewrite spacing_text_words.
    2:{ repeat constructor; [by apply head_AZ_alnum, camel_word_head|].
        subst ds. cbn [app head_is]. unfold is_alnum.
        by rewrite Hd, orb_true_r. }
    cbn [map concat]. rewrite app_nil_r.
    apply strip_trimmed_same. unfold trimmed. apply andb_true_iff. split.
    + pose proof (camel_word_head w Hcamel) as Hhead.
      destruct w as [|a rest]; [done|]. cbn [app head_is] in *.
      by rewrite (letter_not_space a (or_introl Hhead)).
    + rewrite head_is_rev, !last_app, Hlast.
      by rewrite (letter_not_space z (or_intror Hz)).
Qed.

(** [(?<![A-Z])[A-Z]\d+(?:\.\d+)*] on a capital and its digits, where
    no capital stands in front. *)
Lemma token_match_capital_number prev c ds rest :
  prev_is is_AZ prev = false -> is_AZ c = true ->
  nonempty ds = true -> forallb is_09 ds = true ->
  head_is is_decimal rest = false ->
  head_is (fun c => (c =? 46)%N) rest = false ->
  token_match prev (c :: ds ++ rest) = Some (S (length ds)).
Proof.
  intros Hprev Hc Hne Hds Hrest Hdot.
  destruct (digits_head ds Hne Hds) as (d & tail & -> & Hd).
  destruct (is_09_not_letter d Hd) as [HAZ Haz].
  pose proof (run_app is_decimal (d :: tail) rest (digits_decimal _ Hds) Hrest)
    as Hrun.
  change ((d :: tail) ++ rest) with (d :: tail ++ rest) in *.
  unfold token_match.
  assert (acronym_before_camel (c :: d :: tail ++ rest) = None) as ->.
  { cbn [acronym_before_camel]. rewrite Hc, HAZ. unfold ahead_camel.
    destruct (tail ++ rest); [done|]. by rewrite HAZ. }
  cbn [or_else]. unfold single_cap_number. rewrite Hprev, Hc, Hrun.
  cbn [length or_else].
  change (drop (S (length tail)) (d :: tail ++ rest))
    with (drop (length tail) (tail ++ rest)).
  rewrite drop_app_length. cbn [dot_groups].
  destruct rest as [|r rest]; [by rewrite Nat.add_0_r|].
  cbn [head_is] in Hdot. by rewrite Hdot, Nat.add_0_r.
Qed.

(** [[A-Z]{2,}] on two or more capitals that no letter follows. *)
Lemma token_match_capitals prev w rest :
  all_caps w = true -> 2 <= length w ->
  head_is is_AZ rest = false -> head_is is_az rest = false ->
  token_match prev (w ++ rest) = Some (length w).
Proof.
  unfold all_caps. intros Hw Hlen HAZ Haz.
  apply andb_true_iff in Hw as [_ Hw].
  destruct w as [|c [|d caps]]; [simpl in Hlen; lia|simpl in Hlen; lia|].
  pose proof Hw as Hw'. cbn [forallb] in Hw'.
  apply andb_true_iff in Hw' as [Hc Hw']. apply andb_true_iff in Hw' as [Hd _].
  unfold token_match.
  rewrite (acronym_before_camel_none _ _ Hw HAZ Haz).
  change ((c :: d :: caps) ++ rest) with (c :: d :: caps ++ rest).
  assert (single_cap_number prev (c :: d :: caps ++ rest) = None) as ->.
  { unfold single_cap_number. destruct (prev_is is_AZ prev); [done|].
    rewrite Hc. cbn [run]. by rewrite (is_AZ_not_decimal d Hd). }
  assert (decimal_number (c :: d :: caps ++ rest) = None) as ->.
  { unfold decimal_number. cbn [run]. by rewrite (is_AZ_not_decimal c Hc). }
  assert (capitalized_word (c :: d :: caps ++ rest) = None) as ->.
  { unfold capitalized_word. cbn [lazy_lowercase].
    by rewrite Hc, (is_AZ_not_az d Hd), (is_AZ_not_az c Hc). }
  cbn [or_else]. unfold all_caps_sequence.
  change (c :: d :: caps ++ rest) with ((c :: d :: caps) ++ rest).
  by rewrite (run_app _ _ _ Hw HAZ).
Qed.

Lemma capital_number_isupper c ds :
  is_AZ c = true -> forallb is_09 ds = true -> isupper (c :: ds) = true.
Proof.
  intros Hc Hds. unfold isupper. apply andb_true_iff. split.
  - apply forallb_forall. intros x Hx. apply in_inv in Hx as [<-|Hx].
    + unfold case_is. by rewrite (char_info_AZ c Hc).
    + rewrite forallb_forall in Hds. unfold case_is.
      by rewrite (char_info_09 x (Hds x Hx)).
  - cbn [existsb]. unfold case_is. by rewrite (char_info_AZ c Hc).
Qed.

Lemma format_token_text_capital_number c ds :
  is_AZ c = true -> forallb is_09 ds = true ->
  format_token_text (c :: ds) = c :: ds.
Proof.
  intros Hc Hds. unfold format_token_text. cbn [nonempty negb].
  destruct (str_in (c :: ds) format_specials); [done|].
  by rewrite (capital_number_isupper c ds Hc Hds).
Qed.

Lemma all_caps_snoc w c :
  all_caps w = true -> is_AZ c = true ->
  all_caps (w ++ [c]) = true /\ 2 <= length (w ++ [c]).
Proof.
  unfold all_caps. intros Hw Hc. apply andb_true_iff in Hw as [Hne Hw].
  split.
  - rewrite forallb_app, Hw. cbn [forallb]. rewrite Hc.
    by destruct w.
  - rewrite length_app. destruct w; [done|]. cbn [length]. lia.
Qed.

(** X21. A capital and the digits behind it are one token when no
    capital stands in front of them: ["G1"] is returned as it is and is
    set off from a capitalized word in front of it by one space. Behind
    a run of capitals the capital belongs to the run, and the digits
    stand alone. *)
Theorem capital_keeps_its_number (w caps ds : list N) (c : N) :
  capitalized w = true -> all_caps caps = true -> is_AZ c = true ->
  nonempty ds = true -> forallb is_09 ds = true ->
  format_pascal_words ([c] ++ ds) = Ok ([c] ++ ds)
  /\ tokenize_pascal_case (w ++ [c] ++ ds) = [w; [c] ++ ds]
  /\ format_pascal_words (w ++ [c] ++ ds) = Ok (w ++ py " " ++ [c] ++ ds)
  /\ tokenize_pascal_case (caps ++ [c] ++ ds) = [caps ++ [c]; ds]
  /\ format_pascal_words (caps ++ [c] ++ ds)
     = Ok (caps ++ [c] ++ py " " ++ ds).
Proof.
  intros Hw Hcaps Hc Hne Hds.
  pose proof (orb_true_intro _ _ (or_introl Hw)
              : capitalized w || all_caps w = true) as Hcamel.
  destruct (all_caps_snoc caps c Hcaps Hc) as [Hrun Hlen].
  pose proof (orb_true_intro _ _ (or_intror Hrun)
              : capitalized (caps ++ [c]) || all_caps (caps ++ [c]) = true)
    as Hcamel'.
  destruct (digits_head ds Hne Hds) as (d & tail & Hdigits & Hd).
  destruct (digits_last ds Hne Hds) as (z & Hlast & Hz).
  destruct (capitalized_last w Hw) as (y & Hy & Hyaz).
  pose proof (camel_word_head w Hcamel) as Hhead.
  pose proof (camel_word_head _ Hcamel') as Hhead'.
  assert (forall s : list N,
            (forall x, x ∈ s -> x ∈ w \/ x ∈ caps \/ x = c \/ x ∈ ds) ->
            ch "_" ∉ s) as Hplain.
  { intros s Hs. apply no_underscore_in. intros x Hx.
    destruct (Hs x Hx) as [H|[H|[->|H]]].
    - destruct (camel_word_letters w x Hcamel H); tauto.
    - left. unfold all_caps in Hcaps. apply andb_true_iff in Hcaps as [_ Hcaps].
      rewrite forallb_forall in Hcaps. by apply Hcaps, list_elem_of_In.
    - by left.
    - right. right. rewrite forallb_forall in Hds.
      by apply Hds, list_elem_of_In. }
  assert (tokenize_pascal_case ([c] ++ ds) = [[c] ++ ds]) as Htok1.
  { pose proof (tokenize_pieces [(true, [c] ++ ds)]) as Htok.
    cbn [text_of map snd concat] in Htok. rewrite app_nil_r in Htok.
    apply Htok. cbn [read_in_turn text_of map snd concat].
    rewrite app_nil_r. split; [done|]. split; [|done]. cbn [app length].
    rewrite <- (app_nil_r ds) at 1. by apply token_match_capital_number. }
  assert (tokenize_pascal_case (w ++ [c] ++ ds) = [w; [c] ++ ds]) as Htok2.
  { pose proof (tokenize_pieces [(true, w); (true, [c] ++ ds)]) as Htok.
    cbn [text_of map snd concat] in Htok. rewrite app_nil_r in Htok.
    apply Htok. cbn [read_in_turn text_of map snd concat].
    rewrite !app_nil_r. split; [by destruct w|]. split.
    { apply token_match_capitalized; [done| |].
      - unfold ahead_word_end. cbn [app head_is]. by rewrite Hc.
      - cbn [app head_is]. by apply is_AZ_not_az. }
    split; [done|]. split; [|done]. rewrite Hy. cbn [app length].
    rewrite <- (app_nil_r ds) at 1.
    apply token_match_capital_number; try done.
    cbn [prev_is]. by apply is_az_not_AZ. }
  assert (tokenize_pascal_case (caps ++ [c] ++ ds) = [caps ++ [c]; ds])
    as Htok3.
  { pose proof (tokenize_pieces [(true, caps ++ [c]); (true, ds)]) as Htok.
    cbn [text_of map snd concat] in Htok.
    rewrite app_nil_r, <- app_assoc in Htok.
    apply Htok. cbn [read_in_turn text_of map snd concat].
    rewrite !app_nil_r. split; [by destruct caps|]. split.
    { apply token_match_capitals; [done|done| |];
        subst ds; cbn [head_is]; by apply is_09_not_letter. }
    split; [by subst ds|]. split; [|done].
    rewrite <- (app_nil_r ds) at 1. by apply token_match_digits. }
  split; [|split; [done|split; [|split; [done|]]]];
    rewrite format_pascal_words_ok, format_text_joined; f_equal;
    unfold joined_text, formatted_text.
  - rewrite segments_of_plain;
      [|done|apply Hplain; intros x Hx;
             apply elem_of_cons in Hx as [->|Hx]; tauto].
    cbn [map concat]. rewrite app_nil_r. unfold segment_text. rewrite Htok1.
    cbn [merge_pairs map app head_is]. unfold case_is at 1.
    rewrite (char_info_AZ c Hc). cbn [u_case].
    rewrite (format_token_text_capital_number c ds Hc Hds).
    rewrite (spacing_text_words (c :: ds) []).
    2:{ repeat constructor. cbn [head_is]. unfold is_alnum. by rewrite Hc. }
    cbn [map concat]. rewrite app_nil_r.
    apply strip_trimmed_same. unfold trimmed. apply andb_true_iff. split.
    + cbn [head_is]. by rewrite (letter_not_space c (or_introl Hc)).
    + rewrite head_is_rev, last_cons, Hlast. by rewrite (digit_not_space z Hz).
  - rewrite segments_of_plain;
      [|by destruct w|apply Hplain; intros x Hx;
             apply elem_of_app in Hx as [Hx|Hx]; [tauto|];
             apply elem_of_cons in Hx as [->|Hx]; tauto].
    cbn [map concat]. rewrite app_nil_r. unfold segment_text. rewrite Htok2.
    rewrite merge_pairs_no_digits.
    2:{ repeat constructor; by apply head_AZ_not_digits. }
    assert (head_is (case_is Lower) (w ++ [c] ++ ds) = false) as ->.
    { destruct w as [|a rest]; [done|]. cbn [app head_is] in *.
      unfold case_is. by rewrite (char_info_AZ a Hhead). }
    cbn [map app]. rewrite (format_token_text_camel w Hcamel),
      (format_token_text_capital_number c ds Hc Hds).
    rewrite spacing_text_words.
    2:{ repeat constructor; [by apply head_AZ_alnum|].
        cbn [head_is]. unfold is_alnum. by rewrite Hc. }
    cbn [map concat]. rewrite app_nil_r.
    apply strip_trimmed_same. unfold trimmed. apply andb_true_iff. split.
    + destruct w as [|a rest]; [done|]. cbn [app head_is] in *.
      by rewrite (letter_not_space a (or_introl Hhead)).
    + rewrite head_is_rev, !last_app. cbn [app]. rewrite last_cons, Hlast.
      by rewrite (digit_not_space z Hz).
  - rewrite segments_of_plain;
      [|by destruct caps|apply Hplain; intros x Hx;
             apply elem_of_app in Hx as [Hx|Hx]; [tauto|];
             apply elem_of_cons in Hx as [->|Hx]; tauto].
    cbn [map concat]. rewrite app_nil_r. unfold segment_text. rewrite Htok3.
    rewrite merge_pairs_step, (head_AZ_not_digits _ Hhead'). cbn [andb merge_pairs].
    assert (head_is (case_is Lower) (caps ++ [c] ++ ds) = false) as ->.
    { rewrite app_assoc. destruct (caps ++ [c]) as [|a rest]; [done|].
      cbn [app head_is] in *. unfold case_is. by rewrite (char_info_AZ a Hhead'). }
    cbn [map]. rewrite (format_token_text_camel _ Hcamel'),
      (format_token_text_digits ds Hds).
    rewrite spacing_text_words.
    2:{ repeat constructor; [by apply head_AZ_alnum|].
        subst ds. cbn [head_is]. unfold is_alnum. by rewrite Hd, orb_true_r. }
    cbn [map concat]. rewrite app_nil_r, <- !app_assoc.
    apply strip_trimmed_same. unfold trimmed. apply andb_true_iff. split.
    + rewrite app_assoc. destruct (caps ++ [c]) as [|a rest]; [done|].
      cbn [app head_is] in *. by rewrite (letter_not_space a (or_introl Hhead')).
    + rewrite head_is_rev, !last_app, Hlast.
      by rewrite (digit_not_space z Hz).
Qed.

(** ** The weight term of a subfamily *)

Lemma concat_imap_app (f : nat -> N -> list N) a b :
  concat (imap f (a ++ b))
  = concat (imap f a) ++ concat (imap (fun i => f (length a + i)) b).
Proof. by rewrite imap_app, concat_app. Qed.

(** Lowercasing a text lowercases every ASCII stretch of it in place,
    whatever stands around it. *)
Lemma lower_around_ascii before word after :
  ascii_text word = true ->
  exists front back,
    lower (before ++ word ++ after) = front ++ map ascii_lower word ++ back.
Proof.
  intros Hword. unfold lower.
  set (f := fun (i : nat) (c : N) =>
              if (c <? 128)%N then [ascii_lower c]
              else uni_lower U (before ++ word ++ after) i).
  rewrite (concat_imap_app f before), (concat_imap_app _ word).
  eexists _, _. f_equal. f_equal. apply concat_imap_ascii.
  intros i c Hc. unfold f. unfold ascii_text in Hword.
  rewrite forallb_forall in Hword. rewrite (Hword c); [done|].
  apply list_elem_of_In. by apply list_elem_of_lookup_2 in Hc.
Qed.

Lemma contains_middle p front back : contains p (front ++ p ++ back) = true.
Proof. apply contains_app_r, contains_here. Qed.

(** X22. [_extract_weight_term_from_subfamily] looks for the terms as
    substrings of the lowercased subfamily: a subfamily that holds
    [roman] in any mix of cases, even inside a longer word, gives
    [Roman], the first term of the priority list, whatever else it
    holds. The empty subfamily gives [None]; a result is one of the
    seven terms of the list, or [Regular] when none of the seven
    occurs. *)
Theorem weight_term_by_substring (before word after subfamily : list N) :
  ascii_text word = true ->
  map ascii_lower word = py "roman" ->
  _extract_weight_term_from_subfamily (before ++ word ++ after)
  = Some (py "Roman")
  /\ _extract_weight_term_from_subfamily [] = None
  /\ match _extract_weight_term_from_subfamily subfamily with
     | Some term =>
         term ∈ REGULAR_FALLBACK_PRIORITY
         \/ (term = py "Regular"
             /\ contains (py "regular") (lower subfamily) = true
             /\ Forall (fun t => contains (lower t) (lower subfamily) = false)
                  REGULAR_FALLBACK_PRIORITY)
     | None =>
         subfamily = []
         \/ (contains (py "regular") (lower subfamily) = false
             /\ Forall (fun t => contains (lower t) (lower subfamily) = false)
                  REGULAR_FALLBACK_PRIORITY)
     end.
Proof.
  intros Hascii Hword. split; [|split; [done|]].
  - unfold _extract_weight_term_from_subfamily.
    assert (nonempty (before ++ word ++ after) = true) as ->.
    { destruct word as [|c word]; [discriminate|]. by destruct before. }
    cbn [negb]. cbv zeta.
    destruct (lower_around_ascii before word after Hascii)
      as (front & back & ->).
    rewrite Hword. unfold REGULAR_FALLBACK_PRIORITY. cbn [map List.find].
    assert (lower (py "Roman") = py "roman") as -> by done.
    by rewrite contains_middle.
  - unfold _extract_weight_term_from_subfamily.
    destruct subfamily as [|c rest]; [by left|]. cbn [nonempty negb]. cbv zeta.
    destruct (List.find _ REGULAR_FALLBACK_PRIORITY) as [term|] eqn:Hfind.
    + left. apply find_some in Hfind as [Hin _]. by apply list_elem_of_In.
    + assert (Forall (fun t => contains (lower t) (lower (c :: rest)) = false)
                REGULAR_FALLBACK_PRIORITY) as Hnone.
      { apply list.Forall_forall. intros t Ht.
        apply (find_none _ _ Hfind t). by apply list_elem_of_In. }
      destruct (contains (py "regular") (lower (c :: rest))) eqn:Hregular.
      * right. done.
      * right. done.
Qed.

End Parser.

(** ** The statements at concrete inputs *)

(** [acronym_runs_kept] at ["KWAKGrotesk"] and at ["ABCD"]. *)
Lemma acronym_runs_kept_witness :
  forallb is_AZ (py "KWAK") = true
  /\ token_match ascii_only None (py "KWAKGrotesk") = Some 4
  /\ (exists tokens,
        tokenize_pascal_case ascii_only (py "KWAKGrotesk") = py "KWAK" :: tokens
        /\ concat tokens = py "Grotesk")
  /\ token_match ascii_only None (py "ABCD") = Some 4.
Proof.
  pose proof (acronym_runs_kept ascii_only (py "KWAK") (py "otesk") None
                eq_refl) as (Hword & _).
  pose proof (acronym_runs_kept ascii_only (py "ABCD") [] None
                eq_refl) as (_ & Hcaps & _).
  destruct (Hword (ch "G") (ch "r") eq_refl eq_refl eq_refl) as (Hm & Htok).
  split; [reflexivity|]. split; [exact Hm|]. split; [exact Htok|].
  exact (proj1 (Hcaps (le_S _ _ (le_S _ _ (le_n 2))) eq_refl eq_refl)).
Defined.


(** [merge_pass_single_walk] at the tokens of ["35mm50px"]. *)
Lemma merge_pass_single_walk_witness :
  all_lowercase_letters ascii_only (py "mm") = true
  /\ islower ascii_only (py "mm") = true
  /\ merge_tokens ascii_only [py "35"; py "mm"; py "50"; py "px"]
     = Ok [(py "35mm", true); (py "50px", true)].
Proof.
  pose proof (merge_pass_single_walk ascii_only
                [py "35"; py "mm"; py "50"; py "px"] (py "35mm50px"))
    as (Hwalk & _ & _ & _ & Hlower & _).
  split; [reflexivity|]. split; [exact (Hlower (py "mm") eq_refl)|].
  exact Hwalk.
Defined.

(** [money_percent_spacing] at the neighbours ["Price"] and
    ["Success"]. *)
Lemma money_percent_spacing_witness :
  starts_alpha ascii_only (py "Price")
  || _is_numeric_token ascii_only (py "Price") = true
  /\ nonempty (py "Success") = true
  /\ apply_spacing_rules ascii_only [py "Price"; py "$"]
     = Ok [py "Price"; py " $"]
  /\ apply_spacing_rules ascii_only [py "%"; py "Success"]
     = Ok [py "% "; py "Success"]
  /\ starts_alpha ascii_only (py "Success") = true
  /\ apply_spacing_rules ascii_only [py "$"; py "Success"]
     = Ok [py "$"; py " Success"].
Proof.
  pose proof (money_percent_spacing ascii_only (py "Price") (py "Success")
                None)
    as (_ & _ & _ & _ & _ & _ & _ & Hprev & Hnext & Hword & _).
  split; [reflexivity|]. split; [reflexivity|].
  split; [exact (proj1 (Hprev eq_refl))|].
  split; [exact (proj1 (Hnext eq_refl))|].
  split; [reflexivity|exact (proj2 (Hword eq_refl))].
Defined.

(** [cff2_marker_dropped] at ["Helvetica-Regular.CFF2.otf"]. *)
Lemma cff2_marker_dropped_witness :
  lacks (py "/:\.") (py "Helvetica-Regular") = true
  /\ lacks (py "/:\.") (py "otf") = true
  /\ nonempty (py "Helvetica-Regular") = true
  /\ _normalize_basename (py "Helvetica-Regular.CFF2.otf") true
     = py "Helvetica-Regular"
  /\ _normalize_basename (py "Helvetica-Regular.CFF2") true
     = py "Helvetica-Regular".
Proof.
  pose proof (cff2_marker_dropped ascii_only (py "Helvetica-Regular")
                (py "otf") true eq_refl eq_refl eq_refl)
    as (_ & Hmarker & Hsuffix & _ & _ & _).
  split; [reflexivity|]. split; [reflexivity|]. split; [reflexivity|].
  split; [exact Hmarker|exact Hsuffix].
Defined.

(** [split_without_hyphen] at ["NoHyphenName"]. *)
Lemma split_without_hyphen_witness :
  contains (py "-") (py "NoHyphenName") = false
  /\ lacks (py "/:\.") (py "NoHyphenName") = true
  /\ split_family_subfamily ascii_only (py "NoHyphenName") true
     = bind (format_pascal_words ascii_only (py "NoHyphenName"))
            (fun family => Ok (family, [])).
Proof.
  split; [reflexivity|]. split; [reflexivity|].
  exact (proj2 (split_without_hyphen ascii_only (py "NoHyphenName") true
                  eq_refl) eq_refl).
Defined.

(** The tables [ascii_only] satisfy what the result on double spaces
    asks of the case mappings. *)
Lemma ascii_only_spaceless : spaceless_case_maps ascii_only.
Proof.
  split.
  - intros c Hc H. simpl in H. apply list_elem_of_singleton in H.
    subst c. change (ch " ") with 32%N in Hc. lia.
  - intros s i c Hs Hc H. simpl in H. rewrite Hs in H.
    apply list_elem_of_singleton in H.
    subst c. change (ch " ") with 32%N in Hc. lia.
Qed.

(** [result_is_trimmed_and_single_spaced] at ["Font!_Name"]. *)
Lemma result_is_trimmed_and_single_spaced_witness :
  lacks (py " ") (py "Font!_Name") = true
  /\ exists out,
       format_pascal_words ascii_only (py "Font!_Name") = Ok out
       /\ trimmed ascii_only out = true
       /\ no_double_space out = true.
Proof.
  split; [reflexivity|].
  destruct (result_is_trimmed_and_single_spaced ascii_only
              (py "Font!_Name") true) as ((out & Hout & Htrim & Hsingle) & _).
  exists out. split; [exact Hout|]. split; [exact Htrim|].
  exact (Hsingle ascii_only_spaceless eq_refl).
Defined.

(** ** Where the specification says more than the code does *)

(** C4 as it is worded fails at ["35mm."]: the token behind the digits
    is ["mm."], which is not made of lowercase letters only, and yet
    [islower()] holds for it, so the code joins the two tokens where
    the worded pass keeps them apart. *)
Lemma merge_pass_counterexample :
  tokenize_pascal_case ascii_only (py "35mm.") = [py "35"; py "mm."]
  /\ all_lowercase_letters ascii_only (py "mm.") = false
  /\ islower ascii_only (py "mm.") = true
  /\ merge_tokens ascii_only [py "35"; py "mm."] = Ok [(py "35mm.", true)]
  /\ merge_by_the_words ascii_only [py "35"; py "mm."]
     = [(py "35", false); (py "mm.", false)]
  /\ format_pascal_words ascii_only (py "35mm.") = Ok (py "35mm.").
Proof. repeat split; vm_compute; reflexivity. Qed.

(** C5 as it is worded fails at ["$Price"]: the [$] token writes no
    space behind itself, but the word that follows writes its own
    leading space, so a space does come after the [$]. The same happens
    behind a number and between two words. *)
Lemma dollar_space_counterexample :
  tokenize_pascal_case ascii_only (py "$Price") = [py "$"; py "Price"]
  /\ space_after ascii_only (py "$") (Some (py "Price")) = Ok false
  /\ space_before ascii_only (Some (py "$")) (py "Price") = Ok true
  /\ apply_spacing_rules ascii_only [py "$"; py "Price"]
     = Ok [py "$"; py " Price"]
  /\ format_pascal_words ascii_only (py "$Price") = Ok (py "$ Price")
  /\ format_pascal_words ascii_only (py "100$Off") = Ok (py "100$ Off")
  /\ format_pascal_words ascii_only (py "Cost$Price")
     = Ok (py "Cost $ Price").
Proof. repeat split; vm_compute; reflexivity. Qed.

(** C7 as it is worded fails at ["Font.ttf"], which holds no hyphen:
    [split_family_subfamily] drops the extension before it formats,
    [format_pascal_words] formats the whole string. *)
Lemma split_without_hyphen_counterexample :
  contains (py "-") (py "Font.ttf") = false
  /\ split_family_subfamily ascii_only (py "Font.ttf") true
     = Ok (py "Font", py "")
  /\ format_pascal_words ascii_only (py "Font.ttf") = Ok (py "F ont. ttf")
  /\ split_family_subfamily ascii_only (py "Font.ttf") true
     <> bind (format_pascal_words ascii_only (py "Font.ttf"))
             (fun family => Ok (family, [])).
Proof.
  split; [reflexivity|]. split; [vm_compute; reflexivity|].
  split; [vm_compute; reflexivity|]. vm_compute. discriminate.
Qed.

(** C10 as it is worded fails at ["a b"]: the space of the input stays
    in the token ["a "], and the next token writes its leading space
    behind it. *)
Lemma double_space_counterexample :
  tokenize_pascal_case ascii_only (py "a b") = [py "a "; py "b"]
  /\ format_pascal_words ascii_only (py "a b") = Ok (py "a  b")
  /\ no_double_space (py "a  b") = false
  /\ split_family_subfamily ascii_only (py "a b") true
     = Ok (py "a  b", py "").
Proof. repeat split; vm_compute; reflexivity. Qed.

(** ** The further results at concrete inputs *)

(** [split_at_hyphen_of_join] at ["Helvetica"] and ["Semi-Bold"]. *)
Lemma split_at_hyphen_of_join_witness :
  contains (py "-") (py "Helvetica") = false
  /\ _split_at_hyphen (py "Helvetica-Semi-Bold")
     = [py "Helvetica"; py "Semi-Bold"].
Proof.
  split; [reflexivity|].
  exact (proj1 (split_at_hyphen_of_join (py "Helvetica") (py "Semi-Bold")
                  eq_refl)).
Defined.

(** [directory_is_ignored] at ["fonts/static/Arial-Bold.ttf"]. *)
Lemma directory_is_ignored_witness :
  lacks (py "/") (py "Arial-Bold.ttf") = true
  /\ split_family_subfamily ascii_only (py "fonts/static/Arial-Bold.ttf") true
     = split_family_subfamily ascii_only (py "Arial-Bold.ttf") true.
Proof.
  split; [reflexivity|].
  exact (proj1 (proj2 (directory_is_ignored ascii_only (py "fonts/static")
                         (py "Arial-Bold.ttf") true eq_refl))).
Defined.

(** [extension_is_dropped] at ["Arial-Bold.ttf"]. *)
Lemma extension_is_dropped_witness :
  lacks (py "/:\.") (py "Arial-Bold") = true
  /\ lacks (py "/:\.") (py "ttf") = true
  /\ nonempty (py "Arial-Bold") = true
  /\ _normalize_basename (py "Arial-Bold.ttf") true = py "Arial-Bold"
  /\ _normalize_basename (py "Arial-Bold.ttf") false = py "Arial-Bold.ttf".
Proof.
  pose proof (extension_is_dropped ascii_only (py "Arial-Bold") (py "ttf")
                eq_refl eq_refl eq_refl) as (Hstrip & Hkeep & _).
  split; [reflexivity|]. split; [reflexivity|]. split; [reflexivity|].
  split; [exact Hstrip|exact Hkeep].
Defined.

(** [spacing_keeps_the_tokens] at the tokens of ["Font!Name"], with an
    empty token among them. *)
Lemma spacing_keeps_the_tokens_witness :
  exists out a b,
    apply_spacing_rules ascii_only [py "Font"; []; py "!"; py "Name"] = Ok out
    /\ head out = Some (py "Font" ++ pad a)
    /\ list.last out = Some (pad b ++ py "Name").
Proof.
  destruct (spacing_keeps_the_tokens ascii_only
              [py "Font"; []; py "!"; py "Name"])
    as (out & Hout & _ & Hhead & Hlast).
  destruct (Hhead (py "Font") [py "!"; py "Name"] eq_refl) as (a & Ha).
  destruct (Hlast [py "Font"; py "!"] (py "Name") eq_refl) as (b & Hb).
  exists out, a, b. split; [exact Hout|]. split; [exact Ha|exact Hb].
Defined.

(** [no_space_marks_attach] at the tokens of ["MyFont*NameBold"]. *)
Lemma no_space_marks_attach_witness :
  str_in (py "*") NO_SPACE = true
  /\ nonempty (py "Font") = true
  /\ nonempty (py "Name") = true
  /\ exists outs_before b a outs_after,
       apply_spacing_rules ascii_only
         [py "My"; py "Font"; py "*"; py "Name"; py "Bold"]
       = Ok (outs_before ++ [pad b ++ py "Font"; py "*"; py "Name" ++ pad a]
             ++ outs_after)
       /\ length outs_before = 1 /\ length outs_after = 1.
Proof.
  split; [reflexivity|]. split; [reflexivity|]. split; [reflexivity|].
  exact (no_space_marks_attach ascii_only [py "My"] [py "Bold"]
           (py "Font") (py "*") (py "Name") eq_refl eq_refl eq_refl).
Defined.

(** [format_token_on_ascii] at ["hELLO"]. *)
Lemma format_token_on_ascii_witness :
  ascii_text (py "hELLO") = true
  /\ exists out,
       _format_token ascii_only (py "hELLO") = Ok out
       /\ _format_token ascii_only out = Ok out
       /\ map ascii_lower out = py "hello".
Proof.
  split; [reflexivity|].
  destruct (format_token_on_ascii ascii_only (py "hELLO") eq_refl)
    as (out & Hout & Hagain & _ & Hlower).
  exists out. split; [exact Hout|]. split; [exact Hagain|exact Hlower].
Defined.

(** [camel_words_are_the_tokens] at the words of ["KWAKGroteskBold"]. *)
Lemma camel_words_are_the_tokens_witness :
  camel_words [py "KWAK"; py "Grotesk"; py "Bold"] = true
  /\ tokenize_pascal_case ascii_only (py "KWAKGroteskBold")
     = [py "KWAK"; py "Grotesk"; py "Bold"].
Proof.
  split; [reflexivity|].
  exact (camel_words_are_the_tokens ascii_only
           [py "KWAK"; py "Grotesk"; py "Bold"] eq_refl).
Defined.

(** [camel_words_are_spaced] at the words of ["AdobeGaramondPro"]. *)
Lemma camel_words_are_spaced_witness :
  camel_words [py "Adobe"; py "Garamond"; py "Pro"] = true
  /\ format_pascal_words ascii_only (py "AdobeGaramondPro")
     = Ok (py "Adobe Garamond Pro").
Proof.
  split; [reflexivity|].
  exact (camel_words_are_spaced ascii_only
           [py "Adobe"; py "Garamond"; py "Pro"] eq_refl).
Defined.

(** [camel_segments_are_spaced] at the parts of ["_ABC_EFGRegular_"]. *)
Lemma camel_segments_are_spaced_witness :
  forallb camel_words [[]; [py "ABC"]; [py "EFG"; py "Regular"]; []] = true
  /\ format_pascal_words ascii_only (py "_ABC_EFGRegular_")
     = Ok (py "ABC EFG Regular").
Proof.
  split; [reflexivity|].
  exact (camel_segments_are_spaced ascii_only
           [[]; [py "ABC"]; [py "EFG"; py "Regular"]; []] eq_refl).
Defined.

(** [format_keeps_the_content] at ["FitU&lc_35mm"]. *)
Lemma format_keeps_the_content_witness :
  ascii_text (py "FitU&lc_35mm") = true
  /\ exists out,
       format_pascal_words ascii_only (py "FitU&lc_35mm") = Ok out
       /\ content out = py "fitu&lc35mm"
       /\ lacks (py "_") out = true.
Proof.
  split; [reflexivity|].
  destruct (format_keeps_the_content ascii_only (py "FitU&lc_35mm") eq_refl)
    as (out & Hout & Hcontent & Hunderscore & _).
  exists out. split; [exact Hout|]. split; [exact Hcontent|exact Hunderscore].
Defined.

(** ** The grouping functions on a small directory *)

Example group_fonts_example :
  group_fonts_by_family_filename ascii_only
    [py "a/OpenSans-Bold.ttf"; py "Roboto-Regular.ttf";
     py "b/Open_Sans-Italic.otf"; py "-Thin.ttf"]
  = Ok [(py "Open Sans", [py "a/OpenSans-Bold.ttf"; py "b/Open_Sans-Italic.otf"]);
        (py "Roboto", [py "Roboto-Regular.ttf"]);
        (py "Unknown", [py "-Thin.ttf"])]
  /\ _group_fonts_fallback
       [py "a/OpenSans-Bold.ttf"; py "Roboto-Regular.ttf";
        py "b/Open_Sans-Italic.otf"; py "-Thin.ttf"]
     = Ok [(py "OpenSans", [py "a/OpenSans-Bold.ttf"]);
           (py "Roboto", [py "Roboto-Regular.ttf"]);
           (py "Open_Sans", [py "b/Open_Sans-Italic.otf"]);
           (py "", [py "-Thin.ttf"])].
Proof. split; vm_compute; reflexivity. Qed.

(** [mark_between_words] at ["Condensed&Wide"] and at ["Font)Name"],
    where the mark is not a token of the pattern. *)
Lemma mark_between_words_witness :
  capitalized (py "Condensed") || all_caps (py "Condensed") = true
  /\ capitalized (py "Wide") || all_caps (py "Wide") = true
  /\ is_word_stop (ch "&") = true
  /\ format_pascal_words ascii_only (py "Condensed&Wide")
     = Ok (py "Condensed & Wide")
  /\ format_pascal_words ascii_only (py "Font)Name") = Ok (py "Font) Name").
Proof.
  split; [reflexivity|]. split; [reflexivity|]. split; [reflexivity|].
  split.
  - exact (proj2 (mark_between_words ascii_only (py "Condensed") (py "Wide")
                    (ch "&") eq_refl eq_refl eq_refl)).
  - exact (proj2 (mark_between_words ascii_only (py "Font") (py "Name")
                    (ch ")") eq_refl eq_refl eq_refl)).
Defined.

(** [formatting_again_breaks_words] at ["QueenSans"]. *)
Lemma formatting_again_breaks_words_witness :
  capitalized (py "Queen") = true
  /\ capitalized (py "Sans") || all_caps (py "Sans") = true
  /\ format_pascal_words ascii_only (py "QueenSans") = Ok (py "Queen Sans")
  /\ format_pascal_words ascii_only (py "Queen Sans") = Ok (py "Q ueen  Sans")
  /\ demo_names ascii_only (py "QueenSans") = Ok (py "Q ueen  Sans", py "").
Proof.
  split; [reflexivity|]. split; [reflexivity|].
  exact (formatting_again_breaks_words ascii_only (ch "Q") (py "ueen")
           (py "Sans") eq_refl eq_refl).
Defined.

(** [unit_stays_with_its_number] at ["Missouri35mm"]. *)
Lemma unit_stays_with_its_number_witness :
  capitalized (py "Missouri") = true
  /\ forallb is_09 (py "35") = true
  /\ forallb is_az (py "mm") = true
  /\ format_pascal_words ascii_only (py "35mm") = Ok (py "35mm")
  /\ format_pascal_words ascii_only (py "Missouri35mm")
     = Ok (py "Missouri 35mm").
Proof.
  split; [reflexivity|]. split; [reflexivity|]. split; [reflexivity|].
  exact (proj2 (unit_stays_with_its_number ascii_only (py "Missouri")
                  (py "35") (py "mm") eq_refl eq_refl eq_refl eq_refl
                  eq_refl)).
Defined.

(** [capital_keeps_its_number] at ["AdobeG1"] and at ["ABG1"]. *)
Lemma capital_keeps_its_number_witness :
  capitalized (py "Adobe") = true
  /\ all_caps (py "AB") = true
  /\ is_AZ (ch "G") = true
  /\ forallb is_09 (py "1") = true
  /\ format_pascal_words ascii_only (py "G1") = Ok (py "G1")
  /\ format_pascal_words ascii_only (py "AdobeG1") = Ok (py "Adobe G1")
  /\ format_pascal_words ascii_only (py "ABG1") = Ok (py "ABG 1").
Proof.
  pose proof (capital_keeps_its_number ascii_only (py "Adobe") (py "AB")
                (py "1") (ch "G") eq_refl eq_refl eq_refl eq_refl eq_refl)
    as (Hbare & _ & Hword & _ & Hcaps).
  split; [reflexivity|]. split; [reflexivity|]. split; [reflexivity|].
  split; [reflexivity|]. split; [exact Hbare|]. split; [exact Hword|exact Hcaps].
Defined.

(** [weight_term_by_substring] at ["ExtraROMANesque Bold"]. *)
Lemma weight_term_by_substring_witness :
  ascii_text (py "ROMAN") = true
  /\ map ascii_lower (py "ROMAN") = py "roman"
  /\ _extract_weight_term_from_subfamily ascii_only (py "ExtraROMANesque Bold")
     = Some (py "Roman").
Proof.
  split; [reflexivity|]. split; [reflexivity|].
  exact (proj1 (weight_term_by_substring ascii_only (py "Extra") (py "ROMAN")
                  (py "esque Bold") [] eq_refl eq_refl)).
Defined.

(** The weight terms of some subfamilies: the first term of the
    priority list that occurs wins, also against [Regular]. *)
Example weight_term_example :
  map (_extract_weight_term_from_subfamily ascii_only)
    [py "Semilight Italic"; py "Light Regular"; py "Regular"; py "Bold";
     py "Text Book"]
  = [Some (py "Light"); Some (py "Light"); Some (py "Regular"); None;
     Some (py "Book")].
Proof. vm_compute. reflexivity. Qed.
